(** * genSTEM.Model: probe-position generator and Gaussian image synthesis

    A shallow embedding of [genSTEM/Model.py].

    - Numbers.  NumPy's float64 values are idealised as real numbers ([R]):
      rounding, overflow, [inf] and [nan] are not modelled, and a division
      by zero has the value Rocq's total division gives it.
    - Arrays are nested lists in row-major order: an [(Ny, Nx)] array is a
      list of [Ny] rows of [Nx] entries, and the [(2, Ny, Nx)] probe grid is
      the pair of its two channels.  An array without rows carries no
      column count.
    - Effects.  Code that draws random numbers or raises threads a
      generator state and an exception through a small monad [M].  The
      module's [cp] is taken to be NumPy itself, so [np.random] and
      [cp.random] are one generator.
    - Python truth values follow the language: a number is true when it is
      not zero, a tuple or list when it is not empty, an [ase.Atoms] object
      when it holds an atom, a NumPy array of several elements has none. *)

From Stdlib Require Import Reals Lra Lia List Arith ZArith Bool.
From Stdlib Require Import Permutation Sorted.
Import ListNotations.
Local Open Scope R_scope.

(* ===================================================================== *)
(** ** Array primitives *)
(* ===================================================================== *)

Module Np.

Definition array1 := list R.
Definition array2 := list (list R).
Definition array3 := list (list (list R)).

(** Elementwise combination of two arrays of the same length. *)
Fixpoint map2 {A B C : Type} (f : A -> B -> C) (l1 : list A) (l2 : list B)
  : list C :=
  match l1, l2 with
  | a :: l1', b :: l2' => f a b :: map2 f l1' l2'
  | _, _ => []
  end.

Definition zeros1 (n : nat) : array1 := repeat 0 n.
Definition zeros2 (ny nx : nat) : array2 := repeat (zeros1 nx) ny.
Definition ones1 (n : nat) : array1 := repeat 1 n.

(** [a.shape] of a two-dimensional array. *)
Definition shape2 (a : array2) : nat * nat := (length a, length (hd [] a)).

(** [a[r, c]]. *)
Definition at2 (a : array2) (r c : nat) : R := nth c (nth r a []) 0.

(** [a + b], [a - b] on arrays of one shape. *)
Definition add2 (a b : array2) : array2 := map2 (map2 Rplus) a b.
Definition sub2 (a b : array2) : array2 := map2 (map2 Rminus) a b.

(** [a + col[:, None]]: one value per row, broadcast along the row. *)
Definition add_col (a : array2) (col : array1) : array2 :=
  map2 (fun row v => map (fun z => z + v) row) a col.

(** [a - s] with a scalar [s]. *)
Definition sub_scalar2 (a : array2) (s : R) : array2 :=
  map (map (fun z => z - s)) a.

(** [a.sum()] over a flat array, and over the last axis of a 3-d one. *)
Definition sum1 (l : array1) : R := fold_right Rplus 0 l.

(** [a.reshape((-1,))] and [flat.reshape((ny, nx))]. *)
Definition ravel (a : array2) : array1 := concat a.

Fixpoint reshape2 (ny nx : nat) (flat : array1) : array2 :=
  match ny with
  | O => []
  | S ny' => firstn nx flat :: reshape2 ny' nx (skipn nx flat)
  end.

(** [a.max()] and [a.min()] of a non-empty flat array. *)
Definition max1 (x : R) (l : array1) : R := fold_left Rmax l x.
Definition min1 (x : R) (l : array1) : R := fold_left Rmin l x.

(** [np.meshgrid(xs, ys)] with the default 'xy' indexing: both results have
    shape [(len ys, len xs)]. *)
Definition meshgrid (xs ys : array1) : array2 * array2 :=
  (repeat xs (length ys), map (fun y => repeat y (length xs)) ys).

(** [ceil x] as an integer: [up] is the least integer strictly above. *)
Definition ceilZ (x : R) : Z := (1 - up (- x))%Z.

(** Number of entries of [arange(start, stop, step)]:
    [ceil((stop - start) / step)], none when that is not positive. *)
Definition arange_len (start stop step : R) : nat :=
  Z.to_nat (ceilZ ((stop - start) / step)).

(** The entries of [arange(start, stop, step)] for a non-zero [step]. *)
Definition arange_values (start stop step : R) : array1 :=
  map (fun i => start + INR i * step) (seq 0 (arange_len start stop step)).

(** [np.linspace(start, stop, num, endpoint=False)]. *)
Definition linspace_open (start stop : R) (num : nat) : array1 :=
  map (fun i => INR i * ((stop - start) / INR num) + start) (seq 0 num).

(** [a[:side, :side]]. *)
Definition crop (side : nat) (a : array2) : array2 :=
  map (firstn side) (firstn side a).

End Np.
Import Np.

(* ===================================================================== *)
(** ** Exceptions and the random generator *)
(* ===================================================================== *)

Inductive exn : Type :=
| AttributeError
| ValueError
| TypeError
| NameError.

(** The ambient generator: an infinite stream of draws of
    [random.random()] and the number of draws consumed so far. *)
Record rng : Type := mkRng { draws : nat -> R; used : nat }.

(** Computations that may draw random numbers and may raise. *)
Definition M (A : Type) : Type := rng -> exn + (A * rng).

Definition ret {A : Type} (a : A) : M A := fun g => inr (a, g).
Definition raise {A : Type} (e : exn) : M A := fun _ => inl e.
Definition bind {A B : Type} (c : M A) (k : A -> M B) : M B :=
  fun g => match c g with
           | inl e => inl e
           | inr (a, g') => k a g'
           end.

Declare Scope m_scope.
Delimit Scope m_scope with M.
Notation "x <- c ;; k" := (bind c (fun x => k))
  (at level 61, c at next level, right associativity) : m_scope.
Notation "' p <- c ;; k" := (bind c (fun x => let p := x in k))
  (at level 61, p pattern, c at next level, right associativity) : m_scope.

(** [np.arange(start, stop, step)] on floats.  With a zero step NumPy
    cannot compute a length and raises. *)
Definition arange (start stop step : R) : exn + array1 :=
  if Req_dec_T step 0
  then inl ValueError
  else inr (arange_values start stop step).

(** [random.random()] and [random.random(n)]. *)
Definition random_one : M R :=
  fun g => inr (draws g (used g), mkRng (draws g) (S (used g))).
Definition random_n (n : nat) : M array1 :=
  fun g => inr (map (fun i => draws g (used g + i)%nat) (seq 0 n),
                mkRng (draws g) (used g + n)).

Fixpoint mapM {A B : Type} (f : A -> M B) (l : list A) : M (list B) :=
  match l with
  | [] => ret []
  | a :: l' => (b <- f a ;; bs <- mapM f l' ;; ret (b :: bs))%M
  end.

(* ===================================================================== *)
(** ** Module-level functions *)
(* ===================================================================== *)

(** [Gaussian2D(x, y, A, xc, yc, sigma)] at one coordinate, for a non-zero
    [sigma].  At [sigma = 0] the code divides by zero (an exception on
    Python scalars, inf or nan on arrays) and this real expression does
    not describe it: see [Gaussian2D_checked], and the hypothesis
    [sigma <> 0] of the statements about values. *)
Definition Gaussian2D (x y A xc yc sigma : R) : R :=
  A * exp (- ((x - xc) ^ 2 + (y - yc) ^ 2) / (2 * sigma ^ 2)).

(** The same call on coordinate arrays [X], [Y] with scalar parameters. *)
Definition Gaussian2D_grid (X Y : array2) (A xc yc sigma : R) : array2 :=
  map2 (map2 (fun x y => Gaussian2D x y A xc yc sigma)) X Y.


(** The division of [Gaussian2D] read as a partial operation: Python's
    scalar [/] raises on a zero divisor and NumPy's yields inf or nan. *)
Definition checked_div (a b : R) : option R :=
  if Req_dec_T b 0 then None else Some (a / b).

Definition Gaussian2D_checked (x y A xc yc sigma : R) : option R :=
  match checked_div (- ((x - xc) ^ 2 + (y - yc) ^ 2)) (2 * sigma ^ 2) with
  | None => None
  | Some q => Some (A * exp q)
  end.

Definition deg2rad (deg : R) : R := deg * (PI / 180).

(** [rotation_matrix(deg, clockwise_positive)] as its four entries
    [((m00, m01), (m10, m11))]. *)
Definition rotation_matrix (deg : R) (clockwise_positive : bool)
  : (R * R) * (R * R) :=
  let c := cos (deg2rad deg) in
  let s := sin (deg2rad deg) in
  if clockwise_positive then ((c, s), (- s, c)) else ((c, - s), (s, c)).

(** [a.T] of an [(n0, n1)] array and of an [(n0, n1, n2)] array: the axes
    are reversed, [a.T[k, j, i] = a[i, j, k]]. *)
Definition at3 (a : array3) (i j k : nat) : R :=
  nth k (nth j (nth i a []) []) 0.

Definition transpose2 (n0 n1 : nat) (a : array2) : array2 :=
  map (fun j => map (fun i => at2 a i j) (seq 0 n0)) (seq 0 n1).

Definition transpose3 (n0 n1 n2 : nat) (a : array3) : array3 :=
  map (fun k => map (fun j => map (fun i => at3 a i j k) (seq 0 n0))
                    (seq 0 n1)) (seq 0 n2).

(** [add_drift(XYshape, drift_vector, drift_speed)], called with the
    spatial shape [(Ny, Nx)].  The result has shape [(2, Ny, Nx)]. *)
Definition add_drift (XYshape : nat * nat) (drift_vector : R * R)
    (drift_speed : R) : array2 * array2 :=
  let '(ny, nx) := XYshape in
  let drift_speed := drift_speed / INR (ny * nx) in
  let drift_vector := [- fst drift_vector; - snd drift_vector] in
  let probe_indices := reshape2 ny nx (map INR (seq 0 (ny * nx))) in
  let indices_T := map (map (fun k => [k])) (transpose2 ny nx probe_indices) in
  let scaled := map (fun v => drift_speed * v) drift_vector in
  let product :=
    map (map (fun cell => map2 (fun v k => v * k) scaled
                               (repeat (hd 0 cell) 2))) indices_T in
  let drift := transpose3 nx ny 2 product in
  (nth 0 drift [], nth 1 drift []).

(** A jitter strength is a number or a 2-tuple of numbers. *)
Inductive strength_t : Type :=
| Scalar (s : R)
| Pair (sx sy : R).

(** [add_line_jitter(XYshape, strength, horizontal, vertical)], called with
    the grid's shape [(2, Ny, Nx)]. *)
Definition add_line_jitter (XYshape : nat * nat * nat) (strength : strength_t)
    (horizontal vertical : bool) : M (array2 * array2) :=
  let '(_, ny, nx) := XYshape in
  let jitter := (zeros2 ny nx, zeros2 ny nx) in
  let '(strengthx, strengthy) :=
    match strength with
    | Pair sx sy => (sx, sy)
    | Scalar s => (s, s)
    end in
  (jitter <- (if horizontal
              then (u <- random_n ny ;;
                    ret (add_col (fst jitter)
                                 (map (fun v => strengthx * (2 * v - 1)) u),
                         snd jitter))
              else ret jitter) ;;
   jitter <- (if vertical
              then (u <- random_n ny ;;
                    ret (fst jitter,
                         add_col (snd jitter)
                                 (map (fun v => strengthy * (2 * v - 1)) u)))
              else ret jitter) ;;
   ret jitter)%M.

(* ===================================================================== *)
(** ** class ImageModel *)
(* ===================================================================== *)

(** An [ase.Atoms] object: per atom a position [(x, y, z)] and an atomic
    number.  It is truthy when it holds at least one atom. *)
Record Atom : Type := mkAtom { apos : R * R * R; anum : Z }.
Definition Atoms := list Atom.

(** What a caller may pass as [positions]: nothing, a Python list of
    [(x, y)] rows, or an [(N, 2)] array. *)
Inductive positions_arg : Type :=
| PosNone
| PosList (rows : list (R * R))
| PosArray (rows : list (R * R)).

Record Args : Type := mkArgs {
  arg_atoms : option Atoms;
  arg_positions : positions_arg;
  arg_numbers : option (list Z);
  arg_scan_rotation : R;
  arg_drift_speed : R;
  arg_drift_vector : R * R;
  arg_pixel_size : R;
  arg_jitter_strength : strength_t;
  arg_jitter_horizontal : bool;
  arg_jitter_vertical : bool;
  arg_sigma : R;
  arg_power : R;
  arg_centre_drift : bool;
  arg_square : bool;
  arg_vacuum : R;
  arg_fast : bool
}.

(** The defaults of [__init__]'s signature. *)
Definition default_args : Args :=
  {| arg_atoms := None; arg_positions := PosNone; arg_numbers := None;
     arg_scan_rotation := 0; arg_drift_speed := 0; arg_drift_vector := (1, 0);
     arg_pixel_size := 1 / 10; arg_jitter_strength := Scalar 0;
     arg_jitter_horizontal := true; arg_jitter_vertical := false;
     arg_sigma := 4 / 10; arg_power := 18 / 10;
     arg_centre_drift := true; arg_square := false; arg_vacuum := 5;
     arg_fast := false |}.

Record ImageModel : Type := mkImageModel {
  atom_positions : list (R * R);
  atom_numbers : list R;
  number_of_atoms : nat;
  pixel_size : R;
  sigma : R;
  power : R;
  jitter_strength : strength_t;
  jitter_horizontal : bool;
  jitter_vertical : bool;
  drift_speed : R;
  drift_vector : R * R;
  centre_drift : bool;
  scan_rotation : R;
  square : bool;
  margin : R;
  probe_positions : array2 * array2;
  parameters : array1 * array1 * array1 * array1
}.

Definition set_probe_positions (self : ImageModel) (p : array2 * array2)
  : ImageModel :=
  mkImageModel (atom_positions self) (atom_numbers self)
    (number_of_atoms self) (pixel_size self) (sigma self) (power self)
    (jitter_strength self) (jitter_horizontal self) (jitter_vertical self)
    (drift_speed self) (drift_vector self) (centre_drift self)
    (scan_rotation self) (square self) (margin self) p (parameters self).

Definition set_parameters (self : ImageModel)
    (p : array1 * array1 * array1 * array1) : ImageModel :=
  mkImageModel (atom_positions self) (atom_numbers self)
    (number_of_atoms self) (pixel_size self) (sigma self) (power self)
    (jitter_strength self) (jitter_horizontal self) (jitter_vertical self)
    (drift_speed self) (drift_vector self) (centre_drift self)
    (scan_rotation self) (square self) (margin self)
    (probe_positions self) p.

(** Python truth values. *)
Definition truthy_R (x : R) : bool := if Req_dec_T x 0 then false else true.

Definition truthy_strength (s : strength_t) : bool :=
  match s with
  | Scalar x => truthy_R x
  | Pair _ _ => true
  end.

Definition truthy_atoms (a : option Atoms) : bool :=
  match a with
  | Some (_ :: _) => true
  | _ => false
  end.

(** [bool(positions)]: an array of more than one element has no truth
    value, and an [(N, 2)] array with [N >= 1] has [2 N] elements; an
    empty array is false (with a deprecation warning in NumPy 1.x). *)
Definition truthy_positions (p : positions_arg) : exn + bool :=
  match p with
  | PosNone => inr false
  | PosList [] => inr false
  | PosList (_ :: _) => inr true
  | PosArray [] => inr false
  | PosArray (_ :: _) => inl ValueError
  end.

(** [positions[:, :2]]: a list cannot be indexed by a tuple. *)
Definition slice_positions (p : positions_arg) : exn + list (R * R) :=
  match p with
  | PosNone => inl TypeError
  | PosList _ => inl TypeError
  | PosArray rows => inr rows
  end.

Definition lift {A : Type} (r : exn + A) : M A :=
  match r with
  | inl e => raise e
  | inr a => ret a
  end.

(** Column-wise [a.min(0)] and [a.max(0)] of an [(N, 2)] array; an empty
    array has no minimum. *)
Definition min0 (a : list (R * R)) : M (R * R) :=
  match a with
  | [] => raise ValueError
  | p :: l => ret (min1 (fst p) (map fst l), min1 (snd p) (map snd l))
  end.

Definition max0 (a : list (R * R)) : M (R * R) :=
  match a with
  | [] => raise ValueError
  | p :: l => ret (max1 (fst p) (map fst l), max1 (snd p) (map snd l))
  end.

(** [a.max()] and [a.min()] over all entries of a 2-d array. *)
Definition amax (a : array2) : M R :=
  match ravel a with
  | [] => raise ValueError
  | x :: l => ret (max1 x l)
  end.

Definition amin (a : array2) : M R :=
  match ravel a with
  | [] => raise ValueError
  | x :: l => ret (min1 x l)
  end.

(** The scan-rotation step of [create_probe_positions]: rotate every
    sample about the per-channel mean of the grid it is given. *)
Definition rotate_about_mean (deg : R) (ny nx : nat) (p : array2 * array2)
  : array2 * array2 :=
  let mean0 := sum1 (ravel (fst p)) / INR (ny * nx) in
  let mean1 := sum1 (ravel (snd p)) / INR (ny * nx) in
  let f0 := map (fun v => v - mean0) (ravel (fst p)) in
  let f1 := map (fun v => v - mean1) (ravel (snd p)) in
  let '((m00, m01), (m10, m11)) := rotation_matrix deg false in
  let r0 := map2 (fun a b => m00 * a + m01 * b + mean0) f0 f1 in
  let r1 := map2 (fun a b => m10 * a + m11 * b + mean1) f0 f1 in
  (reshape2 ny nx r0, reshape2 ny nx r1).

(** [ImageModel.create_probe_positions]. *)
Definition create_probe_positions (self : ImageModel) : M ImageModel :=
  ('(xmin, ymin) <- min0 (atom_positions self) ;;
   '(xmax, ymax) <- max0 (atom_positions self) ;;
   let xlow := xmin - margin self in
   let ylow := ymin - margin self in
   let xhigh := xmax + margin self in
   let yhigh := ymax + margin self in
   let scale := (xhigh - xlow) / 100 in
   let '(xlow, ylow, xhigh, yhigh) :=
     if square self
     then (Rmin xlow ylow, Rmin xlow ylow, Rmax xhigh yhigh, Rmax xhigh yhigh)
     else (xlow, ylow, xhigh, yhigh) in
   xrange <- lift (arange xlow (xhigh + scale) (pixel_size self)) ;;
   yrange <- lift (arange ylow (yhigh + scale) (pixel_size self)) ;;
   let probe := meshgrid xrange yrange in
   let ny := length yrange in
   let nx := length xrange in
   probe <- (if truthy_strength (jitter_strength self)
             then (jitter <- add_line_jitter (2%nat, ny, nx)
                               (jitter_strength self)
                               (jitter_horizontal self)
                               (jitter_vertical self) ;;
                   ret (add2 (fst probe) (fst jitter),
                        add2 (snd probe) (snd jitter)))
             else ret probe) ;;
   let probe := if truthy_R (scan_rotation self)
                then rotate_about_mean (scan_rotation self) ny nx probe
                else probe in
   probe <- (if truthy_R (drift_speed self)
             then
               let drift := add_drift (ny, nx) (drift_vector self)
                                      (drift_speed self) in
               let probe := (add2 (fst probe) (fst drift),
                             add2 (snd probe) (snd drift)) in
               if centre_drift self
               then (xmx <- amax (fst drift) ;;
                     xmn <- amin (fst drift) ;;
                     let offsetx := if Rgt_dec xmx (- xmn) then xmx else xmn in
                     ymx <- amax (snd drift) ;;
                     ymn <- amin (snd drift) ;;
                     let offsety := if Rgt_dec ymx (- ymn) then ymx else ymn in
                     ret (sub_scalar2 (fst probe) (offsetx / 2),
                          sub_scalar2 (snd probe) (offsety / 2)))
               else ret probe
             else ret probe) ;;
   ret (set_probe_positions self probe))%M.

(** [base ** power] on floats, for the bases and exponents that have a real
    value: a positive base, and zero raised to a non-negative exponent. *)
Definition float_power (b p : R) : R :=
  if Req_dec_T b 0
  then (if Req_dec_T p 0 then 1 else 0)
  else Rpower b p.

(** [ImageModel.create_parameters]. *)
Definition create_parameters (self : ImageModel) : ImageModel :=
  let xc := map fst (atom_positions self) in
  let yc := map snd (atom_positions self) in
  let A := map (fun z => float_power z (power self)) (atom_numbers self) in
  let sigma := map (fun one => one * sigma self)
                   (ones1 (number_of_atoms self)) in
  set_parameters self (A, xc, yc, sigma).

(** [np.unique(rows, axis=0)]: the distinct rows in lexicographic order. *)
Definition row3 := (R * R * R)%type.

Definition row3_eqb (a b : row3) : bool :=
  let '(a0, a1, a2) := a in
  let '(b0, b1, b2) := b in
  if Req_dec_T a0 b0
  then if Req_dec_T a1 b1 then if Req_dec_T a2 b2 then true else false
       else false
  else false.

Definition row3_ltb (a b : row3) : bool :=
  let '(a0, a1, a2) := a in
  let '(b0, b1, b2) := b in
  if Rlt_dec a0 b0 then true
  else if Req_dec_T a0 b0
       then if Rlt_dec a1 b1 then true
            else if Req_dec_T a1 b1
                 then if Rlt_dec a2 b2 then true else false
                 else false
       else false.

Fixpoint insert_unique (x : row3) (l : list row3) : list row3 :=
  match l with
  | [] => [x]
  | y :: l' =>
      if row3_eqb x y then l
      else if row3_ltb x y then x :: l
      else y :: insert_unique x l'
  end.

Definition unique_rows (l : list row3) : list row3 :=
  fold_right insert_unique [] l.

(** The attribute assignments of [__init__] (lines 368 to 382), before the
    grid and the parameters are built. *)
Definition assign_attributes (a : Args) (positions : list (R * R))
    (nums : list R) : ImageModel :=
  {| atom_positions := positions;
     atom_numbers := nums;
     number_of_atoms := length nums;
     pixel_size := arg_pixel_size a;
     sigma := arg_sigma a;
     power := arg_power a;
     jitter_strength := arg_jitter_strength a;
     jitter_horizontal := arg_jitter_horizontal a;
     jitter_vertical := arg_jitter_vertical a;
     drift_speed := arg_drift_speed a;
     drift_vector := arg_drift_vector a;
     centre_drift := arg_centre_drift a;
     scan_rotation := arg_scan_rotation a;
     square := arg_square a;
     margin := arg_vacuum a;
     probe_positions := ([], []);
     parameters := ([], [], [], []) |}.

(** The [(x, y)] columns and the numbers of an [ase.Atoms] object. *)
Definition atoms_xy (atoms : Atoms) : list (R * R) :=
  map (fun at_ => (fst (fst (apos at_)), snd (fst (apos at_)))) atoms.
Definition atoms_numbers (atoms : Atoms) : list R :=
  map (fun at_ => IZR (anum at_)) atoms.

(** The [fast] branch: one atom per distinct [(x, y, Z)] row. *)
Definition keep_unique (positions : list (R * R)) (nums : list R)
  : list (R * R) * list R :=
  let unique :=
    unique_rows (map2 (fun p z => (fst p, snd p, z)) positions nums) in
  (map (fun r => (fst (fst r), snd (fst r))) unique, map snd unique).

(** [ImageModel.__init__]. *)
Definition init (a : Args) : M ImageModel :=
  ('(positions, numbers) <-
     (if truthy_atoms (arg_atoms a)
      then
        let atoms := match arg_atoms a with Some l => l | None => [] end in
        ret (atoms_xy atoms, Some (atoms_numbers atoms))
      else
        (t <- lift (truthy_positions (arg_positions a)) ;;
         if negb t
         then raise AttributeError
         else (p <- lift (slice_positions (arg_positions a)) ;;
               ret (p, option_map (map IZR) (arg_numbers a))))) ;;
   '(positions, numbers) <-
     (if arg_fast a
      then (nums <- (match numbers with
                     | Some l => ret l
                     | None => raise ValueError
                     end) ;;
            if Nat.eqb (length positions) (length nums)
            then ret (fst (keep_unique positions nums),
                      Some (snd (keep_unique positions nums)))
            else raise ValueError)
      else ret (positions, numbers)) ;;
   nums <- (match numbers with
            | Some l => ret l
            | None => raise TypeError
            end) ;;
   self <- create_probe_positions (assign_attributes a positions nums) ;;
   ret (create_parameters self))%M.

(** [self.parameters.T]: one row [(A, xc, yc, sigma)] per atom. *)
Definition parameters_T (p : array1 * array1 * array1 * array1)
  : list (R * R * R * R) :=
  let '(A, xc, yc, sg) := p in
  combine (combine (combine A xc) yc) sg.

(** [ImageModel.generate]. *)
Definition generate (self : ImageModel) : array2 :=
  let '(X, Y) := probe_positions self in
  let img := zeros2 (fst (shape2 X)) (snd (shape2 X)) in
  fold_left
    (fun img p =>
       let '(A, xc, yc, sg) := p in
       add2 img (Gaussian2D_grid X Y A xc yc sg))
    (parameters_T (parameters self)) img.


(* ===================================================================== *)
(** ** get_rotation_series *)
(* ===================================================================== *)

(** The keyword arguments the driver forwards to [ImageModel]. *)
Record Kwargs : Type := mkKwargs {
  kw_jitter_horizontal : bool;
  kw_jitter_vertical : bool;
  kw_sigma : R;
  kw_power : R;
  kw_square : bool
}.

Definition default_kwargs : Kwargs :=
  {| kw_jitter_horizontal := true; kw_jitter_vertical := false;
     kw_sigma := 4 / 10; kw_power := 18 / 10; kw_square := false |}.

Definition shape_eqb (s t : nat * nat) : bool :=
  Nat.eqb (fst s) (fst t) && Nat.eqb (snd s) (snd t).

(** [cp.stack(images)]: needs at least one array, all of one shape. *)
Definition stack (images : list array2) : M array3 :=
  match images with
  | [] => raise ValueError
  | img :: rest =>
      if forallb (fun i => shape_eqb (shape2 i) (shape2 img)) rest
      then ret images
      else raise ValueError
  end.

(** The arguments the driver passes to [ImageModel] for one scan angle. *)
Definition series_args (atoms : Atoms) (vacuum pixel_size drift_speed : R)
    (drift_vector : R * R) (jitter_strength : strength_t) (kw : Kwargs)
    (scanangle : R) : Args :=
  {| arg_atoms := Some atoms; arg_positions := PosNone; arg_numbers := None;
     arg_scan_rotation := scanangle; arg_drift_speed := drift_speed;
     arg_drift_vector := drift_vector; arg_pixel_size := pixel_size;
     arg_jitter_strength := jitter_strength;
     arg_jitter_horizontal := kw_jitter_horizontal kw;
     arg_jitter_vertical := kw_jitter_vertical kw;
     arg_sigma := kw_sigma kw; arg_power := kw_power kw;
     arg_centre_drift := true; arg_square := kw_square kw;
     arg_vacuum := vacuum; arg_fast := false |}.

(** The side of the largest top-left square of an image: the smaller of
    the two entries of [img.shape]. *)
Definition side_of (img : array2) : nat :=
  Nat.min (fst (shape2 img)) (snd (shape2 img)).

(** The body of the loop of [get_rotation_series]: build the model for one
    scan angle, generate its image and trim it to a square. *)
Definition series_image (atoms : Atoms) (vacuum pixel_size drift_speed : R)
    (drift_vector : R * R) (jitter_strength : strength_t) (kw : Kwargs)
    (scanangle : R) : M array2 :=
  (m <- init (series_args atoms vacuum pixel_size drift_speed drift_vector
                jitter_strength kw scanangle) ;;
   let img := generate m in
   let side := side_of img in
   ret (crop side img))%M.

(** [get_rotation_series].  With [atoms=None] the function calls
    [get_example_atoms], a name the module does not define. *)
Definition get_rotation_series (atoms : option Atoms)
    (vacuum pixel_size : R) (nImages : nat) (minScanAngle maxScanAngle : R)
    (drift_speed : R) (drift_angle : option R) (jitter_strength : strength_t)
    (kw : Kwargs) : M (array3 * array1 * R) :=
  (atoms <- (match atoms with
             | None => raise NameError
             | Some a => ret a
             end) ;;
   random_angle <- (match drift_angle with
                    | None => (u <- random_one ;; ret (u * 2 * PI))
                    | Some d => ret d
                    end) ;;
   let drift_vector := (cos random_angle, sin random_angle) in
   let scanangles := linspace_open minScanAngle maxScanAngle nImages in
   images <- mapM (series_image atoms vacuum pixel_size drift_speed
                     drift_vector jitter_strength kw) scanangles ;;
   images <- stack images ;;
   ret (images, scanangles, random_angle))%M.

(* ===================================================================== *)
(** ** Specification-side definitions *)
(* ===================================================================== *)

(** An array is rectangular of shape [(ny, nx)]. *)
Definition rect (ny nx : nat) (a : array2) : Prop :=
  length a = ny /\ Forall (fun row => length row = nx) a.

(** The intensity the superposition model assigns to the point [(x, y)]:
    the sum over the atoms of [Z ^ power * exp(-d2 / (2 sigma^2))]. *)
Definition atom_term (pw sg x y : R) (a : (R * R) * R) : R :=
  float_power (snd a) pw
  * exp (- ((x - fst (fst a)) ^ 2 + (y - snd (fst a)) ^ 2) / (2 * sg ^ 2)).

Definition intensity_sum (atoms : list ((R * R) * R)) (pw sg x y : R) : R :=
  fold_right (fun a acc => atom_term pw sg x y a + acc) 0 atoms.

(** The same sum with the amplitude written out as the real power
    [Z ^ power = exp (power * ln Z)] of a positive atomic number. *)
Definition superposition (atoms : list ((R * R) * R)) (pw sg x y : R) : R :=
  fold_right
    (fun a acc =>
       exp (pw * ln (snd a))
       * exp (- ((x - fst (fst a)) ^ 2 + (y - snd (fst a)) ^ 2)
              / (2 * sg ^ 2))
       + acc) 0 atoms.

(** [k * a] for a scalar [k]. *)
Definition scale2 (k : R) (a : array2) : array2 := map (map (Rmult k)) a.

(** The drift displacement of one channel, by flattened pixel index:
    entry [k] is [speed / total * (- d) * k]. *)
Definition drift_channel (ny nx : nat) (d s : R) : array2 :=
  reshape2 ny nx
    (map (fun k => s / INR (ny * nx) * - d * INR k) (seq 0 (ny * nx))).

(** The two strengths [add_line_jitter] reads off its [strength]. *)
Definition strength_x (s : strength_t) : R :=
  match s with Pair sx _ => sx | Scalar x => x end.
Definition strength_y (s : strength_t) : R :=
  match s with Pair _ sy => sy | Scalar x => x end.

(** *** The builder as a pipeline of named stages

    The stages follow the specification's description of the probe-grid
    builder; [create_probe_positions] above follows the source. *)

Definition grid := (array2 * array2)%type.

(** Steps 1 and 2: the two axis ranges. *)
Definition grid_axes (self : ImageModel) : M (array1 * array1) :=
  ('(xmin, ymin) <- min0 (atom_positions self) ;;
   '(xmax, ymax) <- max0 (atom_positions self) ;;
   let xlow := xmin - margin self in
   let ylow := ymin - margin self in
   let xhigh := xmax + margin self in
   let yhigh := ymax + margin self in
   let scale := (xhigh - xlow) / 100 in
   let xlo := if square self then Rmin xlow ylow else xlow in
   let ylo := if square self then Rmin xlow ylow else ylow in
   let xhi := if square self then Rmax xhigh yhigh else xhigh in
   let yhi := if square self then Rmax xhigh yhigh else yhigh in
   xrange <- lift (arange xlo (xhi + scale) (pixel_size self)) ;;
   yrange <- lift (arange ylo (yhi + scale) (pixel_size self)) ;;
   ret (xrange, yrange))%M.

(** Step 4: add the line jitter. *)
Definition stage_jitter (self : ImageModel) (ny nx : nat) (p : grid)
  : M grid :=
  if truthy_strength (jitter_strength self)
  then (j <- add_line_jitter (2%nat, ny, nx) (jitter_strength self)
             (jitter_horizontal self) (jitter_vertical self) ;;
        ret (add2 (fst p) (fst j), add2 (snd p) (snd j)))%M
  else ret p.

(** Step 5: rotate about the centroid of the grid handed over. *)
Definition stage_rotation (self : ImageModel) (ny nx : nat) (p : grid)
  : grid :=
  if truthy_R (scan_rotation self)
  then rotate_about_mean (scan_rotation self) ny nx p
  else p.

(** Step 6, first half: add the drift field. *)
Definition stage_drift (self : ImageModel) (ny nx : nat) (p : grid) : grid :=
  if truthy_R (drift_speed self)
  then let d := add_drift (ny, nx) (drift_vector self) (drift_speed self) in
       (add2 (fst p) (fst d), add2 (snd p) (snd d))
  else p.

(** The signed extreme of a drift channel: the maximum when it exceeds the
    negated minimum, the minimum otherwise. *)
Definition signed_extreme (d : array2) : M R :=
  (mx <- amax d ;;
   mn <- amin d ;;
   ret (if Rgt_dec mx (- mn) then mx else mn))%M.

(** Step 6, second half: recentre a drifted grid. *)
Definition stage_recentre (self : ImageModel) (ny nx : nat) (p : grid)
  : M grid :=
  if truthy_R (drift_speed self) && centre_drift self
  then
    let d := add_drift (ny, nx) (drift_vector self) (drift_speed self) in
    (offsetx <- signed_extreme (fst d) ;;
     offsety <- signed_extreme (snd d) ;;
     ret (sub_scalar2 (fst p) (offsetx / 2),
          sub_scalar2 (snd p) (offsety / 2)))%M
  else ret p.

(** Jitter, then rotation, then drift, then recentring. *)
Definition builder_in_order (self : ImageModel) : M ImageModel :=
  ('(xrange, yrange) <- grid_axes self ;;
   let ny := length yrange in
   let nx := length xrange in
   p <- stage_jitter self ny nx (meshgrid xrange yrange) ;;
   let p := stage_rotation self ny nx p in
   let p := stage_drift self ny nx p in
   p <- stage_recentre self ny nx p ;;
   ret (set_probe_positions self p))%M.

(** The same stages with rotation moved in front of jitter. *)
Definition builder_rotation_first (self : ImageModel) : M ImageModel :=
  ('(xrange, yrange) <- grid_axes self ;;
   let ny := length yrange in
   let nx := length xrange in
   let p := stage_rotation self ny nx (meshgrid xrange yrange) in
   p <- stage_jitter self ny nx p ;;
   let p := stage_drift self ny nx p in
   p <- stage_recentre self ny nx p ;;
   ret (set_probe_positions self p))%M.

(** [v] is one of the entries of the field [d]. *)
Definition entry (d : array2) (v : R) : Prop :=
  exists row, In row d /\ In v row.

(** [mx] and [mn] are the maximum and the minimum of the field [d]: both
    are entries of [d], and every entry lies between them. *)
Definition has_extremes (d : array2) (mx mn : R) : Prop :=
  entry d mx /\ entry d mn /\ forall v, entry d v -> mn <= v <= mx.

(** [off] is whichever of the maximum and the minimum of [d] has the
    larger magnitude. *)
Definition larger_extreme (d : array2) (off : R) : Prop :=
  exists mx mn,
    has_extremes d mx mn
    /\ (off = mx \/ off = mn)
    /\ Rabs off = Rmax (Rabs mx) (Rabs mn).

(** The maximum and the minimum of [d] sum to zero. *)
Definition balanced (d : array2) : Prop :=
  exists mx mn, has_extremes d mx mn /\ mx + mn = 0.

(** The smallest [side_of] over a list of images. *)
Definition min_side (imgs : list array2) : nat :=
  match imgs with
  | [] => 0
  | img :: rest =>
      fold_right (fun x acc => Nat.min (side_of x) acc) (side_of img) rest
  end.

(** The axis ranges of a model, when it has atoms. *)
Definition axes_of (self : ImageModel) : array1 * array1 :=
  match grid_axes self (mkRng (fun _ => 0) 0) with
  | inr (axes, _) => axes
  | inl _ => ([], [])
  end.

(** The axis ranges every image of a series shares: they depend on the
    atoms, the vacuum, the pixel size and the square flag only. *)
Definition series_axes (atoms : Atoms) (vacuum pixel_size : R) (kw : Kwargs)
  : array1 * array1 :=
  axes_of (assign_attributes
             (series_args atoms vacuum pixel_size 0 (1, 0) (Scalar 0) kw 0)
             (atoms_xy atoms) (atoms_numbers atoms)).

(** What construction establishes: one number per atom position, the
    parameter block built from the stored atoms, a rectangular grid. *)
Definition consistent (m : ImageModel) : Prop :=
  length (atom_positions m) = length (atom_numbers m)
  /\ number_of_atoms m = length (atom_numbers m)
  /\ parameters m = parameters (create_parameters m)
  /\ exists ny nx,
       rect ny nx (fst (probe_positions m))
       /\ rect ny nx (snd (probe_positions m)).

(** *** A two-atom structure used as a concrete input

    Atoms at [(0, 0)] (Z = 1) and [(1, 1)] (Z = 2), no vacuum and one pixel
    per unit: the probe grid is 2 x 2. *)
Definition two_atoms : Atoms :=
  [mkAtom (0, 0, 0) 1; mkAtom (1, 1, 0) 2].

Definition two_atom_args : Args :=
  {| arg_atoms := Some two_atoms; arg_positions := PosNone;
     arg_numbers := None;
     arg_scan_rotation := 0; arg_drift_speed := 0; arg_drift_vector := (1, 0);
     arg_pixel_size := 1; arg_jitter_strength := Scalar 0;
     arg_jitter_horizontal := true; arg_jitter_vertical := false;
     arg_sigma := 4 / 10; arg_power := 18 / 10;
     arg_centre_drift := true; arg_square := false; arg_vacuum := 0;
     arg_fast := false |}.

(** The model that construction yields for it. *)
Definition two_atom_model : ImageModel :=
  create_parameters
    (set_probe_positions
       (assign_attributes two_atom_args (atoms_xy two_atoms)
                          (atoms_numbers two_atoms))
       ([[0; 1]; [0; 1]], [[0; 0]; [1; 1]])).

(** The same structure handed over as explicit arrays:
    [ImageModel(positions=np.array([[0, 0], [1, 1]]), numbers=np.array([1, 2]))]. *)
Definition explicit_array_args : Args :=
  {| arg_atoms := None; arg_positions := PosArray [(0, 0); (1, 1)];
     arg_numbers := Some [1%Z; 2%Z];
     arg_scan_rotation := 0; arg_drift_speed := 0; arg_drift_vector := (1, 0);
     arg_pixel_size := 1 / 10; arg_jitter_strength := Scalar 0;
     arg_jitter_horizontal := true; arg_jitter_vertical := false;
     arg_sigma := 4 / 10; arg_power := 18 / 10;
     arg_centre_drift := true; arg_square := false; arg_vacuum := 5;
     arg_fast := false |}.

(** And as Python lists: [ImageModel(positions=[[0, 0], [1, 1]], numbers=[1, 2])]. *)
Definition explicit_list_args : Args :=
  {| arg_atoms := None; arg_positions := PosList [(0, 0); (1, 1)];
     arg_numbers := Some [1%Z; 2%Z];
     arg_scan_rotation := 0; arg_drift_speed := 0; arg_drift_vector := (1, 0);
     arg_pixel_size := 1 / 10; arg_jitter_strength := Scalar 0;
     arg_jitter_horizontal := true; arg_jitter_vertical := false;
     arg_sigma := 4 / 10; arg_power := 18 / 10;
     arg_centre_drift := true; arg_square := false; arg_vacuum := 5;
     arg_fast := false |}.

(** A single atom at the origin, whose bounding box is a point: with the
    default arguments, and with no vacuum around it. *)
Definition single_atom : Atoms := [mkAtom (0, 0, 0) 1].

Definition single_atom_args (vacuum : R) : Args :=
  {| arg_atoms := Some single_atom; arg_positions := PosNone;
     arg_numbers := None;
     arg_scan_rotation := 0; arg_drift_speed := 0; arg_drift_vector := (1, 0);
     arg_pixel_size := 1 / 10; arg_jitter_strength := Scalar 0;
     arg_jitter_horizontal := true; arg_jitter_vertical := false;
     arg_sigma := 4 / 10; arg_power := 18 / 10;
     arg_centre_drift := true; arg_square := false; arg_vacuum := vacuum;
     arg_fast := false |}.

(** The two-atom structure scanned with drift along [x], recentred. *)
Definition two_atom_drift_args : Args :=
  {| arg_atoms := Some two_atoms; arg_positions := PosNone;
     arg_numbers := None;
     arg_scan_rotation := 0; arg_drift_speed := 1; arg_drift_vector := (1, 0);
     arg_pixel_size := 1; arg_jitter_strength := Scalar 0;
     arg_jitter_horizontal := true; arg_jitter_vertical := false;
     arg_sigma := 4 / 10; arg_power := 18 / 10;
     arg_centre_drift := true; arg_square := false; arg_vacuum := 0;
     arg_fast := false |}.

(** The two-atom structure scanned at 90 degrees, with horizontal line
    jitter of strength 1 and without jitter. *)
Definition two_atom_scan_args (jitter : R) : Args :=
  {| arg_atoms := Some two_atoms; arg_positions := PosNone;
     arg_numbers := None;
     arg_scan_rotation := 90; arg_drift_speed := 0; arg_drift_vector := (1, 0);
     arg_pixel_size := 1; arg_jitter_strength := Scalar jitter;
     arg_jitter_horizontal := true; arg_jitter_vertical := false;
     arg_sigma := 4 / 10; arg_power := 18 / 10;
     arg_centre_drift := true; arg_square := false; arg_vacuum := 0;
     arg_fast := false |}.

Definition two_atom_scan (jitter : R) : ImageModel :=
  assign_attributes (two_atom_scan_args jitter) (atoms_xy two_atoms)
                    (atoms_numbers two_atoms).

(** A generator whose first draw is 0 and whose later draws are 1/2: the
    first scanline is displaced by [- strength], the second not at all. *)
Definition rng_step : rng :=
  mkRng (fun i => match i with O => 0 | S _ => 1 / 2 end) 0.

(** A generator whose every draw is 0. *)
Definition rng0 : rng := mkRng (fun _ => 0) 0.

(* ===================================================================== *)
(** ** Further functions of the module *)
(* ===================================================================== *)

(** *** 2 x 2 matrices *)

Definition mat2 := ((R * R) * (R * R))%type.

Definition identity2 : mat2 := ((1, 0), (0, 1)).

(** [m @ v], [a @ b] and [m.T]. *)
Definition matvec2 (m : mat2) (v : R * R) : R * R :=
  let '((m00, m01), (m10, m11)) := m in
  (m00 * fst v + m01 * snd v, m10 * fst v + m11 * snd v).

Definition matmul2 (a b : mat2) : mat2 :=
  let '((a00, a01), (a10, a11)) := a in
  let '((b00, b01), (b10, b11)) := b in
  ((a00 * b00 + a01 * b10, a00 * b01 + a01 * b11),
   (a10 * b00 + a11 * b10, a10 * b01 + a11 * b11)).

Definition transpose_mat2 (m : mat2) : mat2 :=
  let '((m00, m01), (m10, m11)) := m in ((m00, m10), (m01, m11)).

(** *** drift_points and drift_pointsYX *)

(** [l[n] = v] on a list; the loops below only assign within range. *)
Fixpoint set_nth {A : Type} (n : nat) (v : A) (l : list A) : list A :=
  match l, n with
  | [], _ => []
  | _ :: l', O => v :: l'
  | x :: l', S n' => x :: set_nth n' v l'
  end.

(** [arr[i, j] = v]. *)
Definition set2 {A : Type} (i j : nat) (v : A) (a : list (list A))
  : list (list A) :=
  set_nth i (set_nth j v (nth i a [])) a.

(** [(rotation_matrix(drift_angle) @ [1, 0]) * drift_speed]. *)
Definition drift_step (drift_angle drift_speed : R) : R * R :=
  let v := matvec2 (rotation_matrix drift_angle false) (1, 0) in
  (fst v * drift_speed, snd v * drift_speed).

(** The body of the inner loop of [drift_points]: advance the running
    drift, then store the drifted pixel position at [arr[xi, yi]]. *)
Definition drift_points_body (drift_vector : R * R) (yi : nat)
    (st : (R * R) * list (list (R * R))) (xi : nat)
  : (R * R) * list (list (R * R)) :=
  let drift := (fst (fst st) + fst drift_vector,
                snd (fst st) + snd drift_vector) in
  let position := (INR xi, INR yi) in
  (drift,
   set2 xi yi (fst position - fst drift, snd position - snd drift) (snd st)).

(** [drift_points(shape, drift_speed, drift_angle)]: the result has shape
    [(lenX, lenY, 2)]; the loop state is the running drift and the array. *)
Definition drift_points (shape : nat * nat) (drift_speed drift_angle : R)
  : list (list (R * R)) :=
  let '(lenX, lenY) := shape in
  let drift_vector := drift_step drift_angle drift_speed in
  let arr := repeat (repeat (0, 0) lenY) lenX in
  snd (fold_left
         (fun st yi =>
            fold_left (drift_points_body drift_vector yi) (seq 0 lenX) st)
         (seq 0 lenY) ((0, 0), arr)).

(** The body of the inner loop of [drift_pointsYX]: advance the running
    drift, then append the drifted pixel position. *)
Definition drift_pointsYX_body (drift_vector : R * R) (yi : nat)
    (st : (R * R) * list (R * R)) (xi : nat) : (R * R) * list (R * R) :=
  let drift := (fst (fst st) + fst drift_vector,
                snd (fst st) + snd drift_vector) in
  let position := (INR xi, INR yi) in
  (drift,
   snd st ++ [(fst position - fst drift, snd position - snd drift)]).

(** [drift_pointsYX(shape, drift_angle, drift_speed)]: the positions are
    appended in scan order; the result has shape [(lenY * lenX, 2)]. *)
Definition drift_pointsYX (shape : nat * nat) (drift_angle drift_speed : R)
  : list (R * R) :=
  let '(lenY, lenX) := shape in
  let drift_vector := drift_step drift_angle drift_speed in
  snd (fold_left
         (fun st yi =>
            fold_left (drift_pointsYX_body drift_vector yi) (seq 0 lenX) st)
         (seq 0 lenY) ((0, 0), [])).

(** The position both functions give the pixel [(xi, yi)] reached as the
    [k]-th of the scan (counting from 0): the pixel's coordinates less
    [k + 1] drift steps. *)
Definition drifted_pixel (drift_vector : R * R) (xi yi k : nat) : R * R :=
  (INR xi - INR (S k) * fst drift_vector,
   INR yi - INR (S k) * snd drift_vector).

(** *** extend_3D_ones and transform_points *)

(** [extend_3D_ones(arr_of_2d)]: a column of ones is stacked to the right
    of an [(N, 2)] array. *)
Definition extend_3D_ones (arr_of_2d : list (R * R)) : list row3 :=
  map (fun p => (fst p, snd p, 1)) arr_of_2d.

(** A 3 x 3 matrix, by rows. *)
Definition mat3 := (row3 * row3 * row3)%type.

Definition identity3 : mat3 := ((1, 0, 0), (0, 1, 0), (0, 0, 1)).

(** [row @ m] for a row vector of three entries. *)
Definition rowmat3 (p : row3) (m : mat3) : row3 :=
  let '(x, y, w) := p in
  let '((m00, m01, m02), (m10, m11, m12), (m20, m21, m22)) := m in
  (x * m00 + y * m10 + w * m20,
   x * m01 + y * m11 + w * m21,
   x * m02 + y * m12 + w * m22).

(** [a @ b] for 3 x 3 matrices. *)
Definition matmul3 (a b : mat3) : mat3 :=
  let '(r0, r1, r2) := a in (rowmat3 r0 b, rowmat3 r1 b, rowmat3 r2 b).

(** [transform_points(points, transform)]. *)
Definition transform_points (points : list (R * R)) (transform : mat3)
  : list (R * R) :=
  let points := extend_3D_ones points in
  let points_prime := map (fun p => rowmat3 p transform) points in
  map (fun q => (fst (fst q), snd (fst q))) points_prime.

(** *** add_ac_noise *)

(** Python's scalar division raises on a zero divisor. *)
Inductive arith_exn : Type := ZeroDivisionError.

(** [add_ac_noise(shape, strength, dwelltime, ac_freq)] for a spatial shape
    [(ny, nx)]: channel 0 carries the sinusoid, channel 1 stays zero. *)
Definition add_ac_noise (shape : nat * nat) (strength dwelltime ac_freq : R)
  : arith_exn + (array2 * array2) :=
  let '(ny, nx) := shape in
  if Req_dec_T ac_freq 0
  then inl ZeroDivisionError
  else
    let phase :=
      map (fun k => 2 * dwelltime / (1 / ac_freq) * INR k * PI)
          (seq 0 (ny * nx)) in
    inr (map (map (fun v => strength * v))
             (reshape2 ny nx (map sin phase)),
         zeros2 ny nx).

(** [self.scan_rotation = deg] on a model. *)
Definition set_scan_rotation (self : ImageModel) (deg : R) : ImageModel :=
  mkImageModel (atom_positions self) (atom_numbers self)
    (number_of_atoms self) (pixel_size self) (sigma self) (power self)
    (jitter_strength self) (jitter_horizontal self) (jitter_vertical self)
    (drift_speed self) (drift_vector self) (centre_drift self)
    deg (square self) (margin self)
    (probe_positions self) (parameters self).

(** The strict lexicographic order [np.unique] sorts the rows by. *)
Definition row3_lt (a b : row3) : Prop := row3_ltb a b = true.

(** *** Further concrete inputs *)

(** Two atoms whose bounding box is three times as wide as high, imaged
    in square mode. *)
Definition wide_square_args : Args :=
  {| arg_atoms := Some [mkAtom (0, 0, 0) 1; mkAtom (3, 1, 0) 1];
     arg_positions := PosNone; arg_numbers := None;
     arg_scan_rotation := 0; arg_drift_speed := 0; arg_drift_vector := (1, 0);
     arg_pixel_size := 1; arg_jitter_strength := Scalar 0;
     arg_jitter_horizontal := true; arg_jitter_vertical := false;
     arg_sigma := 4 / 10; arg_power := 18 / 10;
     arg_centre_drift := true; arg_square := true; arg_vacuum := 0;
     arg_fast := false |}.

(** A single atom without vacuum, scanned with a recentred drift. *)
Definition point_drift_args : Args :=
  {| arg_atoms := Some single_atom; arg_positions := PosNone;
     arg_numbers := None;
     arg_scan_rotation := 0; arg_drift_speed := 1; arg_drift_vector := (1, 0);
     arg_pixel_size := 1 / 10; arg_jitter_strength := Scalar 0;
     arg_jitter_horizontal := true; arg_jitter_vertical := false;
     arg_sigma := 4 / 10; arg_power := 18 / 10;
     arg_centre_drift := true; arg_square := false; arg_vacuum := 0;
     arg_fast := false |}.

(** The two-atom structure with one atom listed twice, in fast mode. *)
Definition repeated_atom_args : Args :=
  {| arg_atoms := Some [mkAtom (1, 1, 0) 2; mkAtom (0, 0, 0) 1;
                        mkAtom (1, 1, 7) 2];
     arg_positions := PosNone; arg_numbers := None;
     arg_scan_rotation := 0; arg_drift_speed := 0; arg_drift_vector := (1, 0);
     arg_pixel_size := 1; arg_jitter_strength := Scalar 0;
     arg_jitter_horizontal := true; arg_jitter_vertical := false;
     arg_sigma := 4 / 10; arg_power := 18 / 10;
     arg_centre_drift := true; arg_square := false; arg_vacuum := 0;
     arg_fast := true |}.

(* ===================================================================== *)
(** ** Lists and rectangular arrays *)
(* ===================================================================== *)

Section ListFacts.

Context {A B C : Type}.

Lemma map2_length (f : A -> B -> C) (l1 : list A) (l2 : list B) :
  length (map2 f l1 l2) = Nat.min (length l1) (length l2).
Proof.
  revert l2; induction l1 as [|a l1 IH]; intros [|b l2]; simpl; auto.
Qed.

Lemma map2_nth (f : A -> B -> C) (l1 : list A) (l2 : list B)
    (n : nat) (da : A) (db : B) (dc : C) :
  (n < length l1)%nat -> (n < length l2)%nat ->
  nth n (map2 f l1 l2) dc = f (nth n l1 da) (nth n l2 db).
Proof.
  revert l2 n; induction l1 as [|a l1 IH]; intros [|b l2] [|n];
    simpl; intros H1 H2; try lia; auto.
  apply IH; lia.
Qed.

Lemma map2_map_combine (f : A -> B -> C) (l1 : list A) (l2 : list B) :
  map2 f l1 l2 = map (fun p => f (fst p) (snd p)) (combine l1 l2).
Proof.
  revert l2; induction l1 as [|a l1 IH]; intros [|b l2]; simpl; auto.
  now rewrite IH.
Qed.

End ListFacts.

Lemma rect_nth_length ny nx (a : array2) r :
  rect ny nx a -> (r < ny)%nat -> length (nth r a []) = nx.
Proof.
  intros [Hl Hf] Hr. rewrite Forall_forall in Hf.
  apply Hf, nth_In. lia.
Qed.

Lemma rect_hd ny nx (a : array2) :
  rect ny nx a -> (0 < ny)%nat -> length (hd [] a) = nx.
Proof.
  intros H Hny. rewrite <- (rect_nth_length ny nx a 0 H Hny).
  now destruct a.
Qed.

Lemma rect_zeros2 ny nx : rect ny nx (zeros2 ny nx).
Proof.
  split.
  - apply repeat_length.
  - apply Forall_forall. intros row Hin.
    apply repeat_spec in Hin. subst. apply repeat_length.
Qed.

Lemma at2_zeros2 ny nx r c : at2 (zeros2 ny nx) r c = 0.
Proof.
  unfold at2, zeros2, zeros1.
  destruct (Nat.lt_ge_cases r ny) as [Hr|Hr].
  - rewrite nth_repeat_lt by assumption.
    destruct (Nat.lt_ge_cases c nx) as [Hc|Hc].
    + now rewrite nth_repeat_lt.
    + apply nth_overflow. now rewrite repeat_length.
  - rewrite (nth_overflow (repeat _ _)) by now rewrite repeat_length.
    now destruct c.
Qed.

Lemma rect_map2 (f : R -> R -> R) ny nx (a b : array2) :
  rect ny nx a -> rect ny nx b -> rect ny nx (map2 (map2 f) a b).
Proof.
  intros [La Fa] [Lb Fb]. split.
  - rewrite map2_length. lia.
  - revert ny b La Lb Fb.
    induction a as [|ra a IH]; intros ny [|rb b] La Lb Fb; simpl;
      constructor.
    + rewrite map2_length.
      inversion Fa; inversion Fb; subst. lia.
    + inversion Fa; inversion Fb; subst.
      eapply IH; eauto.
Qed.

Lemma at2_map2 (f : R -> R -> R) ny nx (a b : array2) r c :
  rect ny nx a -> rect ny nx b -> (r < ny)%nat -> (c < nx)%nat ->
  at2 (map2 (map2 f) a b) r c = f (at2 a r c) (at2 b r c).
Proof.
  intros Ha Hb Hr Hc. unfold at2.
  rewrite (map2_nth (map2 f) a b r [] [] [])
    by (destruct Ha, Hb; lia).
  apply map2_nth.
  - now rewrite (rect_nth_length ny nx a r Ha Hr).
  - now rewrite (rect_nth_length ny nx b r Hb Hr).
Qed.

Lemma rect_Gaussian2D_grid ny nx X Y A xc yc sg :
  rect ny nx X -> rect ny nx Y ->
  rect ny nx (Gaussian2D_grid X Y A xc yc sg).
Proof. apply rect_map2. Qed.

(** The accumulation loop of [generate], read at one pixel. *)
Lemma accumulate_pixel ny nx X Y (ps : list (R * R * R * R)) img r c :
  rect ny nx X -> rect ny nx Y -> rect ny nx img ->
  (r < ny)%nat -> (c < nx)%nat ->
  at2 (fold_left
         (fun img p =>
            let '(A, xc, yc, sg) := p in
            add2 img (Gaussian2D_grid X Y A xc yc sg)) ps img) r c
  = at2 img r c
    + fold_right
        (fun p acc =>
           let '(A, xc, yc, sg) := p in
           Gaussian2D (at2 X r c) (at2 Y r c) A xc yc sg + acc) 0 ps.
Proof.
  intros HX HY Himg Hr Hc. revert img Himg.
  induction ps as [|[[[A xc] yc] sg] ps IH]; intros img Himg; simpl.
  - lra.
  - rewrite IH.
    + unfold add2 at 1.
      rewrite (at2_map2 Rplus ny nx) by
        (auto using rect_Gaussian2D_grid).
      unfold Gaussian2D_grid.
      rewrite (at2_map2 _ ny nx) by auto.
      lra.
    + apply rect_map2; auto using rect_Gaussian2D_grid.
Qed.

(** The parameter rows built by [create_parameters], atom by atom. *)
Lemma parameters_T_create (self : ImageModel) :
  length (atom_positions self) = length (atom_numbers self) ->
  number_of_atoms self = length (atom_numbers self) ->
  parameters_T (parameters (create_parameters self))
  = map (fun a => (float_power (snd a) (power self), fst (fst a),
                   snd (fst a), 1 * sigma self))
        (combine (atom_positions self) (atom_numbers self)).
Proof.
  intros Hlen Hn. unfold create_parameters, parameters_T; simpl.
  rewrite Hn. clear Hn.
  generalize dependent (atom_numbers self).
  induction (atom_positions self) as [|[x y] ps IH]; intros [|z zs] Hlen;
    simpl in *; try discriminate; auto.
  f_equal. apply IH. lia.
Qed.

Lemma create_parameters_probe (self : ImageModel) :
  probe_positions (create_parameters self) = probe_positions self.
Proof. reflexivity. Qed.

(** Inversion of a successful [bind]. *)
Lemma bind_inr {A B : Type} (c : M A) (k : A -> M B) g b g' :
  bind c k g = inr (b, g') ->
  exists a g1, c g = inr (a, g1) /\ k a g1 = inr (b, g').
Proof.
  unfold bind. destruct (c g) as [e|[a g1]]; [discriminate|].
  intros H. now exists a, g1.
Qed.

Lemma ret_inr {A : Type} (a b : A) g g' :
  ret a g = inr (b, g') -> a = b /\ g = g'.
Proof. unfold ret. intros H. now inversion H. Qed.

Ltac inv_bind H :=
  let a := fresh "v" in
  let g := fresh "g" in
  let H1 := fresh "Hrun" in
  apply bind_inr in H; destruct H as (a & g & H1 & H).

(** *** Shapes through the builder *)

Lemma rect_meshgrid xs ys :
  rect (length ys) (length xs) (fst (meshgrid xs ys))
  /\ rect (length ys) (length xs) (snd (meshgrid xs ys)).
Proof.
  unfold meshgrid; simpl. split; split.
  - apply repeat_length.
  - apply Forall_forall. intros row Hin. apply repeat_spec in Hin. now subst.
  - apply length_map.
  - apply Forall_forall. intros row Hin. apply in_map_iff in Hin.
    destruct Hin as (y & <- & _). apply repeat_length.
Qed.

Lemma rect_add_col ny nx a col :
  rect ny nx a -> length col = ny -> rect ny nx (add_col a col).
Proof.
  intros [La Fa] Lc. unfold add_col. split.
  - rewrite map2_length. lia.
  - clear La Lc. revert col.
    induction a as [|ra a IH]; intros [|v col]; simpl; constructor.
    + rewrite length_map. now inversion Fa.
    + apply IH. now inversion Fa.
Qed.

Lemma rect_sub_scalar2 ny nx a s :
  rect ny nx a -> rect ny nx (sub_scalar2 a s).
Proof.
  intros [La Fa]. unfold sub_scalar2. split.
  - now rewrite length_map.
  - apply Forall_forall. intros row Hin. apply in_map_iff in Hin.
    destruct Hin as (row' & <- & Hin'). rewrite length_map.
    rewrite Forall_forall in Fa. now apply Fa.
Qed.

Lemma rect_reshape2 ny nx flat :
  length flat = (ny * nx)%nat -> rect ny nx (reshape2 ny nx flat).
Proof.
  revert flat. induction ny as [|ny IH]; intros flat Hl; simpl.
  - split; [reflexivity|constructor].
  - assert (Hs : length (skipn nx flat) = (ny * nx)%nat)
      by (rewrite length_skipn; simpl in Hl; lia).
    destruct (IH _ Hs) as [L F]. split.
    + simpl. now rewrite L.
    + constructor; [|assumption].
      rewrite length_firstn. simpl in Hl. lia.
Qed.

Lemma ravel_length ny nx a :
  rect ny nx a -> length (ravel a) = (ny * nx)%nat.
Proof.
  intros [La Fa]. subst ny. unfold ravel.
  induction a as [|row a IH]; simpl; auto.
  rewrite length_app. inversion Fa; subst. rewrite IH by assumption. lia.
Qed.

Lemma nth_map_seq {A : Type} (f : nat -> A) (n i : nat) (d : A) :
  (i < n)%nat -> nth i (map f (seq 0 n)) d = f i.
Proof.
  intros Hi.
  rewrite (nth_indep _ d (f 0%nat)) by now rewrite length_map, length_seq.
  rewrite map_nth. now rewrite seq_nth.
Qed.

Lemma rect_map_seq (f : nat -> nat -> R) ny nx :
  rect ny nx (map (fun j => map (fun i => f j i) (seq 0 nx)) (seq 0 ny)).
Proof.
  split.
  - now rewrite length_map, length_seq.
  - apply Forall_forall. intros row Hin. apply in_map_iff in Hin.
    destruct Hin as (j & <- & _). now rewrite length_map, length_seq.
Qed.

Lemma at2_map_seq (f : nat -> nat -> R) ny nx r c :
  (r < ny)%nat -> (c < nx)%nat ->
  at2 (map (fun j => map (fun i => f j i) (seq 0 nx)) (seq 0 ny)) r c
  = f r c.
Proof.
  intros Hr Hc. unfold at2.
  rewrite (nth_map_seq (fun j => map (fun i => f j i) (seq 0 nx))) by auto.
  now apply nth_map_seq.
Qed.

Lemma at2_reshape2 ny nx flat r c :
  (r < ny)%nat -> (c < nx)%nat ->
  at2 (reshape2 ny nx flat) r c = nth (r * nx + c) flat 0.
Proof.
  revert flat r. induction ny as [|ny IH]; intros flat r Hr Hc; [lia|].
  destruct r as [|r]; simpl.
  - unfold at2; simpl. rewrite nth_firstn.
    apply Nat.ltb_lt in Hc. now rewrite Hc.
  - change (at2 (reshape2 ny nx (skipn nx flat)) r c
            = nth (nx + r * nx + c) flat 0).
    rewrite IH by lia. rewrite nth_skipn. f_equal. lia.
Qed.

(** *** The drift field, entry by entry *)

Lemma add_drift_channels ny nx v s :
  add_drift (ny, nx) v s
  = (map (fun j => map (fun i =>
            s / INR (ny * nx) * - fst v
            * at2 (reshape2 ny nx (map INR (seq 0 (ny * nx)))) j i)
            (seq 0 nx)) (seq 0 ny),
     map (fun j => map (fun i =>
            s / INR (ny * nx) * - snd v
            * at2 (reshape2 ny nx (map INR (seq 0 (ny * nx)))) j i)
            (seq 0 nx)) (seq 0 ny)).
Proof.
  unfold add_drift, transpose3. cbn [seq map nth].
  f_equal; apply map_ext_in; intros j Hj; apply map_ext_in; intros i Hi;
    apply in_seq in Hj; apply in_seq in Hi;
    unfold at3, transpose2;
    rewrite !map_map;
    rewrite (nth_map_seq _ nx i) by lia;
    rewrite !map_map;
    rewrite (nth_map_seq _ ny j) by lia;
    reflexivity.
Qed.

Lemma array2_ext ny nx (a b : array2) :
  rect ny nx a -> rect ny nx b ->
  (forall r c, (r < ny)%nat -> (c < nx)%nat -> at2 a r c = at2 b r c) ->
  a = b.
Proof.
  intros [La Fa] [Lb Fb] H.
  apply (nth_ext a b [] []); [lia|].
  intros r Hr. rewrite La in Hr.
  apply (nth_ext _ _ 0 0).
  - rewrite (rect_nth_length ny nx a r), (rect_nth_length ny nx b r);
      unfold rect; auto.
  - intros c Hc.
    rewrite (rect_nth_length ny nx a r) in Hc by (unfold rect; auto).
    now apply H.
Qed.

Lemma add_drift_rect ny nx v s :
  rect ny nx (fst (add_drift (ny, nx) v s))
  /\ rect ny nx (snd (add_drift (ny, nx) v s)).
Proof. rewrite add_drift_channels; simpl. split; apply rect_map_seq. Qed.

Lemma flat_index_lt ny nx r c :
  (r < ny)%nat -> (c < nx)%nat -> (r * nx + c < ny * nx)%nat.
Proof. intros Hr Hc. nia. Qed.

Lemma add_drift_at ny nx v s r c :
  (r < ny)%nat -> (c < nx)%nat ->
  at2 (fst (add_drift (ny, nx) v s)) r c
  = s / INR (ny * nx) * - fst v * INR (r * nx + c)
  /\ at2 (snd (add_drift (ny, nx) v s)) r c
     = s / INR (ny * nx) * - snd v * INR (r * nx + c).
Proof.
  intros Hr Hc. rewrite add_drift_channels; simpl.
  rewrite !(at2_map_seq _ ny nx r c) by assumption.
  rewrite at2_reshape2 by assumption.
  rewrite (nth_indep _ 0 (INR 0))
    by (rewrite length_map, length_seq; now apply flat_index_lt).
  rewrite map_nth, seq_nth by now apply flat_index_lt.
  split; reflexivity.
Qed.

Lemma drift_channel_rect ny nx d s : rect ny nx (drift_channel ny nx d s).
Proof.
  apply rect_reshape2. now rewrite length_map, length_seq.
Qed.

Lemma drift_channel_at ny nx d s r c :
  (r < ny)%nat -> (c < nx)%nat ->
  at2 (drift_channel ny nx d s) r c
  = s / INR (ny * nx) * - d * INR (r * nx + c).
Proof.
  intros Hr Hc. unfold drift_channel.
  rewrite at2_reshape2 by assumption.
  rewrite (nth_map_seq (fun k => s / INR (ny * nx) * - d * INR k))
    by now apply flat_index_lt.
  reflexivity.
Qed.

Lemma rect_scale2 ny nx k a : rect ny nx a -> rect ny nx (scale2 k a).
Proof.
  intros [La Fa]. unfold scale2. split.
  - now rewrite length_map.
  - apply Forall_forall. intros row Hin. apply in_map_iff in Hin.
    destruct Hin as (row' & <- & Hin'). rewrite length_map.
    rewrite Forall_forall in Fa. now apply Fa.
Qed.

Lemma at2_map_map (f : R -> R) ny nx a r c :
  rect ny nx a -> (r < ny)%nat -> (c < nx)%nat ->
  at2 (map (map f) a) r c = f (at2 a r c).
Proof.
  intros Ha Hr Hc. unfold at2.
  rewrite (nth_indep _ [] (map f []))
    by (rewrite length_map; destruct Ha; lia).
  rewrite map_nth.
  rewrite (nth_indep _ 0 (f 0))
    by (rewrite length_map, (rect_nth_length ny nx a r Ha Hr); lia).
  now rewrite map_nth.
Qed.

Lemma add_drift_by_index (ny nx : nat) (v : R * R) (s : R) :
  add_drift (ny, nx) v s
  = (drift_channel ny nx (fst v) s, drift_channel ny nx (snd v) s).
Proof.
  pose proof (add_drift_rect ny nx v) as Hrect.
  rewrite (surjective_pairing (add_drift (ny, nx) v s)).
  f_equal; apply (array2_ext ny nx);
    try apply Hrect; try apply drift_channel_rect;
    intros r c Hr Hc; rewrite drift_channel_at by assumption;
    now apply add_drift_at.
Qed.


(** *** Line jitter *)

Lemma nth_map_lt {A B : Type} (f : A -> B) (l : list A) i (d : B) (d' : A) :
  (i < length l)%nat -> nth i (map f l) d = f (nth i l d').
Proof.
  intros Hi. rewrite (nth_indep _ d (f d')) by now rewrite length_map.
  apply map_nth.
Qed.

Lemma at2_add_col ny nx a col r c :
  rect ny nx a -> length col = ny -> (r < ny)%nat -> (c < nx)%nat ->
  at2 (add_col a col) r c = at2 a r c + nth r col 0.
Proof.
  intros Ha Hl Hr Hc. unfold at2, add_col.
  rewrite (map2_nth _ a col r [] 0 []) by (destruct Ha; lia).
  rewrite (nth_map_lt _ _ c 0 0)
    by (rewrite (rect_nth_length ny nx a r Ha Hr); lia).
  reflexivity.
Qed.

Lemma add_line_jitter_run k ny nx strength h v g :
  add_line_jitter (k, ny, nx) strength h v g
  = inr ((if h
          then add_col (zeros2 ny nx)
                 (map (fun u => strength_x strength * (2 * u - 1))
                      (map (fun i => draws g (used g + i)%nat) (seq 0 ny)))
          else zeros2 ny nx,
          if v
          then add_col (zeros2 ny nx)
                 (map (fun u => strength_y strength * (2 * u - 1))
                      (map (fun i =>
                              draws g (used g + (if h then ny else 0) + i)%nat)
                           (seq 0 ny)))
          else zeros2 ny nx),
         mkRng (draws g)
               (used g + (if h then ny else 0) + (if v then ny else 0))).
Proof.
  destruct g as [d u].
  destruct strength, h, v; unfold add_line_jitter, bind, ret, random_n;
    simpl; rewrite ?Nat.add_0_r; reflexivity.
Qed.

Lemma jitter_range (s u : R) :
  0 < s -> 0 <= u < 1 -> - s <= s * (2 * u - 1) < s.
Proof. intros Hs [H0 H1]. split; nra. Qed.

Lemma jitter_onto (s t : R) :
  0 < s -> - s <= t < s ->
  exists u, 0 <= u < 1 /\ s * (2 * u - 1) = t
            /\ forall u', s * (2 * u' - 1) = t -> u' = u.
Proof.
  intros Hs [Hl Hu]. exists ((t / s + 1) / 2).
  assert (Hts : t / s * s = t) by (field; lra).
  assert (Hlo : -1 <= t / s).
  { apply Rmult_le_reg_r with s; [assumption|]. rewrite Hts. lra. }
  assert (Hhi : t / s < 1).
  { apply Rmult_lt_reg_r with s; [assumption|]. rewrite Hts. lra. }
  repeat split; try lra.
  intros u' Hu'. subst t. field. lra.
Qed.

Lemma jitter_channel_rect ny nx (b : bool) (f : R -> R) (us : list R) :
  length us = ny ->
  rect ny nx (if b then add_col (zeros2 ny nx) (map f us) else zeros2 ny nx).
Proof.
  intros Hl. destruct b; [|apply rect_zeros2].
  apply rect_add_col; [apply rect_zeros2|now rewrite length_map].
Qed.

Lemma jitter_channel_at ny nx (b : bool) (s : R) (d : nat -> R) r c :
  (r < ny)%nat -> (c < nx)%nat ->
  at2 (if b
       then add_col (zeros2 ny nx)
              (map (fun u => s * (2 * u - 1)) (map d (seq 0 ny)))
       else zeros2 ny nx) r c
  = if b then s * (2 * d r - 1) else 0.
Proof.
  intros Hr Hc. destruct b; [|apply at2_zeros2].
  rewrite (at2_add_col ny nx)
    by (auto using rect_zeros2; now rewrite !length_map, length_seq).
  rewrite at2_zeros2, map_map.
  rewrite (nth_map_seq (fun i => s * (2 * d i - 1))) by assumption.
  lra.
Qed.

(** C5.  [add_line_jitter] draws one random value per scanline (row) and
    per enabled direction; the displacement [strength * (2 u - 1)] of a row
    is the same at every pixel of the row, lies in [[-strength, strength)]
    for a positive strength and reaches every value of that interval from
    exactly one draw [u] of [[0, 1)]; the horizontal flag fills channel 0
    only and the vertical flag channel 1 only; a 2-tuple gives the two
    channels their own strengths and a scalar serves both; strength 0
    gives the all-zero field. *)
Theorem add_line_jitter_per_line (k ny nx : nat) (strength : strength_t)
    (h v : bool) (g : rng) :
  exists J g',
    add_line_jitter (k, ny, nx) strength h v g = inr (J, g')
    /\ (rect ny nx (fst J) /\ rect ny nx (snd J))
    /\ (draws g' = draws g
        /\ used g'
           = (used g + (if h then ny else 0) + (if v then ny else 0))%nat)
    /\ (forall r c, (r < ny)%nat -> (c < nx)%nat ->
          at2 (fst J) r c
          = (if h
             then match strength with Pair sx _ => sx | Scalar s => s end
                  * (2 * draws g (used g + r) - 1)
             else 0)
          /\ at2 (snd J) r c
             = (if v
                then match strength with Pair _ sy => sy | Scalar s => s end
                     * (2 * draws g (used g + (if h then ny else 0) + r) - 1)
                else 0))
    /\ ((forall i, 0 <= draws g i < 1) ->
        forall r c, (r < ny)%nat -> (c < nx)%nat ->
          (h = true -> 0 < strength_x strength ->
           - strength_x strength <= at2 (fst J) r c < strength_x strength)
          /\ (v = true -> 0 < strength_y strength ->
              - strength_y strength <= at2 (snd J) r c
              < strength_y strength))
    /\ (forall s t, 0 < s -> - s <= t < s ->
          exists u, 0 <= u < 1 /\ s * (2 * u - 1) = t
                    /\ forall u', s * (2 * u' - 1) = t -> u' = u)
    /\ (strength = Scalar 0 -> J = (zeros2 ny nx, zeros2 ny nx)).
Proof.
  rewrite add_line_jitter_run. eexists. eexists.
  split; [reflexivity|]. cbn [fst snd draws used].
  assert (Hat : forall r c, (r < ny)%nat -> (c < nx)%nat ->
    at2 (if h
         then add_col (zeros2 ny nx)
                (map (fun u => strength_x strength * (2 * u - 1))
                     (map (fun i => draws g (used g + i)%nat) (seq 0 ny)))
         else zeros2 ny nx) r c
    = (if h then strength_x strength * (2 * draws g (used g + r) - 1) else 0)
    /\ at2 (if v
            then add_col (zeros2 ny nx)
                   (map (fun u => strength_y strength * (2 * u - 1))
                        (map (fun i => draws g
                                (used g + (if h then ny else 0) + i)%nat)
                             (seq 0 ny)))
            else zeros2 ny nx) r c
       = (if v
          then strength_y strength
               * (2 * draws g (used g + (if h then ny else 0) + r) - 1)
          else 0)).
  { intros r c Hr Hc. split.
    - apply (jitter_channel_at ny nx h (strength_x strength)
               (fun i => draws g (used g + i)%nat)); assumption.
    - apply (jitter_channel_at ny nx v (strength_y strength)
               (fun i => draws g (used g + (if h then ny else 0) + i)%nat));
        assumption. }
  repeat match goal with |- _ /\ _ => split end.
  - apply jitter_channel_rect. now rewrite length_map, length_seq.
  - apply jitter_channel_rect. now rewrite length_map, length_seq.
  - reflexivity.
  - reflexivity.
  - intros r c Hr Hc. destruct (Hat r c Hr Hc) as [H0 H1].
    rewrite H0, H1. destruct strength; split; reflexivity.
  - intros Hd r c Hr Hc. destruct (Hat r c Hr Hc) as [H0 H1].
    rewrite H0, H1. split; intros -> Hs; apply jitter_range; auto.
  - apply jitter_onto.
  - intros ->.
    f_equal; apply (array2_ext ny nx);
      try apply rect_zeros2;
      try (apply jitter_channel_rect; now rewrite length_map, length_seq);
      intros r c Hr Hc; destruct (Hat r c Hr Hc) as [H0 H1];
      rewrite ?H0, ?H1, at2_zeros2; simpl;
      match goal with |- (if ?b then _ else _) = _ => destruct b end; ring.
Qed.

(** *** The builder, stage by stage *)

Lemma create_probe_positions_staged (self : ImageModel) (g : rng) :
  create_probe_positions self g = builder_in_order self g.
Proof.
  unfold create_probe_positions, builder_in_order, grid_axes, bind.
  destruct (min0 (atom_positions self) g) as [e|[[xmin ymin] g1]];
    [reflexivity|].
  destruct (max0 (atom_positions self) g1) as [e|[[xmax ymax] g2]];
    [reflexivity|].
  unfold lift, arange.
  destruct (Req_dec_T (pixel_size self) 0) as [Hz|Hz];
    [destruct (square self); reflexivity|].
  unfold stage_jitter, stage_rotation, stage_drift, stage_recentre,
    signed_extreme, bind.
  destruct (square self);
    destruct (truthy_strength (jitter_strength self));
    destruct (truthy_R (scan_rotation self));
    destruct (truthy_R (drift_speed self));
    destruct (centre_drift self); cbn [andb];
    cbv beta iota zeta; unfold amax, amin, raise, ret;
    repeat rewrite add_line_jitter_run; cbv beta iota zeta;
    try reflexivity;
    match goal with
    | |- context [ravel (fst (add_drift ?s ?v ?sp))] =>
        destruct (ravel (fst (add_drift s v sp)));
        destruct (ravel (snd (add_drift s v sp)))
    end; reflexivity.
Qed.

Lemma rect_rotate_about_mean deg ny nx (p : grid) :
  rect ny nx (fst p) -> rect ny nx (snd p) ->
  rect ny nx (fst (rotate_about_mean deg ny nx p))
  /\ rect ny nx (snd (rotate_about_mean deg ny nx p)).
Proof.
  intros H0 H1. unfold rotate_about_mean.
  destruct (rotation_matrix deg false) as [[m00 m01] [m10 m11]]; simpl.
  split; apply rect_reshape2; rewrite map2_length, !length_map,
    (ravel_length ny nx _ H0), (ravel_length ny nx _ H1); lia.
Qed.

Lemma rect_stage_rotation self ny nx (p : grid) :
  rect ny nx (fst p) -> rect ny nx (snd p) ->
  rect ny nx (fst (stage_rotation self ny nx p))
  /\ rect ny nx (snd (stage_rotation self ny nx p)).
Proof.
  intros H0 H1. unfold stage_rotation.
  destruct (truthy_R (scan_rotation self)); auto.
  now apply rect_rotate_about_mean.
Qed.

Lemma rect_stage_drift self ny nx (p : grid) :
  rect ny nx (fst p) -> rect ny nx (snd p) ->
  rect ny nx (fst (stage_drift self ny nx p))
  /\ rect ny nx (snd (stage_drift self ny nx p)).
Proof.
  intros H0 H1. unfold stage_drift.
  destruct (truthy_R (drift_speed self)); auto.
  destruct (add_drift_rect ny nx (drift_vector self) (drift_speed self)).
  split; apply rect_map2; assumption.
Qed.

Lemma stage_jitter_run self ny nx (p : grid) g :
  rect ny nx (fst p) -> rect ny nx (snd p) ->
  exists p' g',
    stage_jitter self ny nx p g = inr (p', g')
    /\ rect ny nx (fst p') /\ rect ny nx (snd p').
Proof.
  intros H0 H1. unfold stage_jitter.
  destruct (truthy_strength (jitter_strength self)).
  - unfold bind. rewrite add_line_jitter_run.
    eexists. eexists. split; [reflexivity|].
    split; apply rect_map2; try assumption; cbn [fst snd];
      apply jitter_channel_rect; now rewrite length_map, length_seq.
  - exists p, g. auto.
Qed.

Lemma signed_extreme_inr d g x g' :
  signed_extreme d g = inr (x, g') -> g' = g.
Proof.
  unfold signed_extreme, bind, amax, amin, raise, ret.
  destruct (ravel d); [discriminate|]. intros H. now inversion H.
Qed.

Lemma stage_recentre_rect self ny nx (p p' : grid) g g' :
  rect ny nx (fst p) -> rect ny nx (snd p) ->
  stage_recentre self ny nx p g = inr (p', g') ->
  g' = g /\ rect ny nx (fst p') /\ rect ny nx (snd p').
Proof.
  intros H0 H1. unfold stage_recentre.
  destruct (truthy_R (drift_speed self) && centre_drift self).
  - intros H. inv_bind H. inv_bind H.
    apply signed_extreme_inr in Hrun, Hrun0. subst.
    apply ret_inr in H. destruct H as [<- <-].
    split; [reflexivity|]. simpl. split; now apply rect_sub_scalar2.
  - intros H. apply ret_inr in H. destruct H as [<- <-]. auto.
Qed.

Lemma grid_axes_inr self g axes g' :
  grid_axes self g = inr (axes, g') ->
  g' = g /\ atom_positions self <> [] /\ pixel_size self <> 0.
Proof.
  unfold grid_axes, bind, min0, max0, raise, ret, lift, arange.
  destruct (atom_positions self); [discriminate|].
  destruct (Req_dec_T (pixel_size self) 0); [discriminate|].
  intros H. inversion H. repeat split; [discriminate|assumption].
Qed.

(** A built grid is rectangular, of the shape of the two axis ranges. *)
Lemma builder_shape self g self' g' :
  create_probe_positions self g = inr (self', g') ->
  exists xrange yrange p,
    grid_axes self g = inr ((xrange, yrange), g)
    /\ self' = set_probe_positions self p
    /\ rect (length yrange) (length xrange) (fst p)
    /\ rect (length yrange) (length xrange) (snd p).
Proof.
  rewrite create_probe_positions_staged. unfold builder_in_order.
  intros H. inv_bind H. destruct v as [xrange yrange].
  destruct (grid_axes_inr _ _ _ _ Hrun) as [-> _].
  exists xrange, yrange.
  destruct (rect_meshgrid xrange yrange) as [M0 M1].
  destruct (stage_jitter_run self (length yrange) (length xrange)
              (meshgrid xrange yrange) g M0 M1)
    as (p1 & g1 & Hj & J0 & J1).
  cbv zeta in H. unfold bind at 1 in H. rewrite Hj in H.
  destruct (rect_stage_rotation self _ _ p1 J0 J1) as [R0 R1].
  destruct (rect_stage_drift self _ _ _ R0 R1) as [D0 D1].
  inv_bind H.
  destruct (stage_recentre_rect _ _ _ _ _ _ _ D0 D1 Hrun0) as (-> & C0 & C1).
  apply ret_inr in H. destruct H as [<- <-].
  exists v. auto.
Qed.

(** *** Construction *)

(** The explicit [(positions, numbers)] branch of [__init__] never gets
    past its guard. *)
Lemma explicit_positions_raise (a : Args) (g : rng) :
  truthy_atoms (arg_atoms a) = false ->
  exists e, init a g = inl e.
Proof.
  intros Ht. unfold init, bind. rewrite Ht.
  destruct (arg_positions a) as [|[|p rows]|[|p rows]];
    cbv [lift truthy_positions slice_positions raise ret negb];
    eexists; reflexivity.
Qed.

Lemma init_inr (a : Args) (g : rng) (m : ImageModel) (g' : rng) :
  init a g = inr (m, g') ->
  exists at_ ats pos nums self1,
    arg_atoms a = Some (at_ :: ats)
    /\ length pos = length nums
    /\ (arg_fast a = false ->
        pos = atoms_xy (at_ :: ats) /\ nums = atoms_numbers (at_ :: ats))
    /\ create_probe_positions (assign_attributes a pos nums) g
       = inr (self1, g')
    /\ m = create_parameters self1.
Proof.
  intros H.
  destruct (truthy_atoms (arg_atoms a)) eqn:Ht.
  2:{ destruct (explicit_positions_raise a g Ht) as [e He].
      rewrite He in H. discriminate H. }
  unfold init in H. rewrite Ht in H.
  destruct (arg_atoms a) as [[|at_ ats]|]; try discriminate Ht.
  exists at_, ats.
  inv_bind H. apply ret_inr in Hrun. destruct Hrun as [<- <-].
  cbv beta iota zeta in H.
  assert (Hl : length (atoms_xy (at_ :: ats))
               = length (atoms_numbers (at_ :: ats)))
    by (unfold atoms_xy, atoms_numbers; now rewrite !length_map).
  destruct (arg_fast a).
  - inv_bind H. inv_bind Hrun. apply ret_inr in Hrun0.
    destruct Hrun0 as [<- <-].
    rewrite Hl, Nat.eqb_refl in Hrun.
    apply ret_inr in Hrun. destruct Hrun as [<- <-].
    cbv beta iota zeta in H.
    inv_bind H. apply ret_inr in Hrun. destruct Hrun as [<- <-].
    inv_bind H. apply ret_inr in H. destruct H as [<- <-].
    match goal with
    | Hcp : create_probe_positions (assign_attributes _ ?p ?n) _ = inr (?s, _)
      |- _ => exists p, n, s; repeat split; try exact Hcp; try discriminate
    end.
    unfold keep_unique. cbn [fst snd]. now rewrite !length_map.
  - inv_bind H. apply ret_inr in Hrun. destruct Hrun as [<- <-].
    cbv beta iota zeta in H.
    inv_bind H. apply ret_inr in Hrun. destruct Hrun as [<- <-].
    inv_bind H. apply ret_inr in H. destruct H as [<- <-].
    match goal with
    | Hcp : create_probe_positions (assign_attributes _ ?p ?n) _ = inr (?s, _)
      |- _ => exists p, n, s; repeat split; try exact Hcp; try exact Hl
    end.
Qed.

Lemma init_consistent (a : Args) (g : rng) (m : ImageModel) (g' : rng) :
  init a g = inr (m, g') -> consistent m.
Proof.
  intros H.
  destruct (init_inr a g m g' H)
    as (at_ & ats & pos & nums & self1 & Ha & Hl & _ & Hb & ->).
  destruct (builder_shape _ _ _ _ Hb)
    as (xr & yr & p & _ & -> & R0 & R1).
  unfold consistent. cbn [atom_positions atom_numbers number_of_atoms
    create_parameters set_parameters set_probe_positions assign_attributes
    probe_positions parameters].
  repeat split; try assumption; try reflexivity.
  exists (length yr), (length xr). auto.
Qed.
(** *** The accumulate-per-atom synthesizer *)

Lemma gaussian_rows_sum (pw sg x y : R) (atoms : list ((R * R) * R)) :
  fold_right
    (fun p acc =>
       let '(A, xc, yc, s) := p in Gaussian2D x y A xc yc s + acc) 0
    (map (fun a => (float_power (snd a) pw, fst (fst a), snd (fst a),
                    1 * sg)) atoms)
  = intensity_sum atoms pw sg x y.
Proof.
  induction atoms as [|a atoms IH]; simpl; [reflexivity|].
  rewrite IH. unfold Gaussian2D, atom_term. now rewrite Rmult_1_l.
Qed.

Lemma generate_rect (m : ImageModel) ny nx :
  rect ny nx (fst (probe_positions m)) ->
  rect ny nx (snd (probe_positions m)) ->
  (0 < ny)%nat ->
  rect ny nx (generate m).
Proof.
  intros HX HY Hny. unfold generate.
  destruct (probe_positions m) as [X Y]; cbn [fst snd] in *.
  assert (Hs : shape2 X = (ny, nx)).
  { unfold shape2. destruct HX as [L F]. rewrite L.
    now rewrite (rect_hd ny nx X (conj L F) Hny). }
  rewrite Hs; cbn [fst snd].
  generalize (rect_zeros2 ny nx). generalize (zeros2 ny nx).
  induction (parameters_T (parameters m)) as [|[[[A xc] yc] sg] ps IH];
    intros img Himg; simpl; [assumption|].
  apply IH. apply rect_map2; auto using rect_Gaussian2D_grid.
Qed.

Lemma generate_pixel (m : ImageModel) ny nx r c :
  length (atom_positions m) = length (atom_numbers m) ->
  number_of_atoms m = length (atom_numbers m) ->
  parameters m = parameters (create_parameters m) ->
  rect ny nx (fst (probe_positions m)) ->
  rect ny nx (snd (probe_positions m)) ->
  (r < ny)%nat -> (c < nx)%nat ->
  at2 (generate m) r c
  = intensity_sum (combine (atom_positions m) (atom_numbers m))
      (power m) (sigma m)
      (at2 (fst (probe_positions m)) r c)
      (at2 (snd (probe_positions m)) r c).
Proof.
  intros Hl Hn Hp HX HY Hr Hc. unfold generate.
  rewrite Hp, (parameters_T_create m Hl Hn).
  destruct (probe_positions m) as [X Y]; cbn [fst snd] in *.
  assert (Hs : shape2 X = (ny, nx)).
  { unfold shape2. destruct HX as [L F]. rewrite L.
    rewrite (rect_hd ny nx X (conj L F)); [reflexivity|lia]. }
  rewrite Hs; cbn [fst snd].
  rewrite (accumulate_pixel ny nx) by auto using rect_zeros2.
  rewrite at2_zeros2, gaussian_rows_sum. lra.
Qed.

Lemma intensity_sum_superposition (pw sg x y : R) (pos : list (R * R))
    (nums : list R) :
  Forall (fun z => 0 < z) nums ->
  intensity_sum (combine pos nums) pw sg x y
  = superposition (combine pos nums) pw sg x y.
Proof.
  intros HF. revert pos.
  induction HF as [|z nums Hz HF IH]; intros [|p pos]; simpl;
    try reflexivity.
  rewrite IH. unfold atom_term, float_power. cbn [fst snd].
  destruct (Req_dec_T z 0); [lra|]. reflexivity.
Qed.

(** C1.  For every constructed [ImageModel] with a non-zero [sigma] and
    positive atomic numbers, the image of [generate] has the grid's shape,
    and its value at each pixel [(r, c)], whose probe coordinates are
    [(x, y) = (X[r, c], Y[r, c])], is the sum over the atoms of
    [Z ^ power * exp(-((x - xc)^2 + (y - yc)^2) / (2 sigma^2))] with the
    model's one [sigma] for every atom, where [Z ^ power] is the real
    power [exp (power * ln Z)]. *)
Theorem generate_is_gaussian_sum (a : Args) (g g' : rng) (m : ImageModel) :
  init a g = inr (m, g') ->
  sigma m <> 0 ->
  Forall (fun z => 0 < z) (atom_numbers m) ->
  forall r c : nat,
    (r < fst (shape2 (fst (probe_positions m))))%nat ->
    (c < snd (shape2 (fst (probe_positions m))))%nat ->
    shape2 (generate m) = shape2 (fst (probe_positions m))
    /\ at2 (generate m) r c
       = superposition (combine (atom_positions m) (atom_numbers m))
           (power m) (sigma m)
           (at2 (fst (probe_positions m)) r c)
           (at2 (snd (probe_positions m)) r c).
Proof.
  intros H _ HZ r c Hr Hc.
  destruct (init_consistent a g m g' H)
    as (Hl & Hn & Hp & ny & nx & HX & HY).
  assert (Hs : shape2 (fst (probe_positions m)) = (ny, nx)).
  { unfold shape2 in *. simpl in Hr. destruct HX as [L F].
    rewrite L in *. rewrite (rect_hd ny nx _ (conj L F)); [reflexivity|lia]. }
  rewrite Hs in *. simpl in Hr, Hc.
  split.
  - pose proof (generate_rect m ny nx HX HY ltac:(lia)) as [L F].
    unfold shape2. rewrite L.
    rewrite (rect_hd ny nx _ (conj L F)); [reflexivity|lia].
  - rewrite <- intensity_sum_superposition by exact HZ.
    now apply (generate_pixel m ny nx).
Qed.
(** *** Evaluating the builder on concrete inputs *)

Lemma truthy_R_0 : truthy_R 0 = false.
Proof. unfold truthy_R. destruct (Req_dec_T 0 0); [reflexivity|lra]. Qed.

Lemma truthy_R_nonzero (x : R) : x <> 0 -> truthy_R x = true.
Proof.
  intros Hx. unfold truthy_R. destruct (Req_dec_T x 0); [contradiction|auto].
Qed.

Lemma ceilZ_eq (x : R) (z : Z) :
  IZR z - 1 < x <= IZR z -> ceilZ x = z.
Proof.
  intros [Hlo Hhi]. unfold ceilZ.
  assert (Hup : (1 - z)%Z = up (- x)).
  { apply tech_up; rewrite minus_IZR; lra. }
  rewrite <- Hup. lia.
Qed.

Lemma arange_len_eq (start stop step : R) (n : nat) :
  INR n - 1 < (stop - start) / step <= INR n ->
  arange_len start stop step = n.
Proof.
  intros H. unfold arange_len.
  rewrite (ceilZ_eq _ (Z.of_nat n)).
  - apply Nat2Z.id.
  - now rewrite <- INR_IZR_INZ.
Qed.

Lemma arange_unit_pair :
  arange 0 (1 + (1 - 0) / 100) 1 = inr [0; 1].
Proof.
  unfold arange. destruct (Req_dec_T 1 0); [lra|].
  unfold arange_values. rewrite (arange_len_eq _ _ _ 2) by (simpl; lra).
  simpl. repeat (f_equal; try lra).
Qed.

Lemma Rmin_0_1 : Rmin 0 1 = 0.
Proof. apply Rmin_left. lra. Qed.

Lemma Rmax_0_1 : Rmax 0 1 = 1.
Proof. apply Rmax_right. lra. Qed.

Lemma two_atoms_axes (a : Args) (g : rng) :
  arg_vacuum a = 0 -> arg_pixel_size a = 1 -> arg_square a = false ->
  grid_axes (assign_attributes a (atoms_xy two_atoms)
               (atoms_numbers two_atoms)) g
  = inr (([0; 1], [0; 1]), g).
Proof.
  intros Hv Hp Hs.
  unfold grid_axes, bind, min0, max0, ret.
  cbn [assign_attributes atom_positions margin square pixel_size
       atoms_xy two_atoms map apos fst snd min1 max1 fold_left].
  rewrite Hv, Hp, Hs, Rmin_0_1, Rmax_0_1.
  replace (0 - 0) with 0 by lra. replace (1 + 0) with 1 by lra.
  rewrite arange_unit_pair. reflexivity.
Qed.

Lemma init_atoms_run (a : Args) (at_ : Atom) (ats : Atoms) (g : rng) :
  arg_atoms a = Some (at_ :: ats) -> arg_fast a = false ->
  init a g
  = bind (create_probe_positions
            (assign_attributes a (atoms_xy (at_ :: ats))
                               (atoms_numbers (at_ :: ats))))
         (fun self => ret (create_parameters self)) g.
Proof.
  intros Ha Hf. unfold init. rewrite Ha, Hf.
  cbn [truthy_atoms]. reflexivity.
Qed.

Lemma builder_run (self : ImageModel) (g : rng) (xr yr : array1) :
  grid_axes self g = inr ((xr, yr), g) ->
  create_probe_positions self g
  = bind (stage_jitter self (length yr) (length xr) (meshgrid xr yr))
      (fun p =>
         bind (stage_recentre self (length yr) (length xr)
                 (stage_drift self (length yr) (length xr)
                    (stage_rotation self (length yr) (length xr) p)))
              (fun p' => ret (set_probe_positions self p'))) g.
Proof.
  intros H. rewrite create_probe_positions_staged.
  unfold builder_in_order. unfold bind at 1. rewrite H. reflexivity.
Qed.

Lemma two_atom_model_run (g : rng) :
  init two_atom_args g = inr (two_atom_model, g).
Proof.
  rewrite (init_atoms_run two_atom_args (mkAtom (0, 0, 0) 1)
             [mkAtom (1, 1, 0) 2]) by reflexivity.
  unfold bind at 1.
  rewrite (builder_run _ g [0; 1] [0; 1])
    by (apply two_atoms_axes; reflexivity).
  unfold stage_jitter, stage_rotation, stage_drift, stage_recentre, bind.
  cbn [assign_attributes jitter_strength scan_rotation drift_speed
       two_atom_args arg_jitter_strength arg_scan_rotation arg_drift_speed
       truthy_strength].
  rewrite truthy_R_0. reflexivity.
Qed.

Lemma generate_is_gaussian_sum_witness :
  shape2 (generate two_atom_model)
  = shape2 (fst (probe_positions two_atom_model))
  /\ at2 (generate two_atom_model) 1 0
     = superposition
         (combine (atom_positions two_atom_model)
                  (atom_numbers two_atom_model))
         (power two_atom_model) (sigma two_atom_model)
         (at2 (fst (probe_positions two_atom_model)) 1 0)
         (at2 (snd (probe_positions two_atom_model)) 1 0).
Proof.
  apply (generate_is_gaussian_sum two_atom_args rng0 rng0 two_atom_model
           (two_atom_model_run rng0)).
  - simpl. lra.
  - repeat constructor; simpl; lra.
  - simpl. lia.
  - simpl. lia.
Defined.
(** *** The two synthesis strategies *)

Lemma rect_zeros_like ny nx (X : array2) :
  rect ny nx X -> rect ny nx (zeros2 (fst (shape2 X)) (snd (shape2 X))).
Proof.
  intros [L F]. unfold shape2; cbn [fst snd].
  destruct X as [|row X].
  - simpl in L. subst ny. split; [reflexivity|constructor].
  - simpl in L. simpl hd. inversion F; subst. apply rect_zeros2.
Qed.

Lemma generate_rect_any (m : ImageModel) ny nx :
  rect ny nx (fst (probe_positions m)) ->
  rect ny nx (snd (probe_positions m)) ->
  rect ny nx (generate m).
Proof.
  intros HX HY. unfold generate.
  destruct (probe_positions m) as [X Y]; cbn [fst snd] in *.
  generalize (rect_zeros_like ny nx X HX).
  generalize (zeros2 (fst (shape2 X)) (snd (shape2 X))).
  induction (parameters_T (parameters m)) as [|[[[A xc] yc] sg] ps IH];
    intros img Himg; simpl; [assumption|].
  apply IH. apply rect_map2; auto using rect_Gaussian2D_grid.
Qed.







(** *** Construction guards *)

Lemma init_no_input (a : Args) (g : rng) :
  truthy_atoms (arg_atoms a) = false -> arg_positions a = PosNone ->
  init a g = inl AttributeError.
Proof.
  intros Ht Hp. unfold init, bind. rewrite Ht, Hp. reflexivity.
Qed.

(** C9.  [__init__] raises its [AttributeError] when neither an atoms
    object nor positions are supplied, but an explicit positions array is
    never accepted: [not positions] has no truth value for an array of
    several elements ([ValueError]), and a list of rows passes the guard
    only to fail at [positions[:, :2]] ([TypeError]). *)
Theorem explicit_positions_never_accepted :
  (forall g, init default_args g = inl AttributeError)
  /\ (forall g, init explicit_array_args g = inl ValueError)
  /\ (forall g, init explicit_list_args g = inl TypeError)
  /\ (forall a g, truthy_atoms (arg_atoms a) = false ->
        exists e, init a g = inl e).
Proof.
  repeat split; try reflexivity.
  intros a g. apply explicit_positions_raise.
Qed.

Lemma grid_axes_total (self : ImageModel) (g : rng) :
  atom_positions self <> [] -> pixel_size self <> 0 ->
  exists xr yr, grid_axes self g = inr ((xr, yr), g).
Proof.
  intros Hne Hpx. unfold grid_axes, bind, min0, max0, ret, lift, arange.
  destruct (atom_positions self) as [|p l]; [contradiction|].
  destruct (Req_dec_T (pixel_size self) 0); [contradiction|].
  eexists. eexists. reflexivity.
Qed.

Lemma stage_recentre_no_drift (self : ImageModel) ny nx (p : grid) g :
  drift_speed self = 0 -> stage_recentre self ny nx p g = inr (p, g).
Proof.
  intros Hd. unfold stage_recentre. rewrite Hd, truthy_R_0. reflexivity.
Qed.

(** Without drift the builder cannot fail on a non-empty atom set, and the
    grid it stores has the shape of the axis ranges. *)
Lemma builder_succeeds_no_drift (self : ImageModel) (g : rng) :
  atom_positions self <> [] -> pixel_size self <> 0 ->
  drift_speed self = 0 ->
  exists xr yr p g',
    grid_axes self g = inr ((xr, yr), g)
    /\ create_probe_positions self g = inr (set_probe_positions self p, g')
    /\ rect (length yr) (length xr) (fst p)
    /\ rect (length yr) (length xr) (snd p).
Proof.
  intros Hne Hpx Hd.
  destruct (grid_axes_total self g Hne Hpx) as (xr & yr & Hax).
  exists xr, yr.
  destruct (rect_meshgrid xr yr) as [M0 M1].
  destruct (stage_jitter_run self (length yr) (length xr)
              (meshgrid xr yr) g M0 M1) as (p1 & g1 & Hj & J0 & J1).
  destruct (rect_stage_rotation self _ _ p1 J0 J1) as [R0 R1].
  destruct (rect_stage_drift self _ _ _ R0 R1) as [D0 D1].
  eexists. exists g1. split; [exact Hax|]. split; [|split; eassumption].
  rewrite (builder_run self g xr yr Hax).
  unfold bind at 1. rewrite Hj.
  unfold bind. rewrite stage_recentre_no_drift by assumption.
  reflexivity.
Qed.

Lemma init_succeeds_no_drift (a : Args) (at_ : Atom) (ats : Atoms) (g : rng) :
  arg_atoms a = Some (at_ :: ats) -> arg_fast a = false ->
  arg_pixel_size a <> 0 -> arg_drift_speed a = 0 ->
  exists m g', init a g = inr (m, g').
Proof.
  intros Ha Hf Hpx Hd.
  rewrite (init_atoms_run a at_ ats g Ha Hf).
  destruct (builder_succeeds_no_drift
              (assign_attributes a (atoms_xy (at_ :: ats))
                                 (atoms_numbers (at_ :: ats))) g)
    as (xr & yr & p & g' & _ & Hb & _); [discriminate|exact Hpx|exact Hd|].
  unfold bind. rewrite Hb. eexists. eexists. reflexivity.
Qed.

Lemma rect_0_nil nx (a : array2) : rect 0 nx a -> a = [].
Proof. intros [L _]. now destruct a. Qed.

Lemma arange_empty (start stop step : R) :
  step <> 0 -> stop - start = 0 -> arange start stop step = inr [].
Proof.
  intros Hs H. unfold arange.
  destruct (Req_dec_T step 0); [contradiction|].
  unfold arange_values.
  rewrite (arange_len_eq _ _ _ 0); [reflexivity|].
  rewrite H. unfold Rdiv. rewrite Rmult_0_l. simpl. lra.
Qed.

(** One atom, no vacuum: both axis ranges are empty and so is the grid. *)
Lemma point_box_empty_grid (a : Args) (at_ : Atom) (g : rng) :
  arg_atoms a = Some [at_] -> arg_fast a = false ->
  arg_pixel_size a <> 0 -> arg_drift_speed a = 0 ->
  arg_vacuum a = 0 -> arg_square a = false ->
  exists m g',
    init a g = inr (m, g')
    /\ probe_positions m = ([], [])
    /\ generate m = [].
Proof.
  intros Ha Hf Hpx Hd Hv Hs.
  rewrite (init_atoms_run a at_ [] g Ha Hf).
  set (self := assign_attributes a (atoms_xy [at_]) (atoms_numbers [at_])).
  destruct (builder_succeeds_no_drift self g)
    as (xr & yr & p & g' & Hax & Hb & P0 & P1);
    [discriminate|exact Hpx|exact Hd|].
  assert (Hxy : xr = [] /\ yr = []).
  { unfold grid_axes, bind, min0, max0, ret in Hax.
    cbn [self assign_attributes atom_positions margin square pixel_size
         atoms_xy map fst snd min1 max1 fold_left] in Hax.
    rewrite Hv, Hs in Hax.
    rewrite !arange_empty in Hax by (try assumption; unfold Rdiv; ring).
    cbn [lift] in Hax. unfold ret in Hax.
    inversion Hax. auto. }
  destruct Hxy as [-> ->]. simpl in P0, P1.
  apply rect_0_nil in P0, P1.
  unfold bind. rewrite Hb.
  eexists. eexists. split; [reflexivity|].
  destruct p as [X Y]; simpl in P0, P1; subst.
  split; reflexivity.
Qed.

Lemma degenerate_geometry_accepted :
  (exists m g', init (single_atom_args 5) rng0 = inr (m, g'))
  /\ (exists m g',
        init (single_atom_args 0) rng0 = inr (m, g')
        /\ probe_positions m = ([], []) /\ generate m = []).
Proof.
  split.
  - apply (init_succeeds_no_drift _ (mkAtom (0, 0, 0) 1) []);
      try reflexivity. simpl. lra.
  - apply (point_box_empty_grid _ (mkAtom (0, 0, 0) 1));
      try reflexivity. simpl. lra.
Qed.

(** C8, as the code has it.  [__init__] validates no geometry.  An atoms
    object without atoms is falsy, so zero atoms end in the
    [AttributeError] of the missing-input guard; a single atom, whose
    bounding box is a point, is accepted whenever the pixel size is not
    zero and there is no drift, and with no vacuum and no square mode its
    grid (and image) is empty. *)
Theorem degenerate_geometry_not_validated :
  (forall a g, arg_atoms a = Some [] -> arg_positions a = PosNone ->
     init a g = inl AttributeError)
  /\ (forall a at_ g,
        arg_atoms a = Some [at_] -> arg_fast a = false ->
        arg_pixel_size a <> 0 -> arg_drift_speed a = 0 ->
        exists m g', init a g = inr (m, g'))
  /\ (forall a at_ g,
        arg_atoms a = Some [at_] -> arg_fast a = false ->
        arg_pixel_size a <> 0 -> arg_drift_speed a = 0 ->
        arg_vacuum a = 0 -> arg_square a = false ->
        exists m g',
          init a g = inr (m, g')
          /\ probe_positions m = ([], []) /\ generate m = []).
Proof.
  split; [|split].
  - intros a g Ha Hp. apply init_no_input; [now rewrite Ha|assumption].
  - intros a at_ g. apply init_succeeds_no_drift.
  - intros a at_ g. apply point_box_empty_grid.
Qed.

(** *** The Gaussian's divisor *)

Lemma gaussian_divisor_zero (s : R) : 2 * s ^ 2 = 0 <-> s = 0.
Proof.
  split; intros H; [|subst; ring].
  assert (Hs : s * s = 0) by lra.
  apply Rmult_integral in Hs. tauto.
Qed.

Lemma init_stores_sigma (a : Args) (g g' : rng) (m : ImageModel) :
  init a g = inr (m, g') ->
  sigma m = arg_sigma a
  /\ snd (parameters m)
     = map (fun one => one * arg_sigma a) (ones1 (number_of_atoms m)).
Proof.
  intros H.
  destruct (init_inr a g m g' H)
    as (at_ & ats & pos & nums & self1 & _ & _ & _ & Hb & ->).
  destruct (builder_shape _ _ _ _ Hb) as (xr & yr & p & _ & -> & _).
  split; reflexivity.
Qed.

(** C10.  [Gaussian2D] divides by [2 * sigma ** 2] unguarded: read with a
    checked division it has a value exactly when [sigma] is not zero, and
    that value is the one [Gaussian2D] computes; [ImageModel] stores
    whatever [sigma] it is given, zero included, and replicates it per
    atom. *)
Theorem gaussian_defined_iff_sigma_nonzero :
  (forall x y A xc yc s : R,
     s <> 0 ->
     Gaussian2D_checked x y A xc yc s = Some (Gaussian2D x y A xc yc s))
  /\ (forall x y A xc yc s : R,
        Gaussian2D_checked x y A xc yc s = None <-> s = 0)
  /\ (forall a g m g',
        init a g = inr (m, g') ->
        sigma m = arg_sigma a
        /\ snd (parameters m)
           = map (fun one => one * arg_sigma a)
                 (ones1 (number_of_atoms m)))
  /\ (forall a at_ ats g,
        arg_atoms a = Some (at_ :: ats) -> arg_fast a = false ->
        arg_pixel_size a <> 0 -> arg_drift_speed a = 0 ->
        arg_sigma a = 0 ->
        exists m g', init a g = inr (m, g') /\ sigma m = 0).
Proof.
  split; [|split; [|split]].
  - intros x y A xc yc s Hs. unfold Gaussian2D_checked, checked_div.
    destruct (Req_dec_T (2 * s ^ 2) 0) as [E|_].
    + exfalso. apply Hs. now apply gaussian_divisor_zero.
    + reflexivity.
  - intros x y A xc yc s. unfold Gaussian2D_checked, checked_div.
    destruct (Req_dec_T (2 * s ^ 2) 0) as [E|E].
    + split; [intros _; now apply gaussian_divisor_zero|reflexivity].
    + split; [discriminate|]. intros ->. exfalso. apply E. ring.
  - intros a g m g' H. now apply (init_stores_sigma a g g').
  - intros a at_ ats g Ha Hf Hpx Hd Hs.
    destruct (init_succeeds_no_drift a at_ ats g Ha Hf Hpx Hd)
      as (m & g' & H).
    exists m, g'. split; [exact H|].
    destruct (init_stores_sigma a g g' m H) as [-> _]. exact Hs.
Qed.

(** *** Extremes of the drift field *)

Lemma ravel_reshape2 ny nx (flat : array1) :
  length flat = (ny * nx)%nat -> ravel (reshape2 ny nx flat) = flat.
Proof.
  revert flat. induction ny as [|ny IH]; intros flat Hl.
  - destruct flat; [reflexivity|discriminate].
  - cbn [reshape2]. unfold ravel in *. cbn [concat].
    rewrite IH by (rewrite length_skipn; simpl in Hl; lia).
    apply firstn_skipn.
Qed.

Lemma ravel_map_map (f : R -> R) (a : array2) :
  ravel (map (map f) a) = map f (ravel a).
Proof.
  unfold ravel. induction a as [|row a IH]; simpl; [reflexivity|].
  now rewrite map_app, IH.
Qed.

(** The running maximum and minimum of a monotone sequence. *)
Lemma max1_nondecreasing (f : nat -> R) (n : nat) :
  (forall k, f k <= f (S k)) ->
  max1 (f 0%nat) (map f (seq 1 n)) = f n.
Proof.
  intros Hm. unfold max1. induction n as [|n IH]; [reflexivity|].
  rewrite seq_S, map_app, fold_left_app, IH. simpl.
  apply Rmax_right, Hm.
Qed.

Lemma min1_nondecreasing (f : nat -> R) (n : nat) :
  (forall k, f k <= f (S k)) ->
  min1 (f 0%nat) (map f (seq 1 n)) = f 0%nat.
Proof.
  intros Hm. unfold min1. induction n as [|n IH]; [reflexivity|].
  rewrite seq_S, map_app, fold_left_app, IH. simpl.
  apply Rmin_left.
  clear IH. induction n as [|n IH]; [apply Hm|].
  eapply Rle_trans; [exact IH|apply Hm].
Qed.

Lemma max1_nonincreasing (f : nat -> R) (n : nat) :
  (forall k, f (S k) <= f k) ->
  max1 (f 0%nat) (map f (seq 1 n)) = f 0%nat.
Proof.
  intros Hm. unfold max1. induction n as [|n IH]; [reflexivity|].
  rewrite seq_S, map_app, fold_left_app, IH. simpl.
  apply Rmax_left.
  clear IH. induction n as [|n IH]; [apply Hm|].
  eapply Rle_trans; [apply Hm|exact IH].
Qed.

Lemma min1_nonincreasing (f : nat -> R) (n : nat) :
  (forall k, f (S k) <= f k) ->
  min1 (f 0%nat) (map f (seq 1 n)) = f n.
Proof.
  intros Hm. unfold min1. induction n as [|n IH]; [reflexivity|].
  rewrite seq_S, map_app, fold_left_app, IH. simpl.
  apply Rmin_right, Hm.
Qed.

(** The entries of a drift channel in scan order: [a * k - c] with
    [a = speed / total * (- d)], shifted by [c] once recentred. *)
Lemma ravel_drift_channel ny nx d s c :
  ravel (sub_scalar2 (drift_channel ny nx d s) c)
  = map (fun k => s / INR (ny * nx) * - d * INR k - c) (seq 0 (ny * nx)).
Proof.
  unfold sub_scalar2, drift_channel.
  rewrite ravel_map_map, ravel_reshape2
    by now rewrite length_map, length_seq.
  now rewrite map_map.
Qed.

Lemma sub_scalar2_0 (a : array2) : sub_scalar2 a 0 = a.
Proof.
  unfold sub_scalar2. rewrite <- (map_id a) at 2.
  apply map_ext. intros row. rewrite <- (map_id row) at 2.
  apply map_ext. intros z. lra.
Qed.

(** Maximum and minimum of a shifted drift channel over a non-empty grid
    of [S n] pixels. *)
Lemma drift_channel_extremes ny nx d s c n g :
  (ny * nx = S n)%nat ->
  let a := s / INR (ny * nx) * - d in
  amax (sub_scalar2 (drift_channel ny nx d s) c) g
    = inr (if Rle_dec 0 a then a * INR n - c else a * INR 0 - c, g)
  /\ amin (sub_scalar2 (drift_channel ny nx d s) c) g
     = inr (if Rle_dec 0 a then a * INR 0 - c else a * INR n - c, g).
Proof.
  intros HN a. unfold amax, amin.
  rewrite ravel_drift_channel. fold a. rewrite HN.
  cbn [seq map]. unfold ret.
  assert (Hstep : forall k, INR k <= INR (S k))
    by (intros k; rewrite S_INR; lra).
  destruct (Rle_dec 0 a) as [Ha|Ha].
  - rewrite (max1_nondecreasing (fun k => a * INR k - c))
      by (intros k; specialize (Hstep k); nra).
    rewrite (min1_nondecreasing (fun k => a * INR k - c))
      by (intros k; specialize (Hstep k); nra).
    split; reflexivity.
  - rewrite (max1_nonincreasing (fun k => a * INR k - c))
      by (intros k; specialize (Hstep k); nra).
    rewrite (min1_nonincreasing (fun k => a * INR k - c))
      by (intros k; specialize (Hstep k); nra).
    split; reflexivity.
Qed.

Lemma entry_ravel (d : array2) (v : R) : entry d v <-> In v (ravel d).
Proof.
  unfold entry, ravel. rewrite in_concat.
  split; intros (row & H1 & H2); exists row; auto.
Qed.

(** The entries of a shifted drift channel over [S n] pixels. *)
Lemma drift_channel_entries ny nx d s c n v :
  (ny * nx = S n)%nat ->
  entry (sub_scalar2 (drift_channel ny nx d s) c) v
  <-> exists k, (k <= n)%nat /\ v = s / INR (ny * nx) * - d * INR k - c.
Proof.
  intros HN. rewrite entry_ravel, ravel_drift_channel, in_map_iff.
  split.
  - intros (k & <- & Hk). apply in_seq in Hk.
    exists k. split; [lia|reflexivity].
  - intros (k & Hk & ->). exists k. split; [reflexivity|].
    apply in_seq. lia.
Qed.

(** The maximum and the minimum of a shifted drift channel are the two
    ends of the ramp: entries of the field that bound every entry. *)
Lemma drift_channel_has_extremes ny nx d s c n :
  (ny * nx = S n)%nat ->
  let a := s / INR (ny * nx) * - d in
  has_extremes (sub_scalar2 (drift_channel ny nx d s) c)
    (if Rle_dec 0 a then a * INR n - c else a * INR 0 - c)
    (if Rle_dec 0 a then a * INR 0 - c else a * INR n - c).
Proof.
  intros HN a. unfold has_extremes.
  assert (Hent : forall v,
             entry (sub_scalar2 (drift_channel ny nx d s) c) v
             <-> exists k, (k <= n)%nat /\ v = a * INR k - c)
    by (intros v; now apply drift_channel_entries).
  assert (Hk : forall k, (k <= n)%nat -> 0 <= INR k <= INR n)
    by (intros k Hk; split; [apply pos_INR|now apply le_INR]).
  destruct (Rle_dec 0 a) as [Ha|Ha].
  - split; [apply Hent; exists n; split; [lia|reflexivity]|].
    split; [apply Hent; exists 0%nat; split; [lia|reflexivity]|].
    intros v Hv. apply Hent in Hv. destruct Hv as (k & Hkn & ->).
    destruct (Hk k Hkn). simpl INR. split; nra.
  - split; [apply Hent; exists 0%nat; split; [lia|reflexivity]|].
    split; [apply Hent; exists n; split; [lia|reflexivity]|].
    intros v Hv. apply Hent in Hv. destruct Hv as (k & Hkn & ->).
    destruct (Hk k Hkn). simpl INR. split; nra.
Qed.

(** The offset the recentring computes from a drift channel: the last
    entry [a * n] of the ramp, which is the extreme of larger magnitude. *)
Lemma signed_extreme_drift ny nx d s n g :
  (ny * nx = S n)%nat ->
  exists off,
    signed_extreme (drift_channel ny nx d s) g = inr (off, g)
    /\ off = s / INR (ny * nx) * - d * INR n
    /\ larger_extreme (drift_channel ny nx d s) off.
Proof.
  intros HN.
  pose proof (drift_channel_has_extremes ny nx d s 0 n HN) as He.
  pose proof (drift_channel_extremes ny nx d s 0 n g HN) as Hev.
  rewrite sub_scalar2_0 in He, Hev. cbv zeta in He, Hev.
  set (a := s / INR (ny * nx) * - d) in *.
  assert (Hn : 0 <= INR n) by apply pos_INR.
  unfold signed_extreme, bind.
  destruct Hev as [Hmx Hmn]. rewrite Hmx, Hmn. unfold ret.
  eexists. split; [reflexivity|].
  simpl INR in *.
  destruct (Rle_dec 0 a) as [Ha|Ha].
  - destruct (Rgt_dec (a * INR n - 0) (- (a * 0 - 0))) as [Hg|Hg].
    + split; [lra|]. exists (a * INR n - 0), (a * 0 - 0).
      split; [exact He|]. split; [now left|].
      rewrite Rmax_left; [reflexivity|].
      rewrite (Rabs_right (a * INR n - 0)) by nra.
      rewrite Rabs_right by lra. nra.
    + assert (Hz : a * INR n = 0) by nra.
      split; [lra|]. exists (a * INR n - 0), (a * 0 - 0).
      split; [exact He|]. split; [now right|].
      rewrite Hz. replace (0 - 0) with 0 by lra.
      replace (a * 0 - 0) with 0 by lra.
      now rewrite Rmax_left by lra.
  - assert (Ha' : a < 0) by lra.
    destruct (Rgt_dec (a * 0 - 0) (- (a * INR n - 0))) as [Hg|Hg].
    + exfalso. nra.
    + split; [lra|]. exists (a * 0 - 0), (a * INR n - 0).
      split; [exact He|]. split; [now right|].
      replace (a * 0 - 0) with 0 by lra.
      rewrite Rabs_R0. rewrite Rmax_right; [reflexivity|apply Rabs_pos].
Qed.

Lemma recentred_drift_balanced ny nx d s n :
  (ny * nx = S n)%nat ->
  balanced (sub_scalar2 (drift_channel ny nx d s)
              (s / INR (ny * nx) * - d * INR n / 2)).
Proof.
  intros HN.
  pose proof (drift_channel_has_extremes ny nx d s
                (s / INR (ny * nx) * - d * INR n / 2) n HN) as He.
  cbv zeta in He.
  eexists. eexists. split; [exact He|].
  simpl INR. destruct (Rle_dec 0 (s / INR (ny * nx) * - d)); lra.
Qed.

Lemma sub_scalar2_add2 (a b : array2) (c : R) :
  sub_scalar2 (add2 a b) c = add2 a (sub_scalar2 b c).
Proof.
  unfold sub_scalar2, add2.
  revert b. induction a as [|ra a IH]; intros [|rb b]; simpl; auto.
  rewrite IH. f_equal.
  clear. revert rb. induction ra as [|x ra IH]; intros [|y rb]; simpl; auto.
  rewrite IH. f_equal. lra.
Qed.

Lemma nonempty_product (A B : Type) (xs : list A) (ys : list B) :
  xs <> [] -> ys <> [] -> exists n, (length ys * length xs = S n)%nat.
Proof.
  intros Hx Hy. destruct xs; [contradiction|]. destruct ys; [contradiction|].
  simpl. eexists. reflexivity.
Qed.

(** C7.  With [centre_drift] set and a non-zero [drift_speed], the builder
    takes per axis whichever of the drift field's maximum and minimum has
    the larger magnitude and subtracts half of it from every probe
    position; the displacement that remains on top of the jittered and
    rotated grid has a maximum and a minimum that sum to zero on each
    axis.  Maximum and minimum are meant as such: entries of the field
    that bound every entry of it. *)
Theorem centre_drift_balances (self : ImageModel) (g : rng)
    (xr yr : array1) :
  grid_axes self g = inr ((xr, yr), g) -> xr <> [] -> yr <> [] ->
  centre_drift self = true -> drift_speed self <> 0 ->
  let ny := length yr in
  let nx := length xr in
  let D := add_drift (ny, nx) (drift_vector self) (drift_speed self) in
  exists Q g' ox oy,
    bind (stage_jitter self ny nx (meshgrid xr yr))
         (fun p => ret (stage_rotation self ny nx p)) g = inr (Q, g')
    /\ larger_extreme (fst D) ox /\ larger_extreme (snd D) oy
    /\ create_probe_positions self g
       = inr (set_probe_positions self
                (sub_scalar2 (add2 (fst Q) (fst D)) (ox / 2),
                 sub_scalar2 (add2 (snd Q) (snd D)) (oy / 2)), g')
    /\ sub_scalar2 (add2 (fst Q) (fst D)) (ox / 2)
       = add2 (fst Q) (sub_scalar2 (fst D) (ox / 2))
    /\ sub_scalar2 (add2 (snd Q) (snd D)) (oy / 2)
       = add2 (snd Q) (sub_scalar2 (snd D) (oy / 2))
    /\ balanced (sub_scalar2 (fst D) (ox / 2))
    /\ balanced (sub_scalar2 (snd D) (oy / 2)).
Proof.
  intros Hax Hx Hy Hc Hd ny nx D.
  destruct (nonempty_product _ _ xr yr Hx Hy) as [n HN].
  fold ny nx in HN.
  destruct (rect_meshgrid xr yr) as [M0 M1].
  destruct (stage_jitter_run self ny nx (meshgrid xr yr) g M0 M1)
    as (p1 & g1 & Hj & _).
  assert (HD : D = (drift_channel ny nx (fst (drift_vector self))
                      (drift_speed self),
                    drift_channel ny nx (snd (drift_vector self))
                      (drift_speed self)))
    by apply add_drift_by_index.
  destruct (signed_extreme_drift ny nx (fst (drift_vector self))
              (drift_speed self) n g1 HN) as (ox & Hox & Eox & Lox).
  destruct (signed_extreme_drift ny nx (snd (drift_vector self))
              (drift_speed self) n g1 HN) as (oy & Hoy & Eoy & Loy).
  exists (stage_rotation self ny nx p1), g1, ox, oy.
  rewrite HD. cbn [fst snd].
  split; [unfold bind; now rewrite Hj|].
  split; [exact Lox|]. split; [exact Loy|].
  split.
  - rewrite (builder_run self g xr yr Hax). fold ny nx.
    unfold bind at 1. rewrite Hj.
    unfold stage_recentre, stage_drift.
    rewrite (truthy_R_nonzero _ Hd), Hc. cbn [andb].
    fold D. rewrite HD. cbn [fst snd].
    unfold bind. rewrite Hox, Hoy. reflexivity.
  - split; [apply sub_scalar2_add2|]. split; [apply sub_scalar2_add2|].
    rewrite Eox, Eoy. split; now apply recentred_drift_balanced.
Qed.

Lemma centre_drift_balances_witness :
  let self := assign_attributes two_atom_drift_args (atoms_xy two_atoms)
                                (atoms_numbers two_atoms) in
  let D := add_drift (2%nat, 2%nat) (1, 0) 1 in
  exists Q g' ox oy,
    bind (stage_jitter self 2 2 (meshgrid [0; 1] [0; 1]))
         (fun p => ret (stage_rotation self 2 2 p)) rng0 = inr (Q, g')
    /\ larger_extreme (fst D) ox /\ larger_extreme (snd D) oy
    /\ create_probe_positions self rng0
       = inr (set_probe_positions self
                (sub_scalar2 (add2 (fst Q) (fst D)) (ox / 2),
                 sub_scalar2 (add2 (snd Q) (snd D)) (oy / 2)), g')
    /\ sub_scalar2 (add2 (fst Q) (fst D)) (ox / 2)
       = add2 (fst Q) (sub_scalar2 (fst D) (ox / 2))
    /\ sub_scalar2 (add2 (snd Q) (snd D)) (oy / 2)
       = add2 (snd Q) (sub_scalar2 (snd D) (oy / 2))
    /\ balanced (sub_scalar2 (fst D) (ox / 2))
    /\ balanced (sub_scalar2 (snd D) (oy / 2)).
Proof.
  apply (centre_drift_balances
           (assign_attributes two_atom_drift_args (atoms_xy two_atoms)
                              (atoms_numbers two_atoms))
           rng0 [0; 1] [0; 1]).
  - apply two_atoms_axes; reflexivity.
  - discriminate.
  - discriminate.
  - reflexivity.
  - simpl. lra.
Defined.

(** *** The rotation stage, pixel by pixel *)

Lemma nth_ravel ny nx (a : array2) r c :
  rect ny nx a -> (r < ny)%nat -> (c < nx)%nat ->
  nth (r * nx + c) (ravel a) 0 = at2 a r c.
Proof.
  intros [L F]. revert ny r L.
  induction a as [|row a IH]; intros ny r L Hr Hc; simpl in L; [lia|].
  inversion F as [|? ? Hrow F']; subst.
  unfold ravel; cbn [concat]. destruct r as [|r].
  - simpl. rewrite app_nth1 by lia. reflexivity.
  - replace (S r * length row + c)%nat
      with (length row + (r * length row + c))%nat by (simpl; lia).
    rewrite app_nth2_plus.
    unfold at2; cbn [nth].
    apply (IH F' (length a) r eq_refl); [lia|assumption].
Qed.

(** Entry [(r, c)] of the rotated grid: the sample minus the per-channel
    mean of the grid handed over, through [rotation_matrix], plus the
    mean. *)
Lemma rotate_about_mean_at deg ny nx (p : grid) r c :
  rect ny nx (fst p) -> rect ny nx (snd p) ->
  (r < ny)%nat -> (c < nx)%nat ->
  let m0 := sum1 (ravel (fst p)) / INR (ny * nx) in
  let m1 := sum1 (ravel (snd p)) / INR (ny * nx) in
  let co := cos (deg2rad deg) in
  let si := sin (deg2rad deg) in
  at2 (fst (rotate_about_mean deg ny nx p)) r c
  = co * (at2 (fst p) r c - m0) + - si * (at2 (snd p) r c - m1) + m0
  /\ at2 (snd (rotate_about_mean deg ny nx p)) r c
     = si * (at2 (fst p) r c - m0) + co * (at2 (snd p) r c - m1) + m1.
Proof.
  intros H0 H1 Hr Hc m0 m1 co si.
  unfold rotate_about_mean, rotation_matrix. fold co si m0 m1.
  cbn [fst snd].
  pose proof (flat_index_lt ny nx r c Hr Hc) as Hk.
  pose proof (ravel_length ny nx _ H0) as L0.
  pose proof (ravel_length ny nx _ H1) as L1.
  rewrite !at2_reshape2 by assumption.
  rewrite !(map2_nth _ _ _ (r * nx + c) 0 0 0)
    by (rewrite length_map; lia).
  rewrite !(nth_map_lt _ _ (r * nx + c) 0 0) by lia.
  rewrite (nth_ravel ny nx (fst p)), (nth_ravel ny nx (snd p)) by assumption.
  split; reflexivity.
Qed.

(** *** The builder on the 2 x 2 grid, scanned at 90 degrees *)

Lemma cos_90 : cos (deg2rad 90) = 0.
Proof.
  unfold deg2rad. replace (90 * (PI / 180)) with (PI / 2) by field.
  apply cos_PI2.
Qed.

Lemma sin_90 : sin (deg2rad 90) = 1.
Proof.
  unfold deg2rad. replace (90 * (PI / 180)) with (PI / 2) by field.
  apply sin_PI2.
Qed.

(** Reduce the projections of explicit argument and model records. *)
Ltac fields :=
  cbn [assign_attributes set_probe_positions set_parameters
       arg_atoms arg_positions arg_numbers arg_scan_rotation arg_drift_speed
       arg_drift_vector arg_pixel_size arg_jitter_strength
       arg_jitter_horizontal arg_jitter_vertical arg_sigma arg_power
       arg_centre_drift arg_square arg_vacuum arg_fast
       atom_positions atom_numbers number_of_atoms pixel_size sigma power
       jitter_strength jitter_horizontal jitter_vertical drift_speed
       drift_vector centre_drift scan_rotation square margin
       probe_positions parameters].

Ltac rect_explicit :=
  split; [reflexivity|repeat constructor].

Lemma step_jitter_field :
  add_line_jitter (2%nat, 2%nat, 2%nat) (Scalar 1) true false rng_step
  = inr ((add_col (zeros2 2 2) [1 * (2 * 0 - 1); 1 * (2 * (1 / 2) - 1)],
          zeros2 2 2), mkRng (draws rng_step) 2).
Proof. rewrite add_line_jitter_run. reflexivity. Qed.

Lemma step_jitter_values :
  add_col (zeros2 2 2) [1 * (2 * 0 - 1); 1 * (2 * (1 / 2) - 1)]
  = [[-1; -1]; [0; 0]].
Proof.
  unfold add_col, zeros2, zeros1. cbn [repeat map2 map].
  repeat (f_equal; try lra).
Qed.

(** Jitter first: the jittered grid, and one pixel of its rotation. *)
Lemma scan_jittered :
  stage_jitter (two_atom_scan 1) 2 2 (meshgrid [0; 1] [0; 1]) rng_step
  = inr (([[-1; 0]; [0; 1]], [[0; 0]; [1; 1]]), mkRng (draws rng_step) 2).
Proof.
  unfold stage_jitter.
  unfold two_atom_scan, two_atom_scan_args. fields.
  cbn [truthy_strength]. rewrite truthy_R_nonzero by lra.
  unfold bind. rewrite step_jitter_field, step_jitter_values.
  unfold ret, meshgrid, add2, zeros2, zeros1.
  cbn [fst snd length repeat map map2].
  repeat (f_equal; try lra).
Qed.

Lemma two_atom_scan_axes (j : R) (g : rng) :
  grid_axes (two_atom_scan j) g = inr (([0; 1], [0; 1]), g).
Proof. apply two_atoms_axes; reflexivity. Qed.

Lemma scan_truthy_rotation (j : R) :
  truthy_R (scan_rotation (two_atom_scan j)) = true.
Proof.
  apply truthy_R_nonzero. unfold two_atom_scan, two_atom_scan_args. fields.
  lra.
Qed.

Lemma scan_code_order :
  exists P,
    create_probe_positions (two_atom_scan 1) rng_step
    = inr (set_probe_positions (two_atom_scan 1) P,
           mkRng (draws rng_step) 2)
    /\ at2 (fst P) 0 0 = 1 / 2 /\ at2 (snd P) 0 0 = - (1 / 2).
Proof.
  exists (rotate_about_mean 90 2 2
            ([[-1; 0]; [0; 1]], [[0; 0]; [1; 1]])).
  split.
  - rewrite (builder_run _ _ [0; 1] [0; 1]) by apply two_atom_scan_axes.
    cbn [length]. unfold bind at 1. rewrite scan_jittered.
    unfold stage_rotation. rewrite scan_truthy_rotation.
    unfold stage_drift.
    unfold bind. rewrite stage_recentre_no_drift by reflexivity.
    unfold two_atom_scan, two_atom_scan_args. fields.
    rewrite truthy_R_0. reflexivity.
  - destruct (rotate_about_mean_at 90 2 2
                ([[-1; 0]; [0; 1]], [[0; 0]; [1; 1]]) 0 0) as [E0 E1];
      try rect_explicit; try lia.
    rewrite E0, E1, cos_90, sin_90.
    unfold at2, ravel, sum1. cbn [fst snd concat app fold_right nth].
    change (INR (2 * 2)) with (INR 4). simpl INR.
    split; field.
Qed.

Lemma scan_rotated_mesh_at :
  let Q := rotate_about_mean 90 2 2 (meshgrid [0; 1] [0; 1]) in
  at2 (fst Q) 0 0 = 1 /\ at2 (snd Q) 0 0 = 0
  /\ rect 2 2 (fst Q) /\ rect 2 2 (snd Q).
Proof.
  intros Q.
  assert (M0 : rect 2 2 (fst (meshgrid [0; 1] [0; 1]))) by rect_explicit.
  assert (M1 : rect 2 2 (snd (meshgrid [0; 1] [0; 1]))) by rect_explicit.
  destruct (rotate_about_mean_at 90 2 2 (meshgrid [0; 1] [0; 1]) 0 0)
    as [E0 E1]; try assumption; try lia.
  destruct (rect_rotate_about_mean 90 2 2 _ M0 M1) as [R0 R1].
  unfold Q. rewrite E0, E1, cos_90, sin_90.
  unfold meshgrid, at2, ravel, sum1.
  cbn [fst snd length repeat map concat app fold_right nth].
  change (INR (2 * 2)) with (INR 4). simpl INR.
  split; [field|split; [field|split; assumption]].
Qed.

Lemma scan_truthy_drift (j : R) :
  truthy_R (drift_speed (two_atom_scan j)) = false.
Proof. apply truthy_R_0. Qed.

Lemma scan_truthy_jitter_1 :
  truthy_strength (jitter_strength (two_atom_scan 1)) = true.
Proof. apply truthy_R_nonzero. lra. Qed.

Lemma scan_truthy_jitter_0 :
  truthy_strength (jitter_strength (two_atom_scan 0)) = false.
Proof. apply truthy_R_0. Qed.

(** Without jitter the builder only rotates the mesh. *)
Lemma scan_no_jitter (g : rng) :
  create_probe_positions (two_atom_scan 0) g
  = inr (set_probe_positions (two_atom_scan 0)
           (rotate_about_mean 90 2 2 (meshgrid [0; 1] [0; 1])), g).
Proof.
  rewrite (builder_run _ _ [0; 1] [0; 1]) by apply two_atom_scan_axes.
  cbn [length]. unfold stage_jitter. rewrite scan_truthy_jitter_0.
  unfold bind, ret.
  rewrite stage_recentre_no_drift by reflexivity.
  unfold stage_drift, stage_rotation.
  rewrite scan_truthy_rotation, scan_truthy_drift. reflexivity.
Qed.

(** Rotation first: the mesh is rotated, then the jitter is added. *)
Lemma scan_rotation_first :
  exists P,
    builder_rotation_first (two_atom_scan 1) rng_step
    = inr (set_probe_positions (two_atom_scan 1) P,
           mkRng (draws rng_step) 2)
    /\ at2 (fst P) 0 0 = 0.
Proof.
  destruct scan_rotated_mesh_at as (E0 & E1 & R0 & R1).
  exists (add2 (fst (rotate_about_mean 90 2 2 (meshgrid [0; 1] [0; 1])))
               [[-1; -1]; [0; 0]],
          add2 (snd (rotate_about_mean 90 2 2 (meshgrid [0; 1] [0; 1])))
               (zeros2 2 2)).
  split.
  - unfold builder_rotation_first. unfold bind at 1.
    rewrite two_atom_scan_axes. cbn [length].
    unfold stage_rotation. rewrite scan_truthy_rotation.
    unfold stage_jitter. rewrite scan_truthy_jitter_1.
    change (add_line_jitter (2%nat, 2%nat, 2%nat)
              (jitter_strength (two_atom_scan 1))
              (jitter_horizontal (two_atom_scan 1))
              (jitter_vertical (two_atom_scan 1)))
      with (add_line_jitter (2%nat, 2%nat, 2%nat) (Scalar 1) true false).
    unfold bind. rewrite step_jitter_field, step_jitter_values.
    unfold ret at 1.
    rewrite stage_recentre_no_drift by reflexivity.
    unfold stage_drift. rewrite scan_truthy_drift. reflexivity.
  - cbn [fst]. unfold add2.
    rewrite (at2_map2 Rplus 2 2); try assumption; try lia;
      try rect_explicit.
    rewrite E0. unfold at2; simpl. lra.
Qed.

(** *** Rotation acts on the jitter too *)

Lemma sum1_app (a b : array1) : sum1 (a ++ b) = sum1 a + sum1 b.
Proof.
  unfold sum1. induction a as [|x a IH]; simpl; [lra|]. rewrite IH. lra.
Qed.

Lemma sum1_map2_plus (a b : array1) :
  length a = length b -> sum1 (map2 Rplus a b) = sum1 a + sum1 b.
Proof.
  revert b. induction a as [|x a IH]; intros [|y b] Hl; simpl in *;
    try discriminate; [lra|].
  rewrite IH by lia. lra.
Qed.

Lemma sum1_ravel_add2 ny nx (a b : array2) :
  rect ny nx a -> rect ny nx b ->
  sum1 (ravel (add2 a b)) = sum1 (ravel a) + sum1 (ravel b).
Proof.
  intros [La Fa] [Lb Fb]. subst ny. unfold ravel, add2.
  revert b Lb Fb. induction a as [|ra a IH]; intros [|rb b] Lb Fb;
    simpl in *; try discriminate; [lra|].
  inversion Fa; inversion Fb; subst.
  rewrite !sum1_app, sum1_map2_plus by congruence.
  rewrite IH by (auto; lia). lra.
Qed.

(** Rotating a jittered grid [Q + J] gives the rotated grid [Q] plus the
    jitter field [J] rotated about its own per-channel mean. *)
Lemma rotation_carries_jitter deg ny nx (Q J : grid) r c :
  rect ny nx (fst Q) -> rect ny nx (snd Q) ->
  rect ny nx (fst J) -> rect ny nx (snd J) ->
  (r < ny)%nat -> (c < nx)%nat ->
  let QJ := (add2 (fst Q) (fst J), add2 (snd Q) (snd J)) in
  let j0 := sum1 (ravel (fst J)) / INR (ny * nx) in
  let j1 := sum1 (ravel (snd J)) / INR (ny * nx) in
  let co := cos (deg2rad deg) in
  let si := sin (deg2rad deg) in
  at2 (fst (rotate_about_mean deg ny nx QJ)) r c
  = at2 (fst (rotate_about_mean deg ny nx Q)) r c
    + (co * (at2 (fst J) r c - j0) + - si * (at2 (snd J) r c - j1) + j0)
  /\ at2 (snd (rotate_about_mean deg ny nx QJ)) r c
     = at2 (snd (rotate_about_mean deg ny nx Q)) r c
       + (si * (at2 (fst J) r c - j0) + co * (at2 (snd J) r c - j1) + j1).
Proof.
  intros Q0 Q1 J0 J1 Hr Hc QJ j0 j1 co si.
  assert (S0 : rect ny nx (fst QJ)) by (apply rect_map2; assumption).
  assert (S1 : rect ny nx (snd QJ)) by (apply rect_map2; assumption).
  destruct (rotate_about_mean_at deg ny nx QJ r c S0 S1 Hr Hc) as [E0 E1].
  destruct (rotate_about_mean_at deg ny nx Q r c Q0 Q1 Hr Hc) as [F0 F1].
  rewrite E0, E1, F0, F1. unfold QJ; cbn [fst snd].
  rewrite !(sum1_ravel_add2 ny nx) by assumption.
  unfold add2. rewrite !(at2_map2 Rplus ny nx) by assumption.
  unfold j0, j1, co, si, Rdiv. split; ring.
Qed.

(** The jitter displacement that ends up in the grid is not the field
    [add_line_jitter] returned: a horizontal-only jitter moves the [y]
    coordinates once the grid is rotated. *)
Lemma jitter_displacement_is_rotated :
  exists m m0 J g1,
    init (two_atom_scan_args 1) rng_step = inr (m, g1)
    /\ init (two_atom_scan_args 0) rng_step = inr (m0, rng_step)
    /\ add_line_jitter (2%nat, 2%nat, 2%nat) (Scalar 1) true false rng_step
       = inr (J, g1)
    /\ at2 (snd J) 0 0 = 0
    /\ at2 (snd (probe_positions m)) 0 0
       - at2 (snd (probe_positions m0)) 0 0 <> at2 (snd J) 0 0
    /\ at2 (fst (probe_positions m)) 0 0
       - at2 (fst (probe_positions m0)) 0 0 <> at2 (fst J) 0 0.
Proof.
  destruct scan_code_order as (P & HP & EP0 & EP1).
  destruct scan_rotated_mesh_at as (E0 & E1 & _).
  exists (create_parameters (set_probe_positions (two_atom_scan 1) P)),
    (create_parameters
       (set_probe_positions (two_atom_scan 0)
          (rotate_about_mean 90 2 2 (meshgrid [0; 1] [0; 1])))).
  eexists. eexists.
  split.
  { rewrite (init_atoms_run _ (mkAtom (0, 0, 0) 1) [mkAtom (1, 1, 0) 2])
      by reflexivity.
    unfold bind. fold two_atoms. fold (two_atom_scan 1).
    rewrite HP. reflexivity. }
  split.
  { rewrite (init_atoms_run _ (mkAtom (0, 0, 0) 1) [mkAtom (1, 1, 0) 2])
      by reflexivity.
    unfold bind. fold two_atoms. fold (two_atom_scan 0).
    rewrite scan_no_jitter. reflexivity. }
  split; [apply step_jitter_field|].
  cbn [fst snd create_parameters set_parameters set_probe_positions
       probe_positions].
  rewrite step_jitter_values, EP0, EP1, E0, E1.
  unfold at2; simpl. repeat split; lra.
Qed.

(** C3, as the code has it.  The builder composes jitter, then rotation,
    then drift, then the optional recentring.  The rotation turns every
    sample about the per-channel mean of the grid it receives, which is
    the jittered grid, so the jitter displacements are rotated with the
    grid (about their own mean).  For some input with non-zero jitter and
    scan rotation, rotating before jittering gives another grid. *)
Theorem builder_order_is_fixed :
  (forall self g, create_probe_positions self g = builder_in_order self g)
  /\ (forall deg ny nx (p : grid) r c,
        rect ny nx (fst p) -> rect ny nx (snd p) ->
        (r < ny)%nat -> (c < nx)%nat ->
        let m0 := sum1 (ravel (fst p)) / INR (ny * nx) in
        let m1 := sum1 (ravel (snd p)) / INR (ny * nx) in
        let co := cos (deg2rad deg) in
        let si := sin (deg2rad deg) in
        at2 (fst (rotate_about_mean deg ny nx p)) r c
        = co * (at2 (fst p) r c - m0) + - si * (at2 (snd p) r c - m1) + m0
        /\ at2 (snd (rotate_about_mean deg ny nx p)) r c
           = si * (at2 (fst p) r c - m0) + co * (at2 (snd p) r c - m1) + m1)
  /\ (forall deg ny nx (Q J : grid) r c,
        rect ny nx (fst Q) -> rect ny nx (snd Q) ->
        rect ny nx (fst J) -> rect ny nx (snd J) ->
        (r < ny)%nat -> (c < nx)%nat ->
        let QJ := (add2 (fst Q) (fst J), add2 (snd Q) (snd J)) in
        let j0 := sum1 (ravel (fst J)) / INR (ny * nx) in
        let j1 := sum1 (ravel (snd J)) / INR (ny * nx) in
        let co := cos (deg2rad deg) in
        let si := sin (deg2rad deg) in
        at2 (fst (rotate_about_mean deg ny nx QJ)) r c
        = at2 (fst (rotate_about_mean deg ny nx Q)) r c
          + (co * (at2 (fst J) r c - j0) + - si * (at2 (snd J) r c - j1)
             + j0)
        /\ at2 (snd (rotate_about_mean deg ny nx QJ)) r c
           = at2 (snd (rotate_about_mean deg ny nx Q)) r c
             + (si * (at2 (fst J) r c - j0) + co * (at2 (snd J) r c - j1)
                + j1))
  /\ (exists self g,
        truthy_strength (jitter_strength self) = true
        /\ scan_rotation self <> 0
        /\ create_probe_positions self g <> builder_rotation_first self g).
Proof.
  split; [exact create_probe_positions_staged|].
  split; [exact rotate_about_mean_at|].
  split; [exact rotation_carries_jitter|].
  exists (two_atom_scan 1), rng_step.
  split; [exact scan_truthy_jitter_1|].
  split.
  - unfold two_atom_scan, two_atom_scan_args. fields. lra.
  - destruct scan_code_order as (P & HP & EP0 & _).
    destruct scan_rotation_first as (P' & HP' & EP').
    rewrite HP, HP'. intros H. inversion H as [HPP].
    rewrite HPP in EP0. rewrite EP0 in EP'. lra.
Qed.

(** *** The rotation series *)

Lemma linspace_quarter_turns : linspace_open 0 360 4 = [0; 90; 180; 270].
Proof.
  unfold linspace_open. cbn [seq map]. simpl INR.
  repeat (f_equal; try field).
Qed.

Lemma mapM_inr {A B : Type} (f : A -> M B) (l : list A) g bs g' :
  mapM f l g = inr (bs, g') ->
  Forall2 (fun a b => exists g1 g2, f a g1 = inr (b, g2)) l bs.
Proof.
  revert g bs. induction l as [|a l IH]; intros g bs H; simpl in H.
  - apply ret_inr in H. destruct H as [<- _]. constructor.
  - inv_bind H. inv_bind H. apply ret_inr in H. destruct H as [<- <-].
    constructor; [now exists g, g0|]. eapply IH; eassumption.
Qed.

Lemma stack_inr (images : list array2) g res g' :
  stack images g = inr (res, g') ->
  res = images /\ g' = g /\ images <> [].
Proof.
  unfold stack. destruct images as [|img rest]; [discriminate|].
  destruct (forallb _ rest); [|discriminate].
  intros H. apply ret_inr in H. destruct H as [<- <-].
  repeat split. discriminate.
Qed.

Lemma side_of_rect ny nx (a : array2) :
  rect ny nx a -> side_of a = Nat.min ny nx.
Proof.
  intros [L F]. unfold side_of, shape2; cbn [fst snd].
  destruct a as [|row a]; simpl in *.
  - subst ny. reflexivity.
  - inversion F; subst. reflexivity.
Qed.

Lemma In_firstn {A : Type} (x : A) (n : nat) (l : list A) :
  In x (firstn n l) -> In x l.
Proof.
  intros H. rewrite <- (firstn_skipn n l). apply in_or_app. now left.
Qed.

Lemma rect_crop ny nx (a : array2) :
  rect ny nx a ->
  rect (Nat.min ny nx) (Nat.min ny nx) (crop (Nat.min ny nx) a).
Proof.
  intros [L F]. unfold crop. split.
  - rewrite length_map, length_firstn. lia.
  - apply Forall_forall. intros row Hin. apply in_map_iff in Hin.
    destruct Hin as (row' & <- & Hin').
    apply In_firstn in Hin'. rewrite Forall_forall in F.
    rewrite length_firstn, (F row' Hin'). lia.
Qed.

Lemma grid_axes_axes_of (self : ImageModel) g axes g' :
  grid_axes self g = inr (axes, g') -> axes = axes_of self.
Proof.
  unfold axes_of, grid_axes, bind, min0, max0, raise, ret, lift, arange.
  destruct (atom_positions self); [discriminate|].
  destruct (Req_dec_T (pixel_size self) 0); [discriminate|].
  intros H. now inversion H.
Qed.

(** Every model of a series has a grid of the shape of [series_axes]. *)
Lemma series_model_shape atoms vacuum px ds dv js kw angle g m g' :
  init (series_args atoms vacuum px ds dv js kw angle) g = inr (m, g') ->
  rect (length (snd (series_axes atoms vacuum px kw)))
       (length (fst (series_axes atoms vacuum px kw))) (generate m).
Proof.
  intros H.
  destruct (init_inr _ _ _ _ H)
    as (at_ & ats & pos & nums & self1 & Ha & _ & Hf & Hb & ->).
  cbn [series_args arg_atoms] in Ha. inversion Ha; subst atoms.
  destruct (Hf eq_refl) as [-> ->].
  destruct (builder_shape _ _ _ _ Hb) as (xr & yr & p & Hax & -> & R0 & R1).
  apply grid_axes_axes_of in Hax.
  assert (E : (xr, yr) = series_axes (at_ :: ats) vacuum px kw)
    by (rewrite Hax; reflexivity).
  rewrite <- E. cbn [fst snd].
  apply generate_rect_any; assumption.
Qed.

(** The builder succeeds whenever the atom set is not empty and either
    there is no drift or the grid has at least one pixel. *)
Lemma builder_succeeds (self : ImageModel) (g : rng) (xr yr : array1) :
  grid_axes self g = inr ((xr, yr), g) ->
  drift_speed self = 0 \/ (xr <> [] /\ yr <> []) ->
  exists p g', create_probe_positions self g
               = inr (set_probe_positions self p, g').
Proof.
  intros Hax Hcond.
  destruct (rect_meshgrid xr yr) as [M0 M1].
  destruct (stage_jitter_run self (length yr) (length xr)
              (meshgrid xr yr) g M0 M1) as (p1 & g1 & Hj & _).
  rewrite (builder_run self g xr yr Hax).
  unfold bind at 1. rewrite Hj.
  destruct (truthy_R (drift_speed self) && centre_drift self) eqn:Hb.
  - destruct Hcond as [H0|[Hx Hy]].
    + rewrite H0, truthy_R_0 in Hb. discriminate.
    + destruct (nonempty_product _ _ xr yr Hx Hy) as [n HN].
      destruct (signed_extreme_drift (length yr) (length xr)
                  (fst (drift_vector self)) (drift_speed self) n g1 HN)
        as (ox & Hox & _).
      destruct (signed_extreme_drift (length yr) (length xr)
                  (snd (drift_vector self)) (drift_speed self) n g1 HN)
        as (oy & Hoy & _).
      unfold stage_recentre. rewrite Hb, add_drift_by_index.
      cbn [fst snd]. unfold bind. rewrite Hox, Hoy.
      eexists. eexists. reflexivity.
  - unfold stage_recentre. rewrite Hb. unfold bind, ret.
    eexists. eexists. reflexivity.
Qed.

Lemma series_init_succeeds at_ ats vacuum px ds dv js kw angle g :
  px <> 0 ->
  ds = 0 \/ (fst (series_axes (at_ :: ats) vacuum px kw) <> []
             /\ snd (series_axes (at_ :: ats) vacuum px kw) <> []) ->
  exists m g',
    init (series_args (at_ :: ats) vacuum px ds dv js kw angle) g
    = inr (m, g').
Proof.
  intros Hpx Hcond.
  rewrite (init_atoms_run _ at_ ats g) by reflexivity.
  set (self := assign_attributes
                 (series_args (at_ :: ats) vacuum px ds dv js kw angle)
                 (atoms_xy (at_ :: ats)) (atoms_numbers (at_ :: ats))).
  destruct (grid_axes_total self g) as (xr & yr & Hax);
    [discriminate|exact Hpx|].
  assert (E : (xr, yr) = series_axes (at_ :: ats) vacuum px kw).
  { rewrite (grid_axes_axes_of _ _ _ _ Hax). reflexivity. }
  rewrite <- E in Hcond. cbn [fst snd] in Hcond.
  destruct (builder_succeeds self g xr yr Hax Hcond) as (p & g' & Hb).
  unfold bind. rewrite Hb. eexists. eexists. reflexivity.
Qed.

Lemma mapM_total {A B : Type} (f : A -> M B) (P : B -> Prop) (l : list A) :
  (forall a g, exists b g', f a g = inr (b, g') /\ P b) ->
  forall g, exists bs g',
    mapM f l g = inr (bs, g') /\ Forall P bs /\ length bs = length l.
Proof.
  intros Hf. induction l as [|a l IH]; intros g.
  - exists [], g. repeat split. constructor.
  - destruct (Hf a g) as (b & g1 & Hb & HP).
    destruct (IH g1) as (bs & g2 & Hbs & HF & HL).
    exists (b :: bs), g2. simpl. unfold bind. rewrite Hb, Hbs.
    repeat split; [now constructor|simpl; lia].
Qed.

Lemma shape2_square (s : nat) (a : array2) :
  rect s s a -> shape2 a = (s, s).
Proof.
  intros [L F]. unfold shape2. destruct a as [|row a]; simpl in *.
  - now subst.
  - inversion F; subst. now rewrite H1.
Qed.

Lemma stack_square (s : nat) (images : list array2) g :
  images <> [] -> Forall (rect s s) images ->
  stack images g = inr (images, g).
Proof.
  intros Hne HF. unfold stack.
  destruct images as [|img rest]; [contradiction|].
  inversion HF as [|? ? Himg Hrest]; subst.
  assert (Hall : forallb (fun i => shape_eqb (shape2 i) (shape2 img)) rest
                 = true).
  { apply forallb_forall. intros i Hi.
    rewrite Forall_forall in Hrest.
    rewrite (shape2_square s i (Hrest i Hi)), (shape2_square s img Himg).
    unfold shape_eqb; cbn [fst snd]. now rewrite Nat.eqb_refl. }
  rewrite Hall. reflexivity.
Qed.

Lemma series_image_inr atoms vacuum px ds dv js kw angle g img g' :
  series_image atoms vacuum px ds dv js kw angle g = inr (img, g') ->
  exists m,
    init (series_args atoms vacuum px ds dv js kw angle) g = inr (m, g')
    /\ img = crop (side_of (generate m)) (generate m).
Proof.
  unfold series_image. intros H. inv_bind H.
  apply ret_inr in H. destruct H as [<- <-]. now exists v.
Qed.

Lemma series_inr atoms vacuum px n lo hi ds da js kw g images angles ra g' :
  get_rotation_series (Some atoms) vacuum px n lo hi ds da js kw g
  = inr ((images, angles, ra), g') ->
  ra = match da with
       | None => draws g (used g) * 2 * PI
       | Some d => d
       end
  /\ angles = linspace_open lo hi n
  /\ images <> []
  /\ mapM (series_image atoms vacuum px ds (cos ra, sin ra) js kw) angles
          (match da with
           | None => mkRng (draws g) (S (used g))
           | Some _ => g
           end)
     = inr (images, g').
Proof.
  unfold get_rotation_series. intros H.
  inv_bind H. apply ret_inr in Hrun. destruct Hrun as [<- <-].
  inv_bind H.
  assert (Hra : v = match da with
                    | None => draws g (used g) * 2 * PI
                    | Some d => d
                    end
                /\ g0 = match da with
                        | None => mkRng (draws g) (S (used g))
                        | Some _ => g
                        end).
  { destruct da as [d|].
    - apply ret_inr in Hrun. destruct Hrun as [<- <-]. split; reflexivity.
    - unfold bind, random_one, ret in Hrun. inversion Hrun.
      split; reflexivity. }
  destruct Hra as [Hv Hg0]. clear Hrun.
  cbv zeta in H. inv_bind H. inv_bind H.
  apply stack_inr in Hrun0. destruct Hrun0 as (-> & -> & Hne).
  apply ret_inr in H. destruct H as [H <-]. inversion H; subst images angles ra.
  rewrite <- Hg0. repeat split; auto.
Qed.

Lemma Forall2_length_eq {A B : Type} (R : A -> B -> Prop) l l' :
  Forall2 R l l' -> length l = length l'.
Proof. induction 1; simpl; congruence. Qed.

Lemma min_side_uniform (s : nat) (raws : list array2) :
  raws <> [] -> Forall (fun raw => side_of raw = s) raws ->
  min_side raws = s.
Proof.
  intros Hne HF. destruct raws as [|r rest]; [contradiction|].
  inversion HF as [|? ? Hr Hrest]; subst. unfold min_side.
  induction rest as [|x rest IH]; simpl; [reflexivity|].
  inversion Hrest as [|? ? Hx Hrest']; subst.
  rewrite IH by (try constructor; auto; discriminate).
  rewrite Hx. apply Nat.min_id.
Qed.

(** The untrimmed images of a series, one per scan angle. *)
Lemma series_raws atoms vacuum px ds dv js kw angles images :
  Forall2 (fun angle img =>
             exists g1 g2,
               series_image atoms vacuum px ds dv js kw angle g1
               = inr (img, g2)) angles images ->
  exists raws,
    Forall2 (fun angle raw =>
               exists g1 g2 m,
                 init (series_args atoms vacuum px ds dv js kw angle) g1
                 = inr (m, g2) /\ raw = generate m) angles raws
    /\ images = map (fun raw => crop (side_of raw) raw) raws.
Proof.
  induction 1 as [|angle img angles images (g1 & g2 & Himg) _ (raws & HF & E)].
  - exists []. split; [constructor|reflexivity].
  - apply series_image_inr in Himg. destruct Himg as (m & Hm & ->).
    exists (generate m :: raws). split.
    + constructor; [now exists g1, g2, m|assumption].
    + simpl. now rewrite E.
Qed.

Lemma series_image_succeeds at_ ats vacuum px ds dv js kw angle g :
  px <> 0 ->
  ds = 0 \/ (fst (series_axes (at_ :: ats) vacuum px kw) <> []
             /\ snd (series_axes (at_ :: ats) vacuum px kw) <> []) ->
  let s := Nat.min (length (snd (series_axes (at_ :: ats) vacuum px kw)))
                   (length (fst (series_axes (at_ :: ats) vacuum px kw))) in
  exists img g',
    series_image (at_ :: ats) vacuum px ds dv js kw angle g = inr (img, g')
    /\ rect s s img.
Proof.
  intros Hpx Hcond s.
  destruct (series_init_succeeds at_ ats vacuum px ds dv js kw angle g
              Hpx Hcond) as (m & g' & Hm).
  pose proof (series_model_shape _ _ _ _ _ _ _ _ _ _ _ Hm) as Hrect.
  exists (crop (side_of (generate m)) (generate m)), g'.
  split.
  - unfold series_image, bind. rewrite Hm. reflexivity.
  - rewrite (side_of_rect _ _ _ Hrect). now apply rect_crop.
Qed.

(** C6.  Four images over [0, 360) are taken at the scan angles 0, 90, 180
    and 270.  A series that returns used the angles of the open linear
    spacing; its drift angle is the one given, else one draw of the
    generator (times 2 pi) taken before the first image, and every image
    is built with the drift vector of that one angle; the untrimmed
    images all have the shape (rows, columns) of the series' axis ranges,
    and each is trimmed to the side min(rows, columns), which is the
    minimum over all images of min(height, width), so the stack has shape
    (n, side, side).  And a
    series over a non-empty atom set with at least one image and a
    non-zero pixel size does return when there is no drift or the grid has
    a pixel. *)
Theorem rotation_series_angles_and_shape :
  linspace_open 0 360 4 = [0; 90; 180; 270]
  /\ (forall atoms vacuum px n lo hi ds da js kw g images angles ra g',
        get_rotation_series (Some atoms) vacuum px n lo hi ds da js kw g
        = inr ((images, angles, ra), g') ->
        angles = linspace_open lo hi n
        /\ ra = match da with
                | None => draws g (used g) * 2 * PI
                | Some d => d
                end
        /\ exists raws side,
             Forall2 (fun angle raw =>
                        exists g1 g2 m,
                          init (series_args atoms vacuum px ds
                                  (cos ra, sin ra) js kw angle) g1
                          = inr (m, g2) /\ raw = generate m) angles raws
             /\ side = min_side raws
             /\ images = map (crop side) raws
             /\ length images = n
             /\ Forall (rect side side) images
             /\ Forall (rect (length (snd (series_axes atoms vacuum px kw)))
                             (length (fst (series_axes atoms vacuum px kw))))
                       raws
             /\ side = Nat.min
                         (length (snd (series_axes atoms vacuum px kw)))
                         (length (fst (series_axes atoms vacuum px kw))))
  /\ (forall at_ ats vacuum px n lo hi ds da js kw g,
        n <> 0%nat -> px <> 0 ->
        ds = 0 \/ (fst (series_axes (at_ :: ats) vacuum px kw) <> []
                   /\ snd (series_axes (at_ :: ats) vacuum px kw) <> []) ->
        exists images angles ra g',
          get_rotation_series (Some (at_ :: ats)) vacuum px n lo hi ds da js
                              kw g
          = inr ((images, angles, ra), g')).
Proof.
  split; [exact linspace_quarter_turns|]. split.
  - intros atoms vacuum px n lo hi ds da js kw g images angles ra g' H.
    apply series_inr in H. destruct H as (Hra & Hang & Hne & Hmap).
    split; [exact Hang|]. split; [exact Hra|].
    apply mapM_inr in Hmap. apply series_raws in Hmap.
    destruct Hmap as (raws & HF & Eimg).
    set (s := Nat.min (length (snd (series_axes atoms vacuum px kw)))
                      (length (fst (series_axes atoms vacuum px kw)))).
    assert (Hrect : Forall (fun raw =>
              rect (length (snd (series_axes atoms vacuum px kw)))
                   (length (fst (series_axes atoms vacuum px kw))) raw) raws).
    { clear Eimg Hne Hang.
      induction HF as [|angle raw angs rws Hex HF' IH]; constructor;
        [|assumption].
      destruct Hex as (g1 & g2 & m & Hm & ->).
      eapply series_model_shape; eassumption. }
    assert (Hside : Forall (fun raw => side_of raw = s) raws).
    { eapply Forall_impl; [|exact Hrect].
      intros raw Hr. now apply side_of_rect. }
    assert (Hraws : raws <> []) by (intros ->; now apply Hne).
    assert (Himg : images = map (crop s) raws).
    { rewrite Eimg. apply map_ext_in. intros raw Hin.
      rewrite Forall_forall in Hside. now rewrite (Hside raw Hin). }
    exists raws, s. split; [exact HF|].
    split; [symmetry; now apply min_side_uniform|].
    split; [exact Himg|].
    split; [|split; [|split; [exact Hrect|reflexivity]]].
    + rewrite Himg, length_map, <- (Forall2_length_eq _ _ _ HF), Hang.
      unfold linspace_open. now rewrite length_map, length_seq.
    + rewrite Himg. apply Forall_forall. intros img Hin.
      apply in_map_iff in Hin. destruct Hin as (raw & <- & Hin).
      rewrite Forall_forall in Hrect. apply rect_crop. now apply Hrect.
  - intros at_ ats vacuum px n lo hi ds da js kw g Hn Hpx Hcond.
    unfold get_rotation_series.
    unfold bind at 1. unfold ret at 1.
    set (ra := match da with
               | None => draws g (used g) * 2 * PI
               | Some d => d
               end).
    set (g1 := match da with
               | None => mkRng (draws g) (S (used g))
               | Some _ => g
               end).
    assert (Hra : (match da with
                   | None => bind random_one (fun u => ret (u * 2 * PI))
                   | Some d => ret d
                   end) g = inr (ra, g1))
      by (unfold ra, g1; destruct da; reflexivity).
    unfold bind at 1. rewrite Hra. cbv zeta.
    destruct (mapM_total
                (series_image (at_ :: ats) vacuum px ds (cos ra, sin ra)
                              js kw)
                (rect (Nat.min
                         (length (snd (series_axes (at_ :: ats) vacuum px kw)))
                         (length (fst (series_axes (at_ :: ats) vacuum px kw))))
                      (Nat.min
                         (length (snd (series_axes (at_ :: ats) vacuum px kw)))
                         (length (fst (series_axes (at_ :: ats) vacuum px kw)))))
                (linspace_open lo hi n)
                (fun a g0 => series_image_succeeds at_ ats vacuum px ds
                               (cos ra, sin ra) js kw a g0 Hpx Hcond) g1)
      as (imgs & g2 & Hm & HF & HL).
    unfold bind at 1. rewrite Hm.
    assert (Hne : imgs <> []).
    { intros ->. simpl in HL. unfold linspace_open in HL.
      rewrite length_map, length_seq in HL. lia. }
    unfold bind. rewrite (stack_square _ imgs g2 Hne HF).
    eexists. eexists. eexists. eexists. reflexivity.
Qed.

Lemma series_axes_two_atoms :
  series_axes two_atoms 0 1 default_kwargs = ([0; 1], [0; 1]).
Proof.
  unfold series_axes. symmetry.
  apply (grid_axes_axes_of _ rng0 _ rng0).
  apply two_atoms_axes; reflexivity.
Qed.

Lemma rotation_series_angles_and_shape_witness :
  exists images ra g' raws side,
    get_rotation_series (Some two_atoms) 0 1 4 0 360 5 None (Scalar 0)
                        default_kwargs rng0
    = inr ((images, [0; 90; 180; 270], ra), g')
    /\ ra = draws rng0 (used rng0) * 2 * PI
    /\ side = min_side raws
    /\ images = map (crop side) raws
    /\ length images = 4%nat
    /\ Forall (rect side side) images
    /\ Forall (rect 2 2) raws
    /\ side = 2%nat.
Proof.
  destruct rotation_series_angles_and_shape as (Hlin & Hspec & Htotal).
  destruct (Htotal (mkAtom (0, 0, 0) 1) [mkAtom (1, 1, 0) 2] 0 1 4%nat
              0 360 5 None (Scalar 0) default_kwargs rng0)
    as (images & angles & ra & g' & Hrun).
  - discriminate.
  - lra.
  - right. fold two_atoms. rewrite series_axes_two_atoms.
    split; discriminate.
  - destruct (Hspec _ _ _ _ _ _ _ _ _ _ _ _ _ _ _ Hrun)
      as (Hang & Hra & raws & side & _ & Hs & Himg & Hlen & Hrect
          & Hraw & Hside).
    pose proof series_axes_two_atoms as Eax. unfold two_atoms in Eax.
    rewrite Eax in Hraw, Hside. cbn [fst snd length Nat.min] in Hraw, Hside.
    rewrite Hlin in Hang. subst angles.
    exists images, ra, g', raws, side.
    split; [exact Hrun|]. split; [exact Hra|]. split; [exact Hs|].
    split; [exact Himg|]. split; [exact Hlen|]. split; [exact Hrect|].
    split; [exact Hraw|exact Hside].
Defined.

(* ===================================================================== *)
(** ** Further properties of the module's functions *)
(* ===================================================================== *)

(** *** rotation_matrix *)

Lemma sin2_cos2_mult (x : R) : cos x * cos x + sin x * sin x = 1.
Proof. pose proof (sin2_cos2 x) as H. unfold Rsqr in H. lra. Qed.

Lemma deg2rad_plus (a b : R) : deg2rad (a + b) = deg2rad a + deg2rad b.
Proof. unfold deg2rad. lra. Qed.

Lemma deg2rad_opp (a : R) : deg2rad (- a) = - deg2rad a.
Proof. unfold deg2rad. lra. Qed.

Lemma deg2rad_360 : deg2rad 360 = 2 * PI.
Proof. unfold deg2rad. field. Qed.

Lemma pair_eq4 (a b c d a' b' c' d' : R) :
  a = a' -> b = b' -> c = c' -> d = d' ->
  ((a, b), (c, d)) = ((a', b'), (c', d')).
Proof. now intros -> -> -> ->. Qed.

(** X1.  [rotation_matrix] returns an orthonormal matrix of determinant 1,
    whichever way is positive: multiplied by its transpose it gives the
    identity. *)
Theorem rotation_matrix_orthonormal (deg : R) (clockwise_positive : bool) :
  let m := rotation_matrix deg clockwise_positive in
  matmul2 m (transpose_mat2 m) = identity2
  /\ matmul2 (transpose_mat2 m) m = identity2
  /\ fst (fst m) * snd (snd m) - snd (fst m) * fst (snd m) = 1.
Proof.
  pose proof (sin2_cos2_mult (deg2rad deg)) as H.
  unfold rotation_matrix, identity2.
  destruct clockwise_positive; cbn [matmul2 transpose_mat2 fst snd];
    (split; [|split]); try (apply pair_eq4); lra.
Qed.

(** X2.  With [clockwise_positive] the matrix is the counter-clockwise one
    of the opposite angle, and the two matrices of one angle undo each
    other; the angle 0 gives the identity either way. *)
Theorem rotation_matrix_clockwise_is_inverse (deg : R) :
  rotation_matrix deg true = rotation_matrix (- deg) false
  /\ matmul2 (rotation_matrix deg true) (rotation_matrix deg false)
     = identity2
  /\ matmul2 (rotation_matrix deg false) (rotation_matrix deg true)
     = identity2
  /\ rotation_matrix 0 false = identity2
  /\ rotation_matrix 0 true = identity2.
Proof.
  pose proof (sin2_cos2_mult (deg2rad deg)) as H.
  assert (H0 : deg2rad 0 = 0) by (unfold deg2rad; lra).
  unfold rotation_matrix, identity2.
  rewrite deg2rad_opp, cos_neg, sin_neg, H0, cos_0, sin_0.
  cbn [matmul2].
  repeat split; apply pair_eq4; lra.
Qed.

(** X3.  Rotations compose by adding their angles, and the matrix is
    periodic in the angle with period 360 degrees. *)
Theorem rotation_matrix_composes (a b : R) (clockwise_positive : bool) :
  matmul2 (rotation_matrix a clockwise_positive)
          (rotation_matrix b clockwise_positive)
  = rotation_matrix (a + b) clockwise_positive
  /\ rotation_matrix (a + 360) clockwise_positive
     = rotation_matrix a clockwise_positive.
Proof.
  unfold rotation_matrix.
  rewrite !deg2rad_plus, deg2rad_360, !cos_plus, !sin_plus,
    cos_2PI, sin_2PI.
  destruct clockwise_positive; cbn [matmul2];
    split; apply pair_eq4; lra.
Qed.

(** *** drift_points and drift_pointsYX *)

Lemma nth_concat_blocks {A : Type} (f : nat -> nat -> A) (m n j i : nat)
    (d : A) :
  (j < m)%nat -> (i < n)%nat ->
  nth (j * n + i)
      (concat (map (fun j => map (f j) (seq 0 n)) (seq 0 m))) d
  = f j i.
Proof.
  intros Hj Hi. induction m as [|m IH]; [lia|].
  assert (Hlen : length (concat (map (fun j => map (f j) (seq 0 n))
                                     (seq 0 m))) = (m * n)%nat).
  { clear. induction m as [|m IH]; [reflexivity|].
    rewrite seq_S, map_app, concat_app, length_app, IH. simpl.
    rewrite length_app, length_map, length_seq. simpl. lia. }
  rewrite seq_S, map_app, concat_app. simpl.
  destruct (Nat.eq_dec j m) as [->|Hne].
  - rewrite app_nth2 by (rewrite Hlen; lia).
    rewrite Hlen, app_nil_r.
    replace (m * n + i - m * n)%nat with i by lia.
    now apply nth_map_seq.
  - rewrite app_nth1 by (rewrite Hlen; nia).
    apply IH. lia.
Qed.

Lemma length_concat_blocks {A : Type} (f : nat -> nat -> A) (m n : nat) :
  length (concat (map (fun j => map (f j) (seq 0 n)) (seq 0 m)))
  = (m * n)%nat.
Proof.
  induction m as [|m IH]; [reflexivity|].
  rewrite seq_S, map_app, concat_app, length_app, IH. simpl.
  rewrite length_app, length_map, length_seq. simpl. lia.
Qed.

(** The inner loop of [drift_pointsYX], started after [k0] pixels. *)
Lemma drift_pointsYX_row (dv : R * R) (yi n s k0 : nat) (l : list (R * R)) :
  fold_left (drift_pointsYX_body dv yi) (seq s n)
            ((INR k0 * fst dv, INR k0 * snd dv), l)
  = ((INR (k0 + n) * fst dv, INR (k0 + n) * snd dv),
     l ++ map (fun i => drifted_pixel dv (s + i) yi (k0 + i)) (seq 0 n)).
Proof.
  revert s k0 l. induction n as [|n IH]; intros s k0 l.
  - simpl. now rewrite Nat.add_0_r, app_nil_r.
  - cbn [seq fold_left]. unfold drift_pointsYX_body at 2. cbn [fst snd].
    replace (INR k0 * fst dv + fst dv) with (INR (S k0) * fst dv)
      by (rewrite S_INR; ring).
    replace (INR k0 * snd dv + snd dv) with (INR (S k0) * snd dv)
      by (rewrite S_INR; ring).
    rewrite IH. rewrite <- app_assoc. cbn [app map].
    rewrite <- seq_shift, map_map.
    replace (S k0 + n)%nat with (k0 + S n)%nat by lia.
    f_equal. f_equal. f_equal.
    + unfold drifted_pixel. now rewrite !Nat.add_0_r.
    + apply map_ext. intros i.
      now rewrite !Nat.add_succ_r.
Qed.

Lemma drift_pointsYX_rows (dv : R * R) (lenX m t k0 : nat)
    (l : list (R * R)) :
  fold_left (fun st yi =>
               fold_left (drift_pointsYX_body dv yi) (seq 0 lenX) st)
            (seq t m) ((INR k0 * fst dv, INR k0 * snd dv), l)
  = ((INR (k0 + m * lenX) * fst dv, INR (k0 + m * lenX) * snd dv),
     l ++ concat (map (fun j => map (fun i =>
                         drifted_pixel dv i (t + j) (k0 + j * lenX + i))
                       (seq 0 lenX)) (seq 0 m))).
Proof.
  revert t k0 l. induction m as [|m IH]; intros t k0 l.
  - simpl. now rewrite Nat.add_0_r, app_nil_r.
  - cbn [seq fold_left]. rewrite drift_pointsYX_row, IH.
    rewrite <- app_assoc. cbn [map concat].
    rewrite <- seq_shift, map_map.
    replace (k0 + lenX + m * lenX)%nat with (k0 + S m * lenX)%nat
      by (simpl; lia).
    f_equal. f_equal. f_equal.
    + apply map_ext. intros i. now rewrite !Nat.add_0_r.
    + f_equal. apply map_ext. intros j. apply map_ext. intros i.
      rewrite Nat.add_succ_r. f_equal. simpl. lia.
Qed.

Lemma drift_pointsYX_closed (lenY lenX : nat) (angle speed : R) :
  drift_pointsYX (lenY, lenX) angle speed
  = concat (map (fun yi => map (fun xi =>
              drifted_pixel (drift_step angle speed) xi yi (yi * lenX + xi))
              (seq 0 lenX)) (seq 0 lenY)).
Proof.
  unfold drift_pointsYX.
  set (dv := drift_step angle speed).
  replace ((0, 0) : R * R) with (INR 0 * fst dv, INR 0 * snd dv)
    by (simpl; f_equal; ring).
  rewrite drift_pointsYX_rows. reflexivity.
Qed.

Lemma set_nth_length {A : Type} (n : nat) (v : A) (l : list A) :
  length (set_nth n v l) = length l.
Proof.
  revert n. induction l as [|x l IH]; intros [|n]; simpl; auto.
Qed.

Lemma nth_set_nth_eq {A : Type} (n : nat) (v d : A) (l : list A) :
  (n < length l)%nat -> nth n (set_nth n v l) d = v.
Proof.
  revert n. induction l as [|x l IH]; intros [|n] H; simpl in *;
    try lia; auto. apply IH. lia.
Qed.

Lemma nth_set_nth_neq {A : Type} (n m : nat) (v d : A) (l : list A) :
  n <> m -> nth m (set_nth n v l) d = nth m l d.
Proof.
  revert n m. induction l as [|x l IH]; intros [|n] [|m] H; simpl;
    try reflexivity; try contradiction. apply IH. lia.
Qed.

(** An array of [lenX] rows of [lenY] entries. *)
Lemma set2_shape {A : Type} (lenX lenY i j : nat) (v : A)
    (a : list (list A)) :
  length a = lenX ->
  (forall i', (i' < lenX)%nat -> length (nth i' a []) = lenY) ->
  length (set2 i j v a) = lenX
  /\ forall i', (i' < lenX)%nat -> length (nth i' (set2 i j v a) []) = lenY.
Proof.
  intros La Lr. unfold set2. split.
  - now rewrite set_nth_length.
  - intros i' Hi'. destruct (Nat.eq_dec i i') as [->|Hne].
    + rewrite nth_set_nth_eq by lia. rewrite set_nth_length. now apply Lr.
    + rewrite nth_set_nth_neq by assumption. now apply Lr.
Qed.

Lemma get_set2 {A : Type} (lenX lenY i j i' j' : nat) (v d : A)
    (a : list (list A)) :
  length a = lenX ->
  (forall k, (k < lenX)%nat -> length (nth k a []) = lenY) ->
  (i < lenX)%nat -> (j < lenY)%nat ->
  nth j' (nth i' (set2 i j v a) []) d
  = if (Nat.eqb i' i && Nat.eqb j' j)%bool
    then v
    else nth j' (nth i' a []) d.
Proof.
  intros La Lr Hi Hj. unfold set2.
  destruct (Nat.eqb_spec i' i) as [->|Hne]; cbn [andb].
  - rewrite nth_set_nth_eq by lia.
    destruct (Nat.eqb_spec j' j) as [->|Hne].
    + apply nth_set_nth_eq. rewrite Lr; lia.
    + apply nth_set_nth_neq. auto.
  - rewrite nth_set_nth_neq by auto. reflexivity.
Qed.

(** The inner loop of [drift_points] over the pixels [s, ..., s + n - 1] of
    the scanline [yi], started after [k0] pixels. *)
Lemma drift_points_row (dv : R * R) (lenX lenY yi : nat) :
  (yi < lenY)%nat ->
  forall (n s k0 : nat) (arr : list (list (R * R))),
    (s + n <= lenX)%nat ->
    length arr = lenX ->
    (forall i, (i < lenX)%nat -> length (nth i arr []) = lenY) ->
    forall st,
    st = fold_left (drift_points_body dv yi) (seq s n)
           ((INR k0 * fst dv, INR k0 * snd dv), arr) ->
    fst st = (INR (k0 + n) * fst dv, INR (k0 + n) * snd dv)
    /\ length (snd st) = lenX
    /\ (forall i, (i < lenX)%nat -> length (nth i (snd st) []) = lenY)
    /\ forall i j,
         nth j (nth i (snd st) []) (0, 0)
         = if (Nat.eqb j yi && Nat.leb s i && Nat.ltb i (s + n))%bool
           then drifted_pixel dv i yi (k0 + (i - s))
           else nth j (nth i arr []) (0, 0).
Proof.
  intros Hyi. induction n as [|n IH]; intros s k0 arr Hs La Lr st ->.
  - cbn [seq fold_left fst snd]. rewrite !Nat.add_0_r.
    split; [reflexivity|split; [exact La|split; [exact Lr|]]].
    intros i j.
    destruct (Nat.eqb j yi && Nat.leb s i)%bool eqn:E; cbn [andb];
      [|reflexivity].
    apply andb_prop in E. destruct E as [_ E]. apply Nat.leb_le in E.
    assert (Hlt : Nat.ltb i s = false) by (apply Nat.ltb_ge; lia).
    now rewrite Hlt.
  - cbn [seq fold_left].
    set (p := (INR s - INR (S k0) * fst dv, INR yi - INR (S k0) * snd dv)).
    assert (Hstep :
      drift_points_body dv yi ((INR k0 * fst dv, INR k0 * snd dv), arr) s
      = ((INR (S k0) * fst dv, INR (S k0) * snd dv), set2 s yi p arr)).
    { unfold drift_points_body, p. cbn [fst snd]. rewrite S_INR.
      replace (INR k0 * fst dv + fst dv) with ((INR k0 + 1) * fst dv)
        by ring.
      replace (INR k0 * snd dv + snd dv) with ((INR k0 + 1) * snd dv)
        by ring.
      reflexivity. }
    rewrite Hstep.
    destruct (set2_shape lenX lenY s yi p arr La Lr) as [La1 Lr1].
    destruct (IH (S s) (S k0) (set2 s yi p arr) ltac:(lia) La1 Lr1
                 _ eq_refl) as (Hd & La' & Lr' & Hget).
    replace (S k0 + n)%nat with (k0 + S n)%nat in Hd by lia.
    split; [exact Hd|split; [exact La'|split; [exact Lr'|]]].
    intros i j. rewrite Hget.
    rewrite (get_set2 lenX lenY s yi i j p (0, 0) arr La Lr) by lia.
    replace (S s + n)%nat with (s + S n)%nat by lia.
    destruct (Nat.eqb_spec j yi) as [->|Hj]; cbn [andb];
      [|now rewrite andb_false_r].
    rewrite andb_true_r.
    destruct (Nat.eqb_spec i s) as [->|Hi].
    + assert (E1 : Nat.leb (S s) s = false) by (apply Nat.leb_gt; lia).
      assert (E2 : Nat.leb s s = true) by (apply Nat.leb_le; lia).
      assert (E3 : Nat.ltb s (s + S n) = true) by (apply Nat.ltb_lt; lia).
      rewrite E1, E2, E3. cbn [andb].
      unfold p, drifted_pixel. now rewrite Nat.sub_diag, Nat.add_0_r.
    + destruct (Nat.leb (S s) i) eqn:E1.
      * apply Nat.leb_le in E1.
        assert (E2 : Nat.leb s i = true) by (apply Nat.leb_le; lia).
        rewrite E2. cbn [andb].
        destruct (Nat.ltb i (s + S n)); [|reflexivity].
        f_equal. lia.
      * apply Nat.leb_gt in E1.
        assert (E2 : Nat.leb s i = false) by (apply Nat.leb_gt; lia).
        rewrite E2. reflexivity.
Qed.

(** The outer loop of [drift_points] over the scanlines [t, ..., t + m - 1],
    started after [k0] pixels. *)
Lemma drift_points_rows (dv : R * R) (lenX lenY : nat) :
  forall (m t k0 : nat) (arr : list (list (R * R))),
    (t + m <= lenY)%nat ->
    length arr = lenX ->
    (forall i, (i < lenX)%nat -> length (nth i arr []) = lenY) ->
    forall st,
    st = fold_left
           (fun st yi =>
              fold_left (drift_points_body dv yi) (seq 0 lenX) st)
           (seq t m) ((INR k0 * fst dv, INR k0 * snd dv), arr) ->
    length (snd st) = lenX
    /\ (forall i, (i < lenX)%nat -> length (nth i (snd st) []) = lenY)
    /\ forall i j,
         nth j (nth i (snd st) []) (0, 0)
         = if (Nat.ltb i lenX && Nat.leb t j && Nat.ltb j (t + m))%bool
           then drifted_pixel dv i j (k0 + (j - t) * lenX + i)
           else nth j (nth i arr []) (0, 0).
Proof.
  induction m as [|m IH]; intros t k0 arr Ht La Lr st ->.
  - cbn [seq fold_left snd]. rewrite Nat.add_0_r.
    split; [exact La|split; [exact Lr|]].
    intros i j.
    destruct (Nat.ltb i lenX && Nat.leb t j)%bool eqn:E; cbn [andb];
      [|reflexivity].
    apply andb_prop in E. destruct E as [_ E]. apply Nat.leb_le in E.
    assert (Hlt : Nat.ltb j t = false) by (apply Nat.ltb_ge; lia).
    now rewrite Hlt.
  - cbn [seq fold_left].
    destruct (drift_points_row dv lenX lenY t ltac:(lia) lenX 0 k0 arr
                ltac:(lia) La Lr _ eq_refl) as (Hd & La1 & Lr1 & Hget1).
    set (st1 := fold_left (drift_points_body dv t) (seq 0 lenX)
                  ((INR k0 * fst dv, INR k0 * snd dv), arr)) in *.
    assert (Est1 : st1 = ((INR (k0 + lenX) * fst dv,
                           INR (k0 + lenX) * snd dv), snd st1))
      by (rewrite <- Hd; now destruct st1).
    rewrite Est1.
    destruct (IH (S t) (k0 + lenX)%nat (snd st1) ltac:(lia) La1 Lr1
                 _ eq_refl) as (La' & Lr' & Hget).
    split; [exact La'|split; [exact Lr'|]].
    intros i j. rewrite Hget, Hget1.
    replace (S t + m)%nat with (t + S m)%nat by lia.
    change (Nat.leb 0 i) with true. cbn [Nat.add].
    destruct (Nat.ltb_spec i lenX) as [Hi|Hi]; cbn [andb].
    2:{ rewrite andb_false_r. reflexivity. }
    rewrite !andb_true_r.
    destruct (Nat.eqb_spec j t) as [->|Hj].
    + assert (E1 : Nat.leb (S t) t = false) by (apply Nat.leb_gt; lia).
      assert (E2 : Nat.leb t t = true) by (apply Nat.leb_le; lia).
      assert (E3 : Nat.ltb t (t + S m) = true) by (apply Nat.ltb_lt; lia).
      rewrite E1, E2, E3. cbn [andb].
      f_equal. rewrite Nat.sub_diag, Nat.sub_0_r. simpl. lia.
    + destruct (Nat.leb (S t) j) eqn:E1.
      * apply Nat.leb_le in E1.
        assert (E2 : Nat.leb t j = true) by (apply Nat.leb_le; lia).
        rewrite E2. cbn [andb].
        destruct (Nat.ltb j (t + S m)); [|reflexivity].
        f_equal.
        replace (j - t)%nat with (S (j - S t)) by lia. simpl. lia.
      * apply Nat.leb_gt in E1.
        assert (E2 : Nat.leb t j = false) by (apply Nat.leb_gt; lia).
        rewrite E2. reflexivity.
Qed.

Lemma drift_points_closed (lenX lenY : nat) (speed angle : R) :
  drift_points (lenX, lenY) speed angle
  = map (fun xi => map (fun yi =>
           drifted_pixel (drift_step angle speed) xi yi (yi * lenX + xi))
           (seq 0 lenY)) (seq 0 lenX).
Proof.
  unfold drift_points.
  set (dv := drift_step angle speed).
  assert (E : ((0, 0), repeat (repeat ((0, 0) : R * R) lenY) lenX)
              = ((INR 0 * fst dv, INR 0 * snd dv),
                 repeat (repeat ((0, 0) : R * R) lenY) lenX))
    by (simpl; f_equal; f_equal; ring).
  rewrite E.
  destruct (drift_points_rows dv lenX lenY lenY 0 0
              (repeat (repeat (0, 0) lenY) lenX) ltac:(lia)
              (repeat_length _ _)
              ltac:(intros i Hi; rewrite nth_repeat_lt by assumption;
                    apply repeat_length)
              _ eq_refl) as (La & Lr & Hget).
  match goal with |- ?lhs = _ => set (res := lhs) in * end.
  apply (nth_ext _ _ [] []).
  - now rewrite La, length_map, length_seq.
  - intros i Hi. rewrite La in Hi.
    rewrite (nth_map_seq _ lenX i) by assumption.
    apply (nth_ext _ _ (0, 0) (0, 0)).
    + now rewrite (Lr i Hi), length_map, length_seq.
    + intros j Hj. rewrite (Lr i Hi) in Hj.
      rewrite (nth_map_seq _ lenY j) by assumption.
      rewrite Hget.
      assert (E1 : Nat.ltb i lenX = true) by (apply Nat.ltb_lt; lia).
      assert (E3 : Nat.ltb j (0 + lenY) = true) by (apply Nat.ltb_lt; lia).
      rewrite E1, E3. cbn [Nat.leb andb].
      f_equal. lia.
Qed.

Lemma drift_step_value (angle speed : R) :
  drift_step angle speed
  = (cos (deg2rad angle) * speed, sin (deg2rad angle) * speed).
Proof.
  unfold drift_step, rotation_matrix, matvec2. cbn [fst snd].
  f_equal; ring.
Qed.

(** X4.  [drift_points] fills an array of [lenX] rows of [lenY] entries
    whose entry [(xi, yi)], reached as pixel number [k = yi * lenX + xi] of
    the scan, is the pixel's coordinates less [k + 1] steps of
    [drift_speed] along the direction of [drift_angle]. *)
Theorem drift_points_entries (lenX lenY : nat) (drift_speed drift_angle : R) :
  drift_points (lenX, lenY) drift_speed drift_angle
  = map (fun xi => map (fun yi =>
           drifted_pixel (cos (deg2rad drift_angle) * drift_speed,
                          sin (deg2rad drift_angle) * drift_speed)
                         xi yi (yi * lenX + xi))
           (seq 0 lenY)) (seq 0 lenX).
Proof.
  rewrite drift_points_closed, drift_step_value. reflexivity.
Qed.

(** X5.  [drift_pointsYX] returns [lenY * lenX] positions: the entries of
    the array of [drift_points] for the same grid, speed and angle, read
    scanline by scanline. *)
Theorem drift_pointsYX_is_scan_of_drift_points (lenY lenX : nat)
    (drift_angle drift_speed : R) :
  drift_pointsYX (lenY, lenX) drift_angle drift_speed
  = concat (map (fun yi => map (fun xi =>
              nth yi (nth xi (drift_points (lenX, lenY) drift_speed
                                           drift_angle) []) (0, 0))
              (seq 0 lenX)) (seq 0 lenY))
  /\ length (drift_pointsYX (lenY, lenX) drift_angle drift_speed)
     = (lenY * lenX)%nat.
Proof.
  rewrite drift_pointsYX_closed, drift_points_closed. split.
  - f_equal. apply map_ext_in. intros yi Hyi. apply in_seq in Hyi.
    apply map_ext_in. intros xi Hxi. apply in_seq in Hxi.
    rewrite (nth_map_seq _ lenX xi) by lia.
    rewrite (nth_map_seq _ lenY yi) by lia. reflexivity.
  - apply length_concat_blocks.
Qed.

(** X6.  The pixel reached as number [k] of the scan is displaced from its
    coordinates by a vector of squared length [((k + 1) * drift_speed)^2];
    with [drift_speed = 0] both functions return the pixel coordinates
    themselves, whatever the angle. *)
Theorem drift_displacement_grows_with_scan (lenX lenY : nat)
    (drift_speed drift_angle : R) :
  (forall xi yi,
     (xi < lenX)%nat -> (yi < lenY)%nat ->
     let p := nth yi (nth xi (drift_points (lenX, lenY) drift_speed
                                           drift_angle) []) (0, 0) in
     (fst p - INR xi) ^ 2 + (snd p - INR yi) ^ 2
     = (INR (S (yi * lenX + xi)) * drift_speed) ^ 2)
  /\ drift_points (lenX, lenY) 0 drift_angle
     = map (fun xi => map (fun yi => (INR xi, INR yi)) (seq 0 lenY))
           (seq 0 lenX)
  /\ drift_pointsYX (lenY, lenX) drift_angle 0
     = concat (map (fun yi => map (fun xi => (INR xi, INR yi))
                                  (seq 0 lenX)) (seq 0 lenY)).
Proof.
  split; [|split].
  - intros xi yi Hxi Hyi p. unfold p.
    rewrite drift_points_closed, drift_step_value.
    rewrite (nth_map_seq _ lenX xi) by assumption.
    rewrite (nth_map_seq _ lenY yi) by assumption.
    unfold drifted_pixel. cbn [fst snd].
    pose proof (sin2_cos2_mult (deg2rad drift_angle)) as H.
    transitivity
      ((INR (S (yi * lenX + xi)) * drift_speed) ^ 2
       * (cos (deg2rad drift_angle) * cos (deg2rad drift_angle)
          + sin (deg2rad drift_angle) * sin (deg2rad drift_angle)));
      [ring|rewrite H; ring].
  - rewrite drift_points_closed, drift_step_value.
    apply map_ext. intros xi. apply map_ext. intros yi.
    unfold drifted_pixel. cbn [fst snd]. f_equal; ring.
  - rewrite drift_pointsYX_closed, drift_step_value.
    f_equal. apply map_ext. intros yi. apply map_ext. intros xi.
    unfold drifted_pixel. cbn [fst snd]. f_equal; ring.
Qed.

(** *** transform_points *)

Lemma transform_points_map (points : list (R * R)) (t : mat3) :
  transform_points points t
  = map (fun p =>
           let q := rowmat3 (fst p, snd p, 1) t in
           (fst (fst q), snd (fst q))) points.
Proof. unfold transform_points, extend_3D_ones. now rewrite !map_map. Qed.

(** X7.  [transform_points] returns one point per input point; the identity
    matrix returns the points unchanged, and the third column of the
    transform never matters. *)
Theorem transform_points_identity_and_columns (points : list (R * R)) :
  transform_points points identity3 = points
  /\ (forall t, length (transform_points points t) = length points)
  /\ (forall r0 r1 r2 c0 c1 c2 c0' c1' c2' : R,
      forall a b : R * R,
        transform_points points
          ((fst a, snd a, c0), (fst b, snd b, c1), (r0, r1, c2))
        = transform_points points
            ((fst a, snd a, c0'), (fst b, snd b, c1'), (r0, r1, c2'))).
Proof.
  split; [|split].
  - rewrite transform_points_map. rewrite <- (map_id points) at 2.
    apply map_ext. intros [x y]. unfold identity3, rowmat3. cbn [fst snd].
    f_equal; ring.
  - intros t. rewrite transform_points_map. apply length_map.
  - intros. rewrite !transform_points_map. apply map_ext. intros [x y].
    reflexivity.
Qed.

(** X8.  When the first transform is affine (third column 0, 0, 1),
    transforming twice is transforming once by the matrix product. *)
Theorem transform_points_compose (points : list (R * R)) (t1 t2 : mat3) :
  snd (fst (fst t1)) = 0 -> snd (snd (fst t1)) = 0 -> snd (snd t1) = 1 ->
  transform_points (transform_points points t1) t2
  = transform_points points (matmul3 t1 t2).
Proof.
  destruct t1 as [[[[a00 a01] a02] [[a10 a11] a12]] [[a20 a21] a22]].
  destruct t2 as [[[[b00 b01] b02] [[b10 b11] b12]] [[b20 b21] b22]].
  cbn [fst snd]. intros -> -> ->.
  rewrite !transform_points_map, map_map.
  apply map_ext. intros [x y].
  unfold matmul3, rowmat3. cbn [fst snd]. f_equal; ring.
Qed.

Lemma transform_points_compose_witness :
  transform_points
    (transform_points [(1, 2); (3, 4)]
       ((1, 0, 0), (0, 1, 0), (5, 6, 1)))
    ((0, 1, 0), (-1, 0, 0), (0, 0, 1))
  = transform_points [(1, 2); (3, 4)]
      (matmul3 ((1, 0, 0), (0, 1, 0), (5, 6, 1))
               ((0, 1, 0), (-1, 0, 0), (0, 0, 1))).
Proof.
  apply (transform_points_compose [(1, 2); (3, 4)]
           ((1, 0, 0), (0, 1, 0), (5, 6, 1))
           ((0, 1, 0), (-1, 0, 0), (0, 0, 1))); reflexivity.
Defined.

(** *** add_ac_noise *)

Lemma add_ac_noise_run (ny nx : nat) (strength dwelltime ac_freq : R) :
  ac_freq <> 0 ->
  add_ac_noise (ny, nx) strength dwelltime ac_freq
  = inr (map (map (fun v => strength * v))
             (reshape2 ny nx
                (map sin
                   (map (fun k => 2 * dwelltime / (1 / ac_freq) * INR k * PI)
                        (seq 0 (ny * nx))))),
         zeros2 ny nx).
Proof.
  intros Hf. unfold add_ac_noise.
  destruct (Req_dec_T ac_freq 0); [contradiction|reflexivity].
Qed.

Lemma add_ac_noise_at (ny nx : nat) (strength dwelltime ac_freq : R) r c :
  ac_freq <> 0 -> (r < ny)%nat -> (c < nx)%nat ->
  exists N0,
    add_ac_noise (ny, nx) strength dwelltime ac_freq
    = inr (N0, zeros2 ny nx)
    /\ rect ny nx N0
    /\ at2 N0 r c
       = strength * sin (2 * dwelltime * ac_freq * INR (r * nx + c) * PI).
Proof.
  intros Hf Hr Hc. rewrite add_ac_noise_run by assumption.
  eexists. split; [reflexivity|].
  assert (Hrect : rect ny nx
            (reshape2 ny nx
               (map sin
                  (map (fun k => 2 * dwelltime / (1 / ac_freq) * INR k * PI)
                       (seq 0 (ny * nx))))))
    by (apply rect_reshape2; now rewrite !length_map, length_seq).
  split.
  - fold (scale2 strength
            (reshape2 ny nx
               (map sin
                  (map (fun k => 2 * dwelltime / (1 / ac_freq) * INR k * PI)
                       (seq 0 (ny * nx)))))).
    now apply rect_scale2.
  - rewrite (at2_map_map _ ny nx) by assumption.
    rewrite at2_reshape2 by assumption.
    rewrite map_map.
    rewrite (nth_map_seq _ (ny * nx)) by now apply flat_index_lt.
    f_equal. f_equal. field. assumption.
Qed.

(** X9.  [add_ac_noise] raises [ZeroDivisionError] for a zero mains
    frequency.  Otherwise it returns a field of the requested shape whose
    second channel is zero and whose first channel, at the pixel of
    flattened index [k], is [strength * sin(2 pi * dwelltime * ac_freq * k)]:
    never larger than [|strength|], and zero at the first pixel. *)
Theorem add_ac_noise_is_bounded_sinusoid (ny nx : nat)
    (strength dwelltime : R) :
  add_ac_noise (ny, nx) strength dwelltime 0 = inl ZeroDivisionError
  /\ forall ac_freq r c,
       ac_freq <> 0 -> (r < ny)%nat -> (c < nx)%nat ->
       exists N0,
         add_ac_noise (ny, nx) strength dwelltime ac_freq
         = inr (N0, zeros2 ny nx)
         /\ rect ny nx N0
         /\ at2 N0 r c
            = strength
              * sin (2 * dwelltime * ac_freq * INR (r * nx + c) * PI)
         /\ Rabs (at2 N0 r c) <= Rabs strength
         /\ at2 N0 0 0 = 0.
Proof.
  split.
  - unfold add_ac_noise. destruct (Req_dec_T 0 0); [reflexivity|lra].
  - intros ac_freq r c Hf Hr Hc.
    destruct (add_ac_noise_at ny nx strength dwelltime ac_freq r c Hf Hr Hc)
      as (N0 & Hrun & Hrect & Hat).
    destruct (add_ac_noise_at ny nx strength dwelltime ac_freq 0 0 Hf
                ltac:(lia) ltac:(lia)) as (N0' & Hrun' & _ & Hat0).
    rewrite Hrun in Hrun'. inversion Hrun'; subst N0'.
    exists N0.
    split; [exact Hrun|split; [exact Hrect|split; [exact Hat|split]]].
    + rewrite Hat, Rabs_mult.
      pose proof (SIN_bound
        (2 * dwelltime * ac_freq * INR (r * nx + c) * PI)) as [Hlo Hhi].
      assert (Hs : Rabs (sin (2 * dwelltime * ac_freq
                              * INR (r * nx + c) * PI)) <= 1)
        by (apply Rabs_le; lra).
      pose proof (Rabs_pos strength). nra.
    + rewrite Hat0. simpl INR. rewrite !Rmult_0_r, Rmult_0_l, sin_0. ring.
Qed.



(** *** Gaussian2D and the synthesized image *)

Lemma exp_le_1 (q : R) : q <= 0 -> exp q <= 1.
Proof.
  intros [Hq| ->]; [|rewrite exp_0; lra].
  rewrite <- exp_0. left. now apply exp_increasing.
Qed.

Lemma gaussian_exponent_nonpos (x y xc yc s : R) :
  s <> 0 ->
  - ((x - xc) ^ 2 + (y - yc) ^ 2) / (2 * s ^ 2) <= 0.
Proof.
  intros Hs0.
  assert (Hd : 0 <= (x - xc) ^ 2 + (y - yc) ^ 2)
    by (pose proof (pow2_ge_0 (x - xc)); pose proof (pow2_ge_0 (y - yc));
        lra).
  assert (Hs : 0 < 2 * s ^ 2).
  { pose proof (pow2_ge_0 s) as H0.
    assert (H1 : s ^ 2 <> 0) by now apply pow_nonzero.
    lra. }
  unfold Rdiv. apply Rinv_0_lt_compat in Hs. nra.
Qed.

(** X11.  For a non-zero width, [Gaussian2D] takes the value [A] at its
    centre, and for a non-negative amplitude it lies between 0 and [A]
    everywhere (strictly above 0 for a positive amplitude). *)
Theorem Gaussian2D_peak_and_bounds (x y A xc yc s : R) :
  s <> 0 ->
  Gaussian2D xc yc A xc yc s = A
  /\ (0 <= A -> 0 <= Gaussian2D x y A xc yc s <= A)
  /\ (0 < A -> 0 < Gaussian2D x y A xc yc s).
Proof.
  intros Hs.
  pose proof (exp_pos (- ((x - xc) ^ 2 + (y - yc) ^ 2) / (2 * s ^ 2))) as Hp.
  pose proof (exp_le_1 _ (gaussian_exponent_nonpos x y xc yc s Hs)) as Hle.
  unfold Gaussian2D. split; [|split].
  - replace (- ((xc - xc) ^ 2 + (yc - yc) ^ 2) / (2 * s ^ 2)) with 0
      by (unfold Rdiv; ring).
    rewrite exp_0. ring.
  - intros HA. split; nra.
  - intros HA. nra.
Qed.

Lemma Gaussian2D_peak_and_bounds_witness :
  Gaussian2D 0 0 2 0 0 1 = 2
  /\ (0 <= 2 -> 0 <= Gaussian2D 1 0 2 0 0 1 <= 2)
  /\ (0 < 2 -> 0 < Gaussian2D 1 0 2 0 0 1).
Proof.
  apply (Gaussian2D_peak_and_bounds 1 0 2 0 0 1). lra.
Defined.

(** X12.  For a positive amplitude and a non-zero width, [Gaussian2D]
    depends on the point only through its distance to the centre and
    decays strictly with that distance. *)
Theorem Gaussian2D_radial_decay (x1 y1 x2 y2 A xc yc s : R) :
  0 < A -> s <> 0 ->
  ((x1 - xc) ^ 2 + (y1 - yc) ^ 2 = (x2 - xc) ^ 2 + (y2 - yc) ^ 2 ->
   Gaussian2D x1 y1 A xc yc s = Gaussian2D x2 y2 A xc yc s)
  /\ ((x1 - xc) ^ 2 + (y1 - yc) ^ 2 < (x2 - xc) ^ 2 + (y2 - yc) ^ 2 ->
      Gaussian2D x2 y2 A xc yc s < Gaussian2D x1 y1 A xc yc s).
Proof.
  intros HA Hs. unfold Gaussian2D. split.
  - intros ->. reflexivity.
  - intros Hd.
    assert (Hden : 0 < / (2 * s ^ 2)).
    { apply Rinv_0_lt_compat.
      pose proof (pow2_ge_0 s) as H0.
      assert (H1 : s ^ 2 <> 0) by now apply pow_nonzero.
      lra. }
    apply Rmult_lt_compat_l; [assumption|].
    apply exp_increasing. unfold Rdiv. nra.
Qed.

Lemma Gaussian2D_radial_decay_witness :
  ((0 - 0) ^ 2 + (0 - 0) ^ 2 = (1 - 0) ^ 2 + (0 - 0) ^ 2 ->
   Gaussian2D 0 0 1 0 0 1 = Gaussian2D 1 0 1 0 0 1)
  /\ ((0 - 0) ^ 2 + (0 - 0) ^ 2 < (1 - 0) ^ 2 + (0 - 0) ^ 2 ->
      Gaussian2D 1 0 1 0 0 1 < Gaussian2D 0 0 1 0 0 1).
Proof.
  apply (Gaussian2D_radial_decay 0 0 1 0 1 0 0 1); lra.
Defined.







Lemma fold_rows_permutation (x y : R) (ps qs : list (R * R * R * R)) :
  Permutation ps qs ->
  fold_right
    (fun p acc =>
       let '(A, xc, yc, sg) := p in Gaussian2D x y A xc yc sg + acc) 0 ps
  = fold_right
      (fun p acc =>
         let '(A, xc, yc, sg) := p in Gaussian2D x y A xc yc sg + acc) 0 qs.
Proof.
  induction 1 as [|p ps qs _ IH|p q ps|ps qs rs _ IH1 _ IH2]; simpl.
  - reflexivity.
  - now rewrite IH.
  - destruct p as [[[? ?] ?] ?], q as [[[? ?] ?] ?]. lra.
  - congruence.
Qed.

(** X14.  The image does not depend on the order of the atoms: two models
    with the same rectangular probe grid whose parameter rows are a
    permutation of each other generate the same image. *)
Theorem generate_order_independent (m1 m2 : ImageModel) (ny nx : nat) :
  probe_positions m1 = probe_positions m2 ->
  rect ny nx (fst (probe_positions m1)) ->
  rect ny nx (snd (probe_positions m1)) ->
  Permutation (parameters_T (parameters m1)) (parameters_T (parameters m2)) ->
  generate m1 = generate m2.
Proof.
  intros Hpp HX HY Hperm.
  assert (HX2 : rect ny nx (fst (probe_positions m2))) by now rewrite <- Hpp.
  assert (HY2 : rect ny nx (snd (probe_positions m2))) by now rewrite <- Hpp.
  apply (array2_ext ny nx); try now apply generate_rect_any.
  intros r c Hr Hc. unfold generate. rewrite <- Hpp.
  destruct (probe_positions m1) as [X Y]; cbn [fst snd] in *.
  rewrite !(accumulate_pixel ny nx) by auto using rect_zeros_like.
  f_equal. now apply fold_rows_permutation.
Qed.

Lemma generate_order_independent_witness :
  generate two_atom_model
  = generate
      (set_parameters two_atom_model
         ([float_power (IZR 2) (18 / 10); float_power (IZR 1) (18 / 10)],
          [1; 0], [1; 0], [1 * (4 / 10); 1 * (4 / 10)])).
Proof.
  apply (generate_order_independent two_atom_model _ 2 2).
  - reflexivity.
  - split; [reflexivity|repeat constructor].
  - split; [reflexivity|repeat constructor].
  - apply perm_swap.
Defined.

(** *** The probe-grid builder: randomness, rotation, raster *)

Lemma stage_jitter_rng (self : ImageModel) ny nx (p p' : grid) g g' :
  stage_jitter self ny nx p g = inr (p', g') ->
  g' = if truthy_strength (jitter_strength self)
       then mkRng (draws g)
              (used g + (if jitter_horizontal self then ny else 0)
               + (if jitter_vertical self then ny else 0))
       else g.
Proof.
  unfold stage_jitter.
  destruct (truthy_strength (jitter_strength self)).
  - unfold bind. rewrite add_line_jitter_run. unfold ret.
    intros H. now inversion H.
  - intros H. apply ret_inr in H. now destruct H.
Qed.

Lemma builder_rng (self : ImageModel) (g : rng) (self' : ImageModel)
    (g' : rng) :
  create_probe_positions self g = inr (self', g') ->
  exists xr yr,
    grid_axes self g = inr ((xr, yr), g)
    /\ g' = if truthy_strength (jitter_strength self)
            then mkRng (draws g)
                   (used g
                    + (if jitter_horizontal self then length yr else 0)
                    + (if jitter_vertical self then length yr else 0))
            else g.
Proof.
  intros H.
  destruct (builder_shape _ _ _ _ H) as (xr & yr & p & Hax & _).
  exists xr, yr. split; [exact Hax|].
  rewrite (builder_run self g xr yr Hax) in H.
  inv_bind H. apply stage_jitter_rng in Hrun.
  destruct (rect_meshgrid xr yr) as [M0 M1].
  inv_bind H. apply ret_inr in H. destruct H as [_ <-].
  unfold stage_recentre in Hrun0.
  destruct (truthy_R (drift_speed self) && centre_drift self).
  - inv_bind Hrun0. inv_bind Hrun0.
    apply signed_extreme_inr in Hrun1, Hrun2.
    apply ret_inr in Hrun0. destruct Hrun0 as [_ <-]. congruence.
  - apply ret_inr in Hrun0. destruct Hrun0 as [_ <-]. exact Hrun.
Qed.

(** X15.  The builder touches the random generator only for jitter: with
    the scalar strength 0 it draws nothing, and with a truthy strength
    (a non-zero number, or any 2-tuple, [(0, 0)] included) it draws one
    number per grid row for each enabled direction, whatever the rotation
    and the drift. *)
Theorem builder_random_draws (self : ImageModel) (g : rng)
    (self' : ImageModel) (g' : rng) :
  create_probe_positions self g = inr (self', g') ->
  draws g' = draws g
  /\ (jitter_strength self = Scalar 0 -> g' = g)
  /\ (truthy_strength (jitter_strength self) = true ->
      exists xr yr,
        grid_axes self g = inr ((xr, yr), g)
        /\ used g'
           = (used g + (if jitter_horizontal self then length yr else 0)
              + (if jitter_vertical self then length yr else 0))%nat).
Proof.
  intros H. destruct (builder_rng _ _ _ _ H) as (xr & yr & Hax & Hg).
  split; [|split].
  - rewrite Hg. now destruct (truthy_strength (jitter_strength self)).
  - intros Hs. rewrite Hg, Hs. cbn [truthy_strength].
    now rewrite truthy_R_0.
  - intros Ht. exists xr, yr. split; [exact Hax|].
    rewrite Hg, Ht. reflexivity.
Qed.

Lemma builder_random_draws_witness :
  exists self' g',
    create_probe_positions (two_atom_scan 1) rng_step = inr (self', g')
    /\ draws g' = draws rng_step
    /\ (jitter_strength (two_atom_scan 1) = Scalar 0 -> g' = rng_step)
    /\ (truthy_strength (jitter_strength (two_atom_scan 1)) = true ->
        exists xr yr,
          grid_axes (two_atom_scan 1) rng_step = inr ((xr, yr), rng_step)
          /\ used g'
             = (used rng_step
                + (if jitter_horizontal (two_atom_scan 1)
                   then length yr else 0)
                + (if jitter_vertical (two_atom_scan 1)
                   then length yr else 0))%nat).
Proof.
  destruct scan_code_order as (P & HP & _).
  eexists. eexists. split; [exact HP|].
  apply (builder_random_draws _ _ _ _ HP).
Defined.

Lemma sum1_map_shift (m : R) (l : array1) :
  sum1 (map (fun v => v - m) l) = sum1 l - INR (length l) * m.
Proof.
  induction l as [|x l IH]; [simpl; ring|].
  cbn [map sum1 fold_right length]. fold (sum1 (map (fun v => v - m) l)).
  fold (sum1 l). rewrite IH, S_INR. ring.
Qed.

Lemma sum1_map2_affine (k1 k2 k3 : R) (l1 l2 : array1) :
  length l1 = length l2 ->
  sum1 (map2 (fun a b => k1 * a + k2 * b + k3) l1 l2)
  = k1 * sum1 l1 + k2 * sum1 l2 + INR (length l1) * k3.
Proof.
  revert l2. induction l1 as [|x l1 IH]; intros [|y l2] Hl;
    try discriminate; [simpl; ring|].
  cbn [map2 sum1 fold_right length].
  fold (sum1 (map2 (fun a b => k1 * a + k2 * b + k3) l1 l2)).
  fold (sum1 l1). fold (sum1 l2).
  rewrite IH by (simpl in Hl; lia). rewrite S_INR. ring.
Qed.

Lemma rotate_about_mean_sums deg ny nx (p : grid) :
  rect ny nx (fst p) -> rect ny nx (snd p) -> (ny * nx <> 0)%nat ->
  sum1 (ravel (fst (rotate_about_mean deg ny nx p))) = sum1 (ravel (fst p))
  /\ sum1 (ravel (snd (rotate_about_mean deg ny nx p)))
     = sum1 (ravel (snd p)).
Proof.
  intros H0 H1 HN.
  pose proof (ravel_length ny nx _ H0) as L0.
  pose proof (ravel_length ny nx _ H1) as L1.
  assert (HNR : INR (ny * nx) <> 0) by (apply not_0_INR; assumption).
  unfold rotate_about_mean, rotation_matrix. cbn [fst snd].
  rewrite !ravel_reshape2
    by (rewrite map2_length, !length_map, L0, L1; lia).
  rewrite !sum1_map2_affine by (rewrite !length_map; congruence).
  rewrite !sum1_map_shift, !length_map, L0, L1.
  split; field; assumption.
Qed.

(** X16.  The scan rotation leaves the centroid of a non-empty grid where
    it was: the per-channel mean of the rotated grid is the per-channel
    mean of the grid it was given. *)
Theorem rotation_preserves_centroid (deg : R) (ny nx : nat) (p : grid) :
  rect ny nx (fst p) -> rect ny nx (snd p) -> (ny * nx <> 0)%nat ->
  sum1 (ravel (fst (rotate_about_mean deg ny nx p))) / INR (ny * nx)
  = sum1 (ravel (fst p)) / INR (ny * nx)
  /\ sum1 (ravel (snd (rotate_about_mean deg ny nx p))) / INR (ny * nx)
     = sum1 (ravel (snd p)) / INR (ny * nx).
Proof.
  intros H0 H1 HN.
  destruct (rotate_about_mean_sums deg ny nx p H0 H1 HN) as [-> ->].
  split; reflexivity.
Qed.

Lemma rect_unit_mesh :
  rect 2 2 (fst (meshgrid [0; 1] [0; 1]))
  /\ rect 2 2 (snd (meshgrid [0; 1] [0; 1])).
Proof. split; split; try reflexivity; repeat constructor. Qed.

Lemma rotation_preserves_centroid_witness :
  sum1 (ravel (fst (rotate_about_mean 30 2 2 (meshgrid [0; 1] [0; 1]))))
  / INR (2 * 2)
  = sum1 (ravel (fst (meshgrid [0; 1] [0; 1]))) / INR (2 * 2)
  /\ sum1 (ravel (snd (rotate_about_mean 30 2 2 (meshgrid [0; 1] [0; 1]))))
     / INR (2 * 2)
     = sum1 (ravel (snd (meshgrid [0; 1] [0; 1]))) / INR (2 * 2).
Proof.
  apply (rotation_preserves_centroid 30 2 2 (meshgrid [0; 1] [0; 1]));
    try apply rect_unit_mesh. discriminate.
Defined.

(** X17.  The scan rotation is rigid: the distance between any two
    samples of the grid is the same after the rotation as before. *)
Theorem rotation_preserves_distances (deg : R) (ny nx : nat) (p : grid)
    (r1 c1 r2 c2 : nat) :
  rect ny nx (fst p) -> rect ny nx (snd p) ->
  (r1 < ny)%nat -> (c1 < nx)%nat -> (r2 < ny)%nat -> (c2 < nx)%nat ->
  let q := rotate_about_mean deg ny nx p in
  (at2 (fst q) r1 c1 - at2 (fst q) r2 c2) ^ 2
  + (at2 (snd q) r1 c1 - at2 (snd q) r2 c2) ^ 2
  = (at2 (fst p) r1 c1 - at2 (fst p) r2 c2) ^ 2
    + (at2 (snd p) r1 c1 - at2 (snd p) r2 c2) ^ 2.
Proof.
  intros H0 H1 Hr1 Hc1 Hr2 Hc2 q. unfold q.
  destruct (rotate_about_mean_at deg ny nx p r1 c1 H0 H1 Hr1 Hc1) as [A0 A1].
  destruct (rotate_about_mean_at deg ny nx p r2 c2 H0 H1 Hr2 Hc2) as [B0 B1].
  rewrite A0, A1, B0, B1.
  pose proof (sin2_cos2_mult (deg2rad deg)) as H.
  set (co := cos (deg2rad deg)) in *. set (si := sin (deg2rad deg)) in *.
  set (dx := at2 (fst p) r1 c1 - at2 (fst p) r2 c2).
  set (dy := at2 (snd p) r1 c1 - at2 (snd p) r2 c2).
  transitivity ((co * co + si * si) * (dx ^ 2 + dy ^ 2)).
  - unfold dx, dy. ring.
  - rewrite H. ring.
Qed.

Lemma rotation_preserves_distances_witness :
  let p := meshgrid [0; 1] [0; 1] in
  let q := rotate_about_mean 30 2 2 p in
  (at2 (fst q) 0 0 - at2 (fst q) 1 1) ^ 2
  + (at2 (snd q) 0 0 - at2 (snd q) 1 1) ^ 2
  = (at2 (fst p) 0 0 - at2 (fst p) 1 1) ^ 2
    + (at2 (snd p) 0 0 - at2 (snd p) 1 1) ^ 2.
Proof.
  apply (rotation_preserves_distances 30 2 2 (meshgrid [0; 1] [0; 1])
           0 0 1 1); try apply rect_unit_mesh; lia.
Defined.

Lemma grid_axes_square (self : ImageModel) g xr yr g' :
  grid_axes self g = inr ((xr, yr), g') -> square self = true -> xr = yr.
Proof.
  unfold grid_axes, bind, min0, max0, raise, ret, lift, arange.
  destruct (atom_positions self); [discriminate|].
  destruct (Req_dec_T (pixel_size self) 0); [discriminate|].
  intros H Hs. rewrite Hs in H. now inversion H.
Qed.

Lemma init_builder (a : Args) (g g' : rng) (m : ImageModel) :
  init a g = inr (m, g') ->
  exists pos nums xr yr p,
    grid_axes (assign_attributes a pos nums) g = inr ((xr, yr), g)
    /\ create_probe_positions (assign_attributes a pos nums) g
       = inr (set_probe_positions (assign_attributes a pos nums) p, g')
    /\ m = create_parameters
             (set_probe_positions (assign_attributes a pos nums) p)
    /\ rect (length yr) (length xr) (fst p)
    /\ rect (length yr) (length xr) (snd p).
Proof.
  intros H.
  destruct (init_inr a g m g' H)
    as (at_ & ats & pos & nums & self1 & _ & _ & _ & Hb & ->).
  destruct (builder_shape _ _ _ _ Hb) as (xr & yr & p & Hax & -> & R0 & R1).
  exists pos, nums, xr, yr, p. auto.
Qed.

(** X18.  In square mode the probe grid, and with it the generated image,
    has as many rows as columns, whatever the atoms' bounding box and the
    artifacts. *)
Theorem square_mode_grid_is_square (a : Args) (g g' : rng) (m : ImageModel) :
  init a g = inr (m, g') -> arg_square a = true ->
  exists n,
    rect n n (fst (probe_positions m))
    /\ rect n n (snd (probe_positions m))
    /\ rect n n (generate m).
Proof.
  intros H Hs.
  destruct (init_builder a g g' m H)
    as (pos & nums & xr & yr & p & Hax & _ & -> & R0 & R1).
  apply grid_axes_square in Hax; [|exact Hs]. subst yr.
  exists (length xr). split; [exact R0|]. split; [exact R1|].
  apply generate_rect_any; assumption.
Qed.

Lemma square_mode_grid_is_square_witness :
  exists m g' n,
    init wide_square_args rng0 = inr (m, g')
    /\ rect n n (fst (probe_positions m))
    /\ rect n n (snd (probe_positions m))
    /\ rect n n (generate m).
Proof.
  destruct (init_succeeds_no_drift wide_square_args (mkAtom (0, 0, 0) 1)
              [mkAtom (3, 1, 0) 1] rng0) as (m & g' & H);
    try reflexivity; [simpl; lra|].
  destruct (square_mode_grid_is_square wide_square_args rng0 g' m H eq_refl)
    as (n & Hn).
  exists m, g', n. split; [exact H|exact Hn].
Defined.

Lemma grid_axes_values (self : ImageModel) g xr yr g' :
  grid_axes self g = inr ((xr, yr), g') ->
  exists x0 x1 y0 y1,
    xr = arange_values x0 x1 (pixel_size self)
    /\ yr = arange_values y0 y1 (pixel_size self).
Proof.
  unfold grid_axes, bind, min0, max0, raise, ret, lift, arange.
  destruct (atom_positions self); [discriminate|].
  destruct (Req_dec_T (pixel_size self) 0); [discriminate|].
  intros H. inversion H. eexists. eexists. eexists. eexists.
  split; reflexivity.
Qed.

Lemma nth_arange_values (start stop step : R) (i : nat) :
  (i < length (arange_values start stop step))%nat ->
  nth i (arange_values start stop step) 0 = start + INR i * step.
Proof.
  unfold arange_values. rewrite length_map, length_seq. intros Hi.
  now rewrite (nth_map_seq (fun i => start + INR i * step)).
Qed.

Lemma at2_meshgrid (xs ys : array1) (r c : nat) :
  (r < length ys)%nat -> (c < length xs)%nat ->
  at2 (fst (meshgrid xs ys)) r c = nth c xs 0
  /\ at2 (snd (meshgrid xs ys)) r c = nth r ys 0.
Proof.
  intros Hr Hc. unfold meshgrid, at2. cbn [fst snd]. split.
  - now rewrite nth_repeat_lt.
  - rewrite (nth_map_lt _ ys r [] 0) by assumption.
    now rewrite nth_repeat_lt.
Qed.

Lemma builder_plain (self : ImageModel) (g : rng) (xr yr : array1) :
  grid_axes self g = inr ((xr, yr), g) ->
  jitter_strength self = Scalar 0 -> scan_rotation self = 0 ->
  drift_speed self = 0 ->
  create_probe_positions self g
  = inr (set_probe_positions self (meshgrid xr yr), g).
Proof.
  intros Hax Hj Hr Hd. rewrite (builder_run self g xr yr Hax).
  unfold stage_jitter, stage_rotation, stage_drift.
  rewrite Hj, Hr, Hd. cbn [truthy_strength]. rewrite truthy_R_0.
  unfold bind, ret. rewrite stage_recentre_no_drift by assumption.
  reflexivity.
Qed.

(** X19.  Built without jitter, rotation and drift, the probe grid is a
    regular raster: along a row the [x] coordinate advances by the pixel
    size per column, along a column the [y] coordinate advances by the
    pixel size per row, starting from the first sample. *)
Theorem plain_grid_is_regular_raster (a : Args) (g g' : rng)
    (m : ImageModel) :
  init a g = inr (m, g') ->
  arg_jitter_strength a = Scalar 0 -> arg_scan_rotation a = 0 ->
  arg_drift_speed a = 0 ->
  forall r c : nat,
    (r < fst (shape2 (fst (probe_positions m))))%nat ->
    (c < snd (shape2 (fst (probe_positions m))))%nat ->
    at2 (fst (probe_positions m)) r c
    = at2 (fst (probe_positions m)) 0 0 + INR c * arg_pixel_size a
    /\ at2 (snd (probe_positions m)) r c
       = at2 (snd (probe_positions m)) 0 0 + INR r * arg_pixel_size a.
Proof.
  intros H Hj Hrot Hd r c Hr Hc.
  destruct (init_builder a g g' m H)
    as (pos & nums & xr & yr & p & Hax & Hb & -> & R0 & R1).
  rewrite (builder_plain _ g xr yr Hax Hj Hrot Hd) in Hb.
  inversion Hb as [[Hp Hg]]. subst p.
  cbn [create_parameters set_parameters set_probe_positions
       probe_positions] in *.
  assert (Hs : shape2 (fst (meshgrid xr yr)) = (length yr, length xr)).
  { unfold shape2 in *. cbn [fst] in Hr. destruct R0 as [L F].
    rewrite L in *. rewrite (rect_hd _ _ _ (conj L F)); [reflexivity|lia]. }
  rewrite Hs in Hr, Hc. cbn [fst snd] in Hr, Hc.
  destruct (at2_meshgrid xr yr r c Hr Hc) as [E0 E1].
  destruct (at2_meshgrid xr yr 0 0 ltac:(lia) ltac:(lia)) as [Z0 Z1].
  rewrite E0, E1, Z0, Z1.
  destruct (grid_axes_values _ _ _ _ _ Hax) as (x0 & x1 & y0 & y1 & Ex & Ey).
  cbn [assign_attributes pixel_size] in Ex, Ey.
  rewrite Ex in Hc |- *. rewrite Ey in Hr |- *.
  rewrite !nth_arange_values by lia. simpl INR. split; ring.
Qed.

Lemma plain_grid_is_regular_raster_witness :
  at2 (fst (probe_positions two_atom_model)) 1 1
  = at2 (fst (probe_positions two_atom_model)) 0 0
    + INR 1 * arg_pixel_size two_atom_args
  /\ at2 (snd (probe_positions two_atom_model)) 1 1
     = at2 (snd (probe_positions two_atom_model)) 0 0
       + INR 1 * arg_pixel_size two_atom_args.
Proof.
  apply (plain_grid_is_regular_raster two_atom_args rng0 rng0
           two_atom_model (two_atom_model_run rng0));
    try reflexivity; simpl; lia.
Defined.

Lemma point_axes (a : Args) (at_ : Atom) (g : rng) :
  arg_pixel_size a <> 0 -> arg_vacuum a = 0 -> arg_square a = false ->
  grid_axes (assign_attributes a (atoms_xy [at_]) (atoms_numbers [at_])) g
  = inr (([], []), g).
Proof.
  intros Hpx Hv Hs. unfold grid_axes, bind, min0, max0, ret.
  cbn [assign_attributes atom_positions margin square pixel_size
       atoms_xy map fst snd min1 max1 fold_left].
  rewrite Hv, Hs.
  rewrite !arange_empty by (try assumption; unfold Rdiv; ring).
  reflexivity.
Qed.

(** X20.  A single atom without vacuum gives a grid without pixels.  With
    a non-zero drift and [centre_drift] the recentring then takes the
    maximum of an empty drift field and construction ends in a
    [ValueError]; without [centre_drift] the empty grid is accepted. *)
Theorem recentring_empty_grid_raises (a : Args) (at_ : Atom) (g : rng) :
  arg_atoms a = Some [at_] -> arg_fast a = false ->
  arg_pixel_size a <> 0 -> arg_vacuum a = 0 -> arg_square a = false ->
  arg_drift_speed a <> 0 ->
  (arg_centre_drift a = true -> init a g = inl ValueError)
  /\ (arg_centre_drift a = false ->
      exists m g', init a g = inr (m, g')
                   /\ probe_positions m = ([], [])).
Proof.
  intros Ha Hf Hpx Hv Hs Hd.
  rewrite (init_atoms_run a at_ [] g Ha Hf).
  set (self := assign_attributes a (atoms_xy [at_]) (atoms_numbers [at_])).
  pose proof (point_axes a at_ g Hpx Hv Hs) as Hax. fold self in Hax.
  destruct (stage_jitter_run self 0 0 (meshgrid [] []) g)
    as (p1 & g1 & Hj & J0 & J1);
    try (split; [reflexivity|constructor]).
  assert (Hrun : create_probe_positions self g
                 = bind (stage_recentre self 0 0
                           (stage_drift self 0 0
                              (stage_rotation self 0 0 p1)))
                        (fun p' => ret (set_probe_positions self p')) g1).
  { rewrite (builder_run self g [] [] Hax). cbn [length].
    unfold bind at 1. now rewrite Hj. }
  assert (Ht : truthy_R (drift_speed self) = true)
    by (apply truthy_R_nonzero; exact Hd).
  destruct (rect_stage_rotation self 0 0 p1 J0 J1) as [R0 R1].
  destruct (rect_stage_drift self 0 0 _ R0 R1) as [D0 D1].
  split; intros Hc.
  - unfold bind at 1. rewrite Hrun.
    unfold stage_recentre.
    change (centre_drift self) with (arg_centre_drift a).
    rewrite Ht, Hc. cbn [andb].
    rewrite add_drift_by_index. reflexivity.
  - unfold bind at 1. rewrite Hrun.
    unfold stage_recentre.
    change (centre_drift self) with (arg_centre_drift a).
    rewrite Ht, Hc. cbn [andb]. unfold bind, ret.
    eexists. eexists. split; [reflexivity|].
    cbn [create_parameters set_parameters set_probe_positions
         probe_positions].
    apply rect_0_nil in D0, D1.
    rewrite (surjective_pairing (stage_drift self 0 0
                                   (stage_rotation self 0 0 p1))).
    now rewrite D0, D1.
Qed.

Lemma recentring_empty_grid_raises_witness :
  (arg_centre_drift point_drift_args = true ->
   init point_drift_args rng0 = inl ValueError)
  /\ (arg_centre_drift point_drift_args = false ->
      exists m g', init point_drift_args rng0 = inr (m, g')
                   /\ probe_positions m = ([], [])).
Proof.
  apply (recentring_empty_grid_raises point_drift_args
           (mkAtom (0, 0, 0) 1) rng0); try reflexivity; simpl; lra.
Defined.

(** *** The fast branch: one atom per distinct row *)

Lemma row3_eqb_true (a b : row3) : row3_eqb a b = true <-> a = b.
Proof.
  destruct a as [[a0 a1] a2], b as [[b0 b1] b2]. unfold row3_eqb.
  destruct (Req_dec_T a0 b0), (Req_dec_T a1 b1), (Req_dec_T a2 b2);
    split; intros H; try discriminate H; try reflexivity;
    try (inversion H; contradiction); congruence.
Qed.

Lemma row3_lt_irrefl (a : row3) : ~ row3_lt a a.
Proof.
  destruct a as [[a0 a1] a2]. unfold row3_lt, row3_ltb.
  destruct (Rlt_dec a0 a0); [lra|].
  destruct (Req_dec_T a0 a0); [|discriminate].
  destruct (Rlt_dec a1 a1); [lra|].
  destruct (Req_dec_T a1 a1); [|discriminate].
  destruct (Rlt_dec a2 a2); [lra|discriminate].
Qed.

Lemma row3_lt_trans (a b c : row3) : row3_lt a b -> row3_lt b c -> row3_lt a c.
Proof.
  destruct a as [[a0 a1] a2], b as [[b0 b1] b2], c as [[c0 c1] c2].
  unfold row3_lt, row3_ltb.
  destruct (Rlt_dec a0 b0), (Req_dec_T a0 b0), (Rlt_dec a1 b1),
    (Req_dec_T a1 b1), (Rlt_dec a2 b2);
  destruct (Rlt_dec b0 c0), (Req_dec_T b0 c0), (Rlt_dec b1 c1),
    (Req_dec_T b1 c1), (Rlt_dec b2 c2);
  destruct (Rlt_dec a0 c0), (Req_dec_T a0 c0), (Rlt_dec a1 c1),
    (Req_dec_T a1 c1), (Rlt_dec a2 c2);
  intros H1 H2; try discriminate; try reflexivity; exfalso; lra.
Qed.

Lemma row3_total (a b : row3) :
  row3_eqb a b = false -> row3_ltb a b = false -> row3_lt b a.
Proof.
  destruct a as [[a0 a1] a2], b as [[b0 b1] b2].
  unfold row3_lt, row3_ltb, row3_eqb.
  destruct (Req_dec_T a0 b0), (Req_dec_T a1 b1), (Req_dec_T a2 b2),
    (Rlt_dec a0 b0), (Rlt_dec a1 b1), (Rlt_dec a2 b2);
  destruct (Rlt_dec b0 a0), (Req_dec_T b0 a0), (Rlt_dec b1 a1),
    (Req_dec_T b1 a1), (Rlt_dec b2 a2);
  intros H1 H2; try discriminate; try reflexivity; exfalso; lra.
Qed.

Lemma insert_unique_In (x r : row3) (l : list row3) :
  In r (insert_unique x l) <-> r = x \/ In r l.
Proof.
  induction l as [|y l IH]; simpl.
  - intuition congruence.
  - destruct (row3_eqb x y) eqn:E.
    + apply row3_eqb_true in E. subst y. simpl. intuition congruence.
    + destruct (row3_ltb x y); simpl; [intuition congruence|].
      rewrite IH. intuition congruence.
Qed.

Lemma insert_unique_sorted (x : row3) (l : list row3) :
  StronglySorted row3_lt l -> StronglySorted row3_lt (insert_unique x l).
Proof.
  induction 1 as [|y l Hs IH Hy]; simpl.
  - repeat constructor.
  - destruct (row3_eqb x y) eqn:E; [now constructor|].
    destruct (row3_ltb x y) eqn:L.
    + constructor; [now constructor|].
      constructor; [exact L|].
      eapply Forall_impl; [|exact Hy].
      intros z Hz. eapply row3_lt_trans; [exact L|exact Hz].
    + constructor; [exact IH|].
      apply Forall_forall. intros z Hz.
      apply insert_unique_In in Hz. destruct Hz as [->|Hz].
      * now apply row3_total.
      * rewrite Forall_forall in Hy. now apply Hy.
Qed.

Lemma insert_unique_length (x : row3) (l : list row3) :
  (length (insert_unique x l) <= S (length l))%nat.
Proof.
  induction l as [|y l IH]; simpl; [lia|].
  destruct (row3_eqb x y); [simpl; lia|].
  destruct (row3_ltb x y); simpl; lia.
Qed.

Lemma unique_rows_In (r : row3) (l : list row3) :
  In r (unique_rows l) <-> In r l.
Proof.
  induction l as [|x l IH]; simpl; [tauto|].
  rewrite insert_unique_In, IH. intuition congruence.
Qed.

Lemma unique_rows_sorted (l : list row3) :
  StronglySorted row3_lt (unique_rows l).
Proof.
  induction l as [|x l IH]; simpl; [constructor|].
  now apply insert_unique_sorted.
Qed.

Lemma unique_rows_length (l : list row3) :
  (length (unique_rows l) <= length l)%nat.
Proof.
  induction l as [|x l IH]; simpl; [lia|].
  pose proof (insert_unique_length x (unique_rows l)). lia.
Qed.

Lemma sorted_NoDup (l : list row3) : StronglySorted row3_lt l -> NoDup l.
Proof.
  induction 1 as [|y l Hs IH Hy]; constructor; [|exact IH].
  intros Hin. rewrite Forall_forall in Hy.
  exact (row3_lt_irrefl y (Hy y Hin)).
Qed.

Lemma keep_unique_rows (positions : list (R * R)) (nums : list R) :
  combine (fst (keep_unique positions nums)) (snd (keep_unique positions nums))
  = map (fun r => (fst (fst r), snd (fst r), snd r))
        (unique_rows (map (fun p => (fst (fst p), snd (fst p), snd p))
                          (combine positions nums))).
Proof.
  unfold keep_unique. cbn [fst snd]. rewrite map2_map_combine.
  generalize (unique_rows
                (map (fun p : R * R * R => (fst (fst p), snd (fst p), snd p))
                   (combine positions nums))).
  induction l as [|r l IH]; simpl; [reflexivity|]. now rewrite IH.
Qed.

Lemma row3_eta (r : row3) : (fst (fst r), snd (fst r), snd r) = r.
Proof. now destruct r as [[? ?] ?]. Qed.

Lemma init_fast_run (a : Args) (at_ : Atom) (ats : Atoms) (g : rng) :
  arg_atoms a = Some (at_ :: ats) -> arg_fast a = true ->
  init a g
  = bind (create_probe_positions
            (assign_attributes a
               (fst (keep_unique (atoms_xy (at_ :: ats))
                                 (atoms_numbers (at_ :: ats))))
               (snd (keep_unique (atoms_xy (at_ :: ats))
                                 (atoms_numbers (at_ :: ats))))))
         (fun self => ret (create_parameters self)) g.
Proof.
  intros Ha Hf. unfold init. rewrite Ha, Hf.
  cbn [truthy_atoms].
  assert (Hl : Nat.eqb (length (atoms_xy (at_ :: ats)))
                       (length (atoms_numbers (at_ :: ats))) = true).
  { apply Nat.eqb_eq. unfold atoms_xy, atoms_numbers.
    now rewrite !length_map. }
  unfold bind at 1. unfold bind at 1. unfold ret at 1.
  unfold bind at 1. unfold bind at 1. unfold ret at 1.
  rewrite Hl. unfold ret at 1. unfold bind at 1. unfold ret at 1.
  reflexivity.
Qed.

(** X21.  In fast mode a constructed model holds exactly the distinct
    [(x, y, Z)] rows of the input atoms, each once and in increasing
    lexicographic order, so never more atoms than were given.  Rows are
    compared with their atomic number: two atoms at one [(x, y)] position
    with different numbers are both kept. *)
Theorem fast_mode_keeps_distinct_rows (a : Args) (atoms : Atoms)
    (g g' : rng) (m : ImageModel) :
  arg_atoms a = Some atoms -> arg_fast a = true ->
  init a g = inr (m, g') ->
  (forall r : R * R * R,
      In r (combine (atom_positions m) (atom_numbers m))
      <-> In r (combine (atoms_xy atoms) (atoms_numbers atoms)))
  /\ StronglySorted row3_lt (combine (atom_positions m) (atom_numbers m))
  /\ NoDup (combine (atom_positions m) (atom_numbers m))
  /\ number_of_atoms m = length (combine (atom_positions m) (atom_numbers m))
  /\ (number_of_atoms m <= length atoms)%nat.
Proof.
  intros Ha Hf H.
  destruct atoms as [|at_ ats].
  { destruct (explicit_positions_raise a g) as [e He];
      [now rewrite Ha|].
    rewrite He in H. discriminate H. }
  rewrite (init_fast_run a at_ ats g Ha Hf) in H.
  inv_bind H. apply ret_inr in H. destruct H as [<- <-].
  destruct (builder_shape _ _ _ _ Hrun) as (xr & yr & p & _ & -> & _).
  cbn [create_parameters set_parameters set_probe_positions
       assign_attributes atom_positions atom_numbers number_of_atoms].
  rewrite keep_unique_rows.
  set (rows := map (fun p : R * R * R => (fst (fst p), snd (fst p), snd p))
                   (combine (atoms_xy (at_ :: ats))
                            (atoms_numbers (at_ :: ats)))).
  assert (Hid : forall l : list row3,
             map (fun r : row3 => (fst (fst r), snd (fst r), snd r)) l = l).
  { induction l as [|r l IH]; simpl; [reflexivity|].
    now rewrite IH, row3_eta. }
  assert (Hrows : rows = combine (atoms_xy (at_ :: ats))
                                 (atoms_numbers (at_ :: ats)))
    by apply Hid.
  rewrite Hid.
  split; [intros r; rewrite unique_rows_In, Hrows; tauto|].
  split; [apply unique_rows_sorted|].
  split; [apply sorted_NoDup, unique_rows_sorted|].
  assert (Hlen : length (snd (keep_unique (atoms_xy (at_ :: ats))
                                          (atoms_numbers (at_ :: ats))))
                 = length (unique_rows rows)).
  { unfold keep_unique. cbn [snd]. rewrite length_map.
    now rewrite map2_map_combine. }
  split; [exact Hlen|].
  rewrite Hlen. pose proof (unique_rows_length rows) as Hle.
  assert (Hr : length rows = S (length ats)).
  { unfold rows, atoms_xy, atoms_numbers.
    rewrite length_map, length_combine, !length_map. cbn [length]. lia. }
  change (length (at_ :: ats)) with (S (length ats)).
  rewrite <- Hr. exact Hle.
Qed.

Lemma insert_unique_nonempty (x : row3) (l : list row3) :
  insert_unique x l <> [].
Proof.
  destruct l as [|y l]; simpl; [discriminate|].
  destruct (row3_eqb x y); [discriminate|].
  destruct (row3_ltb x y); discriminate.
Qed.

Lemma init_succeeds_fast_no_drift (a : Args) (at_ : Atom) (ats : Atoms)
    (g : rng) :
  arg_atoms a = Some (at_ :: ats) -> arg_fast a = true ->
  arg_pixel_size a <> 0 -> arg_drift_speed a = 0 ->
  exists m g', init a g = inr (m, g').
Proof.
  intros Ha Hf Hpx Hd.
  rewrite (init_fast_run a at_ ats g Ha Hf).
  destruct (builder_succeeds_no_drift
              (assign_attributes a
                 (fst (keep_unique (atoms_xy (at_ :: ats))
                                   (atoms_numbers (at_ :: ats))))
                 (snd (keep_unique (atoms_xy (at_ :: ats))
                                   (atoms_numbers (at_ :: ats))))) g)
    as (xr & yr & p & g' & _ & Hb & _); [|exact Hpx|exact Hd|].
  - cbn [assign_attributes atom_positions keep_unique fst].
    intros Hnil. apply map_eq_nil in Hnil.
    exact (insert_unique_nonempty _ _ Hnil).
  - unfold bind. rewrite Hb. eexists. eexists. reflexivity.
Qed.

Lemma fast_mode_keeps_distinct_rows_witness :
  exists m g',
    init repeated_atom_args rng0 = inr (m, g')
    /\ (forall r : R * R * R,
           In r (combine (atom_positions m) (atom_numbers m))
           <-> In r [((1, 1), 2); ((0, 0), 1); ((1, 1), 2)])
    /\ StronglySorted row3_lt (combine (atom_positions m) (atom_numbers m))
    /\ NoDup (combine (atom_positions m) (atom_numbers m))
    /\ number_of_atoms m
       = length (combine (atom_positions m) (atom_numbers m))
    /\ (number_of_atoms m <= 3)%nat.
Proof.
  destruct (init_succeeds_fast_no_drift repeated_atom_args
              (mkAtom (1, 1, 0) 2)
              [mkAtom (0, 0, 0) 1; mkAtom (1, 1, 7) 2] rng0)
    as (m & g' & H); try reflexivity; [simpl; lra|].
  exists m, g'. split; [exact H|].
  exact (fast_mode_keeps_distinct_rows repeated_atom_args
           [mkAtom (1, 1, 0) 2; mkAtom (0, 0, 0) 1; mkAtom (1, 1, 7) 2]
           rng0 g' m eq_refl eq_refl H).
Defined.

(** *** get_rotation_series: errors and the random generator *)

Lemma random_angle_run (da : option R) (g : rng) :
  (match da with
   | None => bind random_one (fun u => ret (u * 2 * PI))
   | Some d => ret d
   end) g
  = inr (match da with
         | None => draws g (used g) * 2 * PI
         | Some d => d
         end,
         match da with
         | None => mkRng (draws g) (S (used g))
         | Some _ => g
         end).
Proof. destruct da; reflexivity. Qed.

(** X22.  The series driver fails in three ways before it returns
    anything: without an atoms object it calls the undefined
    [get_example_atoms] ([NameError]); with an atoms object that holds no
    atom the first [ImageModel] takes the object for missing and raises
    its [AttributeError]; and with [nImages = 0] the loop body never runs
    and [stack] rejects the empty list ([ValueError]). *)
Theorem rotation_series_errors :
  (forall vacuum px n lo hi ds da js kw g,
      get_rotation_series None vacuum px n lo hi ds da js kw g
      = inl NameError)
  /\ (forall vacuum px n lo hi ds da js kw g,
         get_rotation_series (Some []) vacuum px (S n) lo hi ds da js kw g
         = inl AttributeError)
  /\ (forall atoms vacuum px lo hi ds da js kw g,
         get_rotation_series (Some atoms) vacuum px 0 lo hi ds da js kw g
         = inl ValueError).
Proof.
  split; [reflexivity|]. split.
  - intros vacuum px n lo hi ds da js kw g.
    unfold get_rotation_series.
    unfold bind at 1. unfold ret at 1.
    unfold bind at 1. rewrite random_angle_run. cbv zeta.
    unfold linspace_open. cbn [seq map mapM].
    unfold bind at 1. unfold bind at 1. unfold series_image at 1.
    unfold bind at 1. rewrite init_no_input by reflexivity. reflexivity.
  - intros atoms vacuum px lo hi ds da js kw g.
    unfold get_rotation_series.
    unfold bind at 1. unfold ret at 1.
    unfold bind at 1. rewrite random_angle_run. cbv zeta.
    reflexivity.
Qed.

Lemma series_image_rng atoms vacuum px ds dv js kw angle g img g' :
  series_image atoms vacuum px ds dv js kw angle g = inr (img, g') ->
  draws g' = draws g
  /\ used g'
     = (used g
        + (if truthy_strength js
           then (if kw_jitter_horizontal kw
                 then length (snd (series_axes atoms vacuum px kw)) else 0)
                + (if kw_jitter_vertical kw
                   then length (snd (series_axes atoms vacuum px kw)) else 0)
           else 0))%nat.
Proof.
  intros H. apply series_image_inr in H. destruct H as (m & H & _).
  destruct (init_inr _ _ _ _ H)
    as (at_ & ats & pos & nums & self1 & Ha & _ & Hf & Hb & ->).
  cbn [series_args arg_atoms] in Ha. inversion Ha; subst atoms.
  destruct (Hf eq_refl) as [-> ->].
  destruct (builder_rng _ _ _ _ Hb) as (xr & yr & Hax & Hg).
  apply grid_axes_axes_of in Hax.
  assert (E : (xr, yr) = series_axes (at_ :: ats) vacuum px kw)
    by (rewrite Hax; reflexivity).
  rewrite <- E. cbn [snd].
  cbn [assign_attributes series_args jitter_strength jitter_horizontal
       jitter_vertical arg_jitter_strength arg_jitter_horizontal
       arg_jitter_vertical] in Hg.
  rewrite Hg. destruct (truthy_strength js); cbn [draws used].
  - split; [reflexivity|lia].
  - split; [reflexivity|lia].
Qed.

Lemma mapM_rng {A B : Type} (f : A -> M B) (k : nat) (l : list A) :
  (forall a g b g', f a g = inr (b, g') ->
                    draws g' = draws g /\ used g' = (used g + k)%nat) ->
  forall g bs g',
    mapM f l g = inr (bs, g') ->
    draws g' = draws g /\ used g' = (used g + length l * k)%nat.
Proof.
  intros Hf. induction l as [|a l IH]; intros g bs g' H; simpl in H.
  - apply ret_inr in H. destruct H as [_ <-]. simpl. split; [reflexivity|lia].
  - inv_bind H. inv_bind H. apply ret_inr in H. destruct H as [_ <-].
    destruct (Hf _ _ _ _ Hrun) as [D U].
    destruct (IH _ _ _ Hrun0) as [D' U'].
    split; [congruence|]. rewrite U', U. simpl. lia.
Qed.

Lemma series_returns at_ ats vacuum px n lo hi ds da js kw g :
  n <> 0%nat -> px <> 0 ->
  ds = 0 \/ (fst (series_axes (at_ :: ats) vacuum px kw) <> []
             /\ snd (series_axes (at_ :: ats) vacuum px kw) <> []) ->
  exists images angles ra g',
    get_rotation_series (Some (at_ :: ats)) vacuum px n lo hi ds da js kw g
    = inr ((images, angles, ra), g').
Proof.
  intros Hn Hpx Hcond.
  unfold get_rotation_series.
  unfold bind at 1. unfold ret at 1.
  unfold bind at 1. rewrite random_angle_run. cbv zeta.
  set (ra := match da with
             | None => draws g (used g) * 2 * PI
             | Some d => d
             end).
  set (g1 := match da with
             | None => mkRng (draws g) (S (used g))
             | Some _ => g
             end).
  destruct (mapM_total
              (series_image (at_ :: ats) vacuum px ds (cos ra, sin ra)
                            js kw)
              (rect (Nat.min
                       (length (snd (series_axes (at_ :: ats) vacuum px kw)))
                       (length (fst (series_axes (at_ :: ats) vacuum px kw))))
                    (Nat.min
                       (length (snd (series_axes (at_ :: ats) vacuum px kw)))
                       (length (fst (series_axes (at_ :: ats) vacuum px kw)))))
              (linspace_open lo hi n)
              (fun a g0 => series_image_succeeds at_ ats vacuum px ds
                             (cos ra, sin ra) js kw a g0 Hpx Hcond) g1)
    as (imgs & g2 & Hm & HF & HL).
  unfold bind at 1. rewrite Hm.
  assert (Hne : imgs <> []).
  { intros ->. simpl in HL. unfold linspace_open in HL.
    rewrite length_map, length_seq in HL. lia. }
  unfold bind. rewrite (stack_square _ imgs g2 Hne HF).
  eexists. eexists. eexists. eexists. reflexivity.
Qed.

(** X23.  A series that returns has advanced the random generator by one
    draw for the drift angle when none was given, and by the jitter draws
    of each of its [nImages] models: one number per grid row and enabled
    direction when the jitter strength is truthy, none otherwise.  The
    stream of numbers itself is untouched. *)
Theorem series_random_draws atoms vacuum px n lo hi ds da js kw g
    images angles ra g' :
  get_rotation_series (Some atoms) vacuum px n lo hi ds da js kw g
  = inr ((images, angles, ra), g') ->
  draws g' = draws g
  /\ used g'
     = (used g
        + (match da with None => 1 | Some _ => 0 end)
        + n * (if truthy_strength js
               then (if kw_jitter_horizontal kw
                     then length (snd (series_axes atoms vacuum px kw))
                     else 0)
                    + (if kw_jitter_vertical kw
                       then length (snd (series_axes atoms vacuum px kw))
                       else 0)
               else 0))%nat.
Proof.
  intros H. apply series_inr in H. destruct H as (Hra & Hang & _ & Hmap).
  apply (mapM_rng _ _ _ (fun a g0 b g1 =>
           series_image_rng atoms vacuum px ds (cos ra, sin ra) js kw
                            a g0 b g1)) in Hmap.
  destruct Hmap as [D U]. rewrite Hang in U.
  unfold linspace_open in U. rewrite length_map, length_seq in U.
  destruct da; cbn [draws used] in *.
  - split; [exact D|]. rewrite U. lia.
  - split; [exact D|]. rewrite U. lia.
Qed.

Lemma series_random_draws_witness :
  exists images angles ra g',
    get_rotation_series (Some two_atoms) 0 1 4 0 360 5 None (Scalar 1)
                        default_kwargs rng0
    = inr ((images, angles, ra), g')
    /\ draws g' = draws rng0
    /\ used g' = (used rng0 + 1 + 4 * (2 + 0))%nat.
Proof.
  destruct (series_returns (mkAtom (0, 0, 0) 1) [mkAtom (1, 1, 0) 2] 0 1
              4%nat 0 360 5 None (Scalar 1) default_kwargs rng0)
    as (images & angles & ra & g' & Hrun).
  - discriminate.
  - lra.
  - right. fold two_atoms. rewrite series_axes_two_atoms.
    split; discriminate.
  - exists images, angles, ra, g'. split; [exact Hrun|].
    pose proof (series_random_draws _ _ _ _ _ _ _ _ _ _ _ _ _ _ _ Hrun)
      as [D U].
    split; [exact D|]. rewrite U.
    fold two_atoms. rewrite series_axes_two_atoms.
    cbn [truthy_strength]. rewrite truthy_R_nonzero by lra.
    reflexivity.
Defined.

Lemma linspace_open_nth (lo hi : R) (n k : nat) :
  (k < n)%nat ->
  nth k (linspace_open lo hi n) 0 = INR k * ((hi - lo) / INR n) + lo.
Proof.
  intros Hk. unfold linspace_open.
  rewrite (nth_map_seq (fun i => INR i * ((hi - lo) / INR n) + lo)) by exact Hk.
  reflexivity.
Qed.

(** X24.  The scan angles of a returned series are evenly spaced from
    [minScanAngle] in steps of [(maxScanAngle - minScanAngle) / nImages],
    one per image; for [minScanAngle < maxScanAngle] they increase and stay
    in the half-open interval that excludes [maxScanAngle]. *)
Theorem series_angles_in_range atoms vacuum px n lo hi ds da js kw g
    images angles ra g' :
  get_rotation_series (Some atoms) vacuum px n lo hi ds da js kw g
  = inr ((images, angles, ra), g') ->
  lo < hi ->
  length angles = length images
  /\ length images = n
  /\ forall k : nat,
       (k < n)%nat ->
       nth k angles 0 = lo + INR k * ((hi - lo) / INR n)
       /\ lo <= nth k angles 0 < hi
       /\ (forall j : nat, (j < k)%nat -> nth j angles 0 < nth k angles 0).
Proof.
  intros H Hlt. apply series_inr in H. destruct H as (_ & Hang & _ & Hmap).
  apply mapM_inr in Hmap. apply Forall2_length in Hmap.
  assert (Hlen : length angles = n).
  { rewrite Hang. unfold linspace_open. now rewrite length_map, length_seq. }
  split; [exact Hmap|]. split; [exact (eq_trans (eq_sym Hmap) Hlen)|].
  intros k Hk. subst angles.
  assert (Hn : 0 < INR n) by (apply lt_0_INR; lia).
  assert (Hstep : 0 < (hi - lo) / INR n)
    by (apply Rdiv_lt_0_compat; lra).
  rewrite linspace_open_nth by exact Hk.
  split; [ring|]. split; [split|].
  - pose proof (pos_INR k). nra.
  - assert (Hk' : INR k < INR n) by (apply lt_INR; exact Hk).
    assert (E : INR n * ((hi - lo) / INR n) = hi - lo) by (field; lra).
    nra.
  - intros j Hj. rewrite linspace_open_nth by lia.
    assert (Hj' : INR j < INR k) by (apply lt_INR; exact Hj). nra.
Qed.

Lemma series_angles_in_range_witness :
  exists images angles ra g',
    get_rotation_series (Some two_atoms) 0 1 4 0 360 5 None (Scalar 0)
                        default_kwargs rng0
    = inr ((images, angles, ra), g')
    /\ length angles = length images
    /\ length images = 4%nat
    /\ forall k : nat,
         (k < 4)%nat ->
         nth k angles 0 = 0 + INR k * ((360 - 0) / INR 4)
         /\ 0 <= nth k angles 0 < 360
         /\ (forall j : nat, (j < k)%nat -> nth j angles 0 < nth k angles 0).
Proof.
  destruct (series_returns (mkAtom (0, 0, 0) 1) [mkAtom (1, 1, 0) 2] 0 1
              4%nat 0 360 5 None (Scalar 0) default_kwargs rng0)
    as (images & angles & ra & g' & Hrun).
  - discriminate.
  - lra.
  - right. fold two_atoms. rewrite series_axes_two_atoms.
    split; discriminate.
  - exists images, angles, ra, g'. split; [exact Hrun|].
    apply (series_angles_in_range _ _ _ _ _ _ _ _ _ _ _ _ _ _ _ Hrun). lra.
Defined.

(** *** add_drift against drift_pointsYX *)

(** X25.  The module's two drift models agree up to one step.  For the
    per-pixel speed [s / (Ny * Nx)] and the unit vector of the drift
    angle, the position [drift_pointsYX] gives the pixel [(r, c)] is the
    pixel's coordinate plus the displacement of [add_drift] for the total
    speed [s], less one more step: [drift_pointsYX] advances the drift
    before it places a pixel, [add_drift] leaves the first pixel in
    place. *)
Theorem add_drift_lags_drift_pointsYX (ny nx : nat) (angle s : R)
    (r c : nat) :
  (r < ny)%nat -> (c < nx)%nat ->
  let v := (cos (deg2rad angle), sin (deg2rad angle)) in
  let step := s / INR (ny * nx) in
  let p := nth (r * nx + c) (drift_pointsYX (ny, nx) angle step) (0, 0) in
  fst p = INR c + at2 (fst (add_drift (ny, nx) v s)) r c - fst v * step
  /\ snd p = INR r + at2 (snd (add_drift (ny, nx) v s)) r c - snd v * step.
Proof.
  intros Hr Hc v step p. unfold p.
  rewrite drift_pointsYX_closed, drift_step_value.
  rewrite (nth_concat_blocks
             (fun yi xi =>
                drifted_pixel (cos (deg2rad angle) * step,
                               sin (deg2rad angle) * step)
                              xi yi (yi * nx + xi)) ny nx r c)
    by assumption.
  destruct (add_drift_at ny nx v s r c Hr Hc) as [E0 E1].
  rewrite E0, E1. unfold drifted_pixel, v, step. cbn [fst snd].
  rewrite S_INR. split; unfold Rdiv; ring.
Qed.

Lemma add_drift_lags_drift_pointsYX_witness :
  let v := (cos (deg2rad 90), sin (deg2rad 90)) in
  let step := 5 / INR (2 * 3) in
  let p := nth (1 * 3 + 2) (drift_pointsYX (2, 3)%nat 90 step) (0, 0) in
  fst p = INR 2 + at2 (fst (add_drift (2, 3)%nat v 5)) 1 2 - fst v * step
  /\ snd p = INR 1 + at2 (snd (add_drift (2, 3)%nat v 5)) 1 2 - snd v * step.
Proof.
  apply (add_drift_lags_drift_pointsYX 2 3 90 5 1 2); lia.
Defined.

(** *** A full turn of the scan rotation *)

Lemma rotate_full_turn (deg : R) ny nx (p : grid) :
  cos (deg2rad deg) = 1 -> sin (deg2rad deg) = 0 ->
  rect ny nx (fst p) -> rect ny nx (snd p) ->
  rotate_about_mean deg ny nx p = p.
Proof.
  intros Hc Hs R0 R1.
  destruct (rect_rotate_about_mean deg ny nx p R0 R1) as [Q0 Q1].
  rewrite (surjective_pairing (rotate_about_mean deg ny nx p)).
  rewrite (surjective_pairing p) at 3.
  f_equal; apply (array2_ext ny nx); try assumption; intros r c Hr Hcc;
    destruct (rotate_about_mean_at deg ny nx p r c R0 R1 Hr Hcc) as [E0 E1];
    rewrite ?E0, ?E1, Hc, Hs; ring.
Qed.

Lemma rotate_about_mean_period (deg : R) ny nx (p : grid) :
  rotate_about_mean (deg + 360) ny nx p = rotate_about_mean deg ny nx p.
Proof.
  unfold rotate_about_mean, rotation_matrix.
  rewrite deg2rad_plus, deg2rad_360, cos_plus, sin_plus, cos_2PI, sin_2PI.
  rewrite !Rmult_1_r, !Rmult_0_r, Rminus_0_r, Rplus_0_r. reflexivity.
Qed.

Lemma stage_rotation_full_turn (self : ImageModel) ny nx (p : grid) :
  rect ny nx (fst p) -> rect ny nx (snd p) ->
  stage_rotation (set_scan_rotation self (scan_rotation self + 360)) ny nx p
  = stage_rotation self ny nx p.
Proof.
  intros R0 R1. unfold stage_rotation.
  cbn [set_scan_rotation scan_rotation].
  unfold truthy_R.
  destruct (Req_dec_T (scan_rotation self + 360) 0) as [E|E],
           (Req_dec_T (scan_rotation self) 0) as [E'|E'].
  - reflexivity.
  - symmetry. apply rotate_full_turn; try assumption.
    + replace (scan_rotation self) with (Ropp 360) by lra.
      rewrite deg2rad_opp, deg2rad_360, cos_neg. apply cos_2PI.
    + replace (scan_rotation self) with (Ropp 360) by lra.
      rewrite deg2rad_opp, deg2rad_360, sin_neg, sin_2PI. ring.
  - rewrite rotate_about_mean_period. rewrite E'.
    apply rotate_full_turn; try assumption.
    + replace (deg2rad 0) with 0 by (unfold deg2rad; lra). apply cos_0.
    + replace (deg2rad 0) with 0 by (unfold deg2rad; lra). apply sin_0.
  - apply rotate_about_mean_period.
Qed.

(** X26.  The builder is periodic in the scan rotation: 360 degrees more
    give the same probe grid, the same outcome and the same use of the
    random generator.  This holds across the truth test on
    [scan_rotation] too, where an angle of 0 skips the rotation and one of
    360 performs it. *)
Theorem scan_rotation_full_turn (self : ImageModel) (g : rng) :
  create_probe_positions
    (set_scan_rotation self (scan_rotation self + 360)) g
  = bind (create_probe_positions self)
         (fun m => ret (set_scan_rotation m (scan_rotation self + 360))) g.
Proof.
  set (self' := set_scan_rotation self (scan_rotation self + 360)).
  assert (Hg : grid_axes self' g = grid_axes self g) by reflexivity.
  destruct (grid_axes self g) as [e|[[xr yr] g0]] eqn:Hax.
  - unfold bind at 1. rewrite create_probe_positions_staged.
    rewrite create_probe_positions_staged. unfold builder_in_order.
    unfold bind. rewrite Hg, Hax. reflexivity.
  - destruct (grid_axes_inr _ _ _ _ Hax) as (-> & _ & _).
    unfold bind at 1.
    rewrite (builder_run self g xr yr Hax).
    rewrite (builder_run self' g xr yr Hg).
    destruct (rect_meshgrid xr yr) as [M0 M1].
    destruct (stage_jitter_run self (length yr) (length xr)
                (meshgrid xr yr) g M0 M1) as (p1 & g1 & Hj & J0 & J1).
    change (stage_jitter self' (length yr) (length xr) (meshgrid xr yr))
      with (stage_jitter self (length yr) (length xr) (meshgrid xr yr)).
    unfold bind at 3. unfold bind at 1. rewrite Hj.
    unfold self'. rewrite stage_rotation_full_turn by assumption.
    fold self'.
    set (q := stage_drift self (length yr) (length xr)
                (stage_rotation self (length yr) (length xr) p1)).
    change (stage_drift self' (length yr) (length xr)
              (stage_rotation self (length yr) (length xr) p1)) with q.
    change (stage_recentre self' (length yr) (length xr) q)
      with (stage_recentre self (length yr) (length xr) q).
    unfold bind.
    destruct (stage_recentre self (length yr) (length xr) q g1)
      as [e|[p2 g2]]; reflexivity.
Qed.

(** *** The field of view *)

Lemma min1_le (x : R) (l : array1) :
  min1 x l <= x /\ forall v, In v l -> min1 x l <= v.
Proof.
  unfold min1. revert x. induction l as [|y l IH]; intros x; simpl.
  - split; [lra|contradiction].
  - destruct (IH (Rmin x y)) as [H0 H1].
    pose proof (Rmin_l x y). pose proof (Rmin_r x y).
    split; [lra|]. intros v [<-|Hv]; [lra|now apply H1].
Qed.

Lemma max1_ge (x : R) (l : array1) :
  x <= max1 x l /\ forall v, In v l -> v <= max1 x l.
Proof.
  unfold max1. revert x. induction l as [|y l IH]; intros x; simpl.
  - split; [lra|contradiction].
  - destruct (IH (Rmax x y)) as [H0 H1].
    pose proof (Rmax_l x y). pose proof (Rmax_r x y).
    split; [lra|]. intros v [<-|Hv]; [lra|now apply H1].
Qed.

Lemma ceilZ_ge (x : R) : x <= IZR (ceilZ x).
Proof.
  unfold ceilZ. rewrite minus_IZR.
  destruct (archimed (- x)) as [_ H]. lra.
Qed.

Lemma arange_len_ge (start stop step : R) :
  (stop - start) / step <= INR (arange_len start stop step).
Proof.
  unfold arange_len.
  pose proof (ceilZ_ge ((stop - start) / step)) as H.
  destruct (Z_lt_le_dec (ceilZ ((stop - start) / step)) 0) as [Hn|Hp].
  - apply IZR_lt in Hn. pose proof (pos_INR (Z.to_nat (ceilZ ((stop - start) / step)))). lra.
  - rewrite INR_IZR_INZ, Z2Nat.id by exact Hp. exact H.
Qed.

(** The samples of [arange] reach to within one step of [stop]. *)
Lemma arange_values_reach (start stop step : R) (n : nat) :
  0 < step -> length (arange_values start stop step) = S n ->
  nth 0 (arange_values start stop step) 0 = start
  /\ stop <= nth n (arange_values start stop step) 0 + step.
Proof.
  intros Hs Hl.
  rewrite !nth_arange_values by lia.
  split; [simpl; ring|].
  pose proof (arange_len_ge start stop step) as H.
  unfold arange_values in Hl. rewrite length_map, length_seq in Hl.
  rewrite Hl, S_INR in H.
  apply (Rmult_le_compat_r step) in H; [|lra].
  unfold Rdiv in H. rewrite Rmult_assoc, Rinv_l, Rmult_1_r in H by lra.
  lra.
Qed.

(** The axis ranges enclose every atom with the margin on both sides. *)
Lemma grid_axes_enclose (self : ImageModel) (g g' : rng) (xr yr : array1)
    (nx ny : nat) :
  grid_axes self g = inr ((xr, yr), g') ->
  0 < pixel_size self -> 0 <= margin self ->
  length xr = S nx -> length yr = S ny ->
  forall x y, In (x, y) (atom_positions self) ->
    nth 0 xr 0 + margin self <= x
    /\ x + margin self <= nth nx xr 0 + pixel_size self
    /\ nth 0 yr 0 + margin self <= y
    /\ y + margin self <= nth ny yr 0 + pixel_size self.
Proof.
  unfold grid_axes, bind, min0, max0, raise, ret, lift, arange.
  destruct (atom_positions self) as [|p0 l]; [discriminate|].
  destruct (Req_dec_T (pixel_size self) 0); [discriminate|].
  intros H Hpx Hm Lx Ly x y Hin. inversion H as [[Ex Ey Eg]]. clear H.
  subst xr yr g'.
  destruct (arange_values_reach _ _ _ nx Hpx Lx) as [X0 X1].
  destruct (arange_values_reach _ _ _ ny Hpx Ly) as [Y0 Y1].
  rewrite X0, Y0. clear X0 Y0.
  destruct (min1_le (fst p0) (map fst l)) as [mx0 mx1].
  destruct (min1_le (snd p0) (map snd l)) as [my0 my1].
  destruct (max1_ge (fst p0) (map fst l)) as [Mx0 Mx1].
  destruct (max1_ge (snd p0) (map snd l)) as [My0 My1].
  assert (Hx : min1 (fst p0) (map fst l) <= x <= max1 (fst p0) (map fst l)).
  { destruct Hin as [->|Hin]; [cbn [fst snd] in *; lra|].
    assert (In x (map fst l)) by (apply (in_map fst) in Hin; exact Hin).
    split; auto. }
  assert (Hy : min1 (snd p0) (map snd l) <= y <= max1 (snd p0) (map snd l)).
  { destruct Hin as [->|Hin]; [cbn [fst snd] in *; lra|].
    assert (In y (map snd l)) by (apply (in_map snd) in Hin; exact Hin).
    split; auto. }
  set (xmin := min1 (fst p0) (map fst l)) in *.
  set (xmax := max1 (fst p0) (map fst l)) in *.
  set (ymin := min1 (snd p0) (map snd l)) in *.
  set (ymax := max1 (snd p0) (map snd l)) in *.
  destruct (square self).
  - pose proof (Rmin_l (xmin - margin self) (ymin - margin self)).
    pose proof (Rmin_r (xmin - margin self) (ymin - margin self)).
    pose proof (Rmax_l (xmax + margin self) (ymax + margin self)).
    pose proof (Rmax_r (xmax + margin self) (ymax + margin self)).
    repeat split; lra.
  - repeat split; lra.
Qed.

(** X27.  Without jitter, rotation and drift, and for a positive pixel
    size and a non-negative vacuum, the scanned window holds every atom
    with the vacuum around it: the first sample of each axis lies at
    least the vacuum below each atom, and the last sample plus one pixel
    at least the vacuum above it, in square mode too. *)
Theorem field_of_view_covers_atoms (a : Args) (g g' : rng) (m : ImageModel)
    (ny nx : nat) :
  init a g = inr (m, g') ->
  arg_jitter_strength a = Scalar 0 -> arg_scan_rotation a = 0 ->
  arg_drift_speed a = 0 ->
  0 < arg_pixel_size a -> 0 <= arg_vacuum a ->
  shape2 (fst (probe_positions m)) = (S ny, S nx) ->
  forall x y : R,
    In (x, y) (atom_positions m) ->
    at2 (fst (probe_positions m)) 0 0 + arg_vacuum a <= x
    /\ x + arg_vacuum a
       <= at2 (fst (probe_positions m)) 0 nx + arg_pixel_size a
    /\ at2 (snd (probe_positions m)) 0 0 + arg_vacuum a <= y
    /\ y + arg_vacuum a
       <= at2 (snd (probe_positions m)) ny 0 + arg_pixel_size a.
Proof.
  intros H Hj Hrot Hd Hpx Hv Hshape x y Hin.
  destruct (init_builder a g g' m H)
    as (pos & nums & xr & yr & p & Hax & Hb & -> & R0 & R1).
  rewrite (builder_plain _ g xr yr Hax Hj Hrot Hd) in Hb.
  inversion Hb as [[Hp Hg]]. subst p.
  cbn [create_parameters set_parameters set_probe_positions
       probe_positions atom_positions assign_attributes] in *.
  assert (Hy : length yr = S ny).
  { unfold shape2 in Hshape. destruct R0 as [L F].
    rewrite L in Hshape. now inversion Hshape. }
  assert (Hx : length xr = S nx).
  { unfold shape2 in Hshape.
    rewrite (rect_hd _ _ _ R0) in Hshape by lia. now inversion Hshape. }
  destruct (at2_meshgrid xr yr 0 0 ltac:(lia) ltac:(lia)) as [Z0 Z1].
  destruct (at2_meshgrid xr yr 0 nx ltac:(lia) ltac:(lia)) as [E0 _].
  destruct (at2_meshgrid xr yr ny 0 ltac:(lia) ltac:(lia)) as [_ E1].
  rewrite Z0, Z1, E0, E1.
  apply (grid_axes_enclose _ g g xr yr nx ny Hax Hpx Hv Hx Hy x y Hin).
Qed.

Lemma field_of_view_covers_atoms_witness :
  at2 (fst (probe_positions two_atom_model)) 0 0
  + arg_vacuum two_atom_args <= 1
  /\ 1 + arg_vacuum two_atom_args
     <= at2 (fst (probe_positions two_atom_model)) 0 1
        + arg_pixel_size two_atom_args
  /\ at2 (snd (probe_positions two_atom_model)) 0 0
     + arg_vacuum two_atom_args <= 1
  /\ 1 + arg_vacuum two_atom_args
     <= at2 (snd (probe_positions two_atom_model)) 1 0
        + arg_pixel_size two_atom_args.
Proof.
  apply (field_of_view_covers_atoms two_atom_args rng0 rng0 two_atom_model
           1 1 (two_atom_model_run rng0));
    try reflexivity; try (simpl; lra).
  simpl. right. left. reflexivity.
Defined.
